(** * Image import pipeline of [image/tarexport/load.go]

    A shallow embedding of the Go functions [Load], [loadHelper],
    [loadLayer], [setLoadedTag], [ociLoad], [legacyLoad],
    [legacyLoadImage] and [safePath], followed by theorems about them.

    The functions talk to collaborators that live outside the file: the
    file system below the extraction root, the JSON decoders, the layer
    store [l.ls], the image store [l.is] and the reference store [l.rs].
    These are gathered in a record [Env]; the stores own a state of an
    arbitrary type [Σ] which every store call may change.  Each call to a
    collaborator is written to a trace of [event]s, oldest first, so that
    statements such as "Create is not invoked" or "the open is preceded by
    the path guard" are statements about lists.

    Conventions of the embedding:
    - a Go function returning [error] is a computation in the monad [M],
      which threads the state and the trace and ends with a value, an
      error, a panic, or without an answer within the fuel (only the
      recursion of [legacyLoadImage] is fuel-bounded);
    - the extracted tree does not change during an import, so the file
      system is a function of the path; the value that [os.Open] yields
      stands for the content the decoders will read from the file;
    - a [for ... range] loop over a slice is a [Fixpoint] over the list; a
      loop over a Go map runs in the order the environment lists the
      entries;
    - the load map of the legacy adapter is a Go map shared by reference:
      it is a field of the state, as is the stack of the calls deferred by
      [loadHelper];
    - logging ([logrus]) and the closing of successfully opened files are
      left out. *)

From stdpp Require Import base option list strings gmap.

Set Default Proof Using "Type".


(** ** Data model *)

Definition DiffID := string.
Definition ChainID := string.
Definition ImageID := string.

(** [image.RootFS]: the type tag and the ordered diff identities. *)
Record RootFS := mkRootFS { RootFS_Type : string; DiffIDs : list DiffID }.

(** [func (r *RootFS) Append(id layer.DiffID)]. *)
Definition RootFS_Append (r : RootFS) (id : DiffID) : RootFS :=
  mkRootFS (RootFS_Type r) (DiffIDs r ++ [id]).

(** [image.NewRootFS()]. *)
Definition NewRootFS : RootFS := mkRootFS "layers" [].

(** One entry of [image.History]; its content is opaque to the importer. *)
Definition History := string.

(** The part of [image.Image] that the importer reads. *)
Record Image := mkImage { Image_RootFS : RootFS; Image_History : list History }.

(** A handle of [layer.Layer]; the importer only calls [DiffID()]. *)
Record Layer := mkLayer { Layer_ChainID : ChainID; Layer_DiffID : DiffID }.

#[global] Instance Layer_eq_dec : EqDecision Layer.
Proof. solve_decision. Defined.

(** [manifestItem] of the structured manifest. *)
Record manifestItem := mkManifestItem {
  Config : string;
  RepoTags : list string;
  Layers : list string
}.

(** [reference.NamedTagged] and [reference.Named]. *)
Record NamedTagged := mkNamedTagged { ref_name : string; ref_tag : string }.

#[global] Instance NamedTagged_eq_dec : EqDecision NamedTagged.
Proof. solve_decision. Defined.

Inductive Named :=
| NameOnly (name : string)
| WithTagged (r : NamedTagged).

Definition NamedTagged_String (r : NamedTagged) : string :=
  ref_name r +:+ ":" +:+ ref_tag r.

Definition Named_String (n : Named) : string :=
  match n with
  | NameOnly s => s
  | WithTagged r => NamedTagged_String r
  end.

(** The type assertion [named.(reference.NamedTagged)]. *)
Definition asNamedTagged (n : Named) : option NamedTagged :=
  match n with
  | NameOnly _ => None
  | WithTagged r => Some r
  end.

(** [ociv1.Descriptor], [ociv1.ImageIndex] and [ociv1.Manifest]. *)
Record Descriptor := mkDescriptor {
  MediaType : string;
  Digest : string;
  Annotations : gmap string string
}.

Record ImageIndex := mkImageIndex { Manifests : list Descriptor }.

Record Manifest := mkManifest {
  Manifest_Config : Descriptor;
  Manifest_Layers : list Descriptor
}.

Definition MediaTypeImageManifest : string :=
  "application/vnd.oci.image.manifest.v1+json".

(** An entry of [ioutil.ReadDir]. *)
Record FileInfo := mkFileInfo { Name : string; IsDir : bool }.

(** ** Errors *)

(** The errors the importer builds itself with [fmt.Errorf], the error
    kinds it tells apart ([os.IsNotExist]), and the errors that come back
    from collaborators.  [ErrInvalid] is [os.ErrInvalid], the result of
    [Close] of [os.File] on a nil receiver. *)
Inductive error :=
| ErrPathEscape (path : string)
| ErrNotExist (path : string)
| ErrInvalid
| ErrExternal (what : string)
| ErrLayersLengthMismatch (expected actual : nat)
| ErrInvalidDiffID (i : nat) (expected actual : DiffID)
| ErrInvalidTag (repoTag : string)
| ErrNameAndRefs
| ErrNoNameMapping
| ErrNoRefName
| ErrNoNaming (refName : string)
| ErrInvalidTargetID (oldID : string).

#[global] Instance error_eq_dec : EqDecision error.
Proof. solve_decision. Defined.

(** [os.IsNotExist]. *)
Definition os_IsNotExist (e : error) : bool :=
  match e with
  | ErrNotExist _ => true
  | _ => false
  end.

(** [Close] of [os.File]: a nil receiver yields [os.ErrInvalid]; closing an
    open file of the extracted tree succeeds. *)
Definition File_Close (f : option string) : option error :=
  match f with
  | None => Some ErrInvalid
  | Some _ => None
  end.

(** ** Trace of collaborator calls *)

Inductive event :=
| EvFollowSymlink (path root : string) (r : error + string)
| EvOpen (path : string)
| EvStat (path : string)
| EvReadDir (path : string)
| EvRemoveAll (path : string)
| EvLsGet (c : ChainID) (r : option Layer)
| EvLsRegister (data : string) (parent : ChainID) (progressID : option string)
               (r : option Layer)
| EvLsRelease (l : Layer)
| EvIsCreate (config : string) (r : option ImageID)
| EvIsGet (id : ImageID)
| EvIsSetParent (id parent : ImageID)
| EvRsGet (ref : NamedTagged)
| EvRsAddTag (ref : NamedTagged) (id : ImageID) (force : bool)
| EvWrite (msg : string).

#[global] Instance event_eq_dec : EqDecision event.
Proof. solve_decision. Defined.

(** ** Collaborators *)

Record Env (Σ : Type) := mkEnv {
  (* constants of the package declared next to load.go *)
  manifestFileName : string;
  legacyRepositoriesFileName : string;
  legacyConfigFileName : string;
  legacyLayerFileName : string;
  (* path/filepath, pkg/symlink, os, io/ioutil, chrootarchive *)
  filepath_Join : list string → string;
  FollowSymlinkInScope : string → string → error + string;
  os_Open : string → error + string;
  os_Stat : string → error + nat;
  ioutil_ReadDir : string → error + list FileInfo;
  ioutil_TempDir : error + string;
  chrootarchive_Untar : string → string → option error;
  (* decoders *)
  decodeManifest : string → error + list manifestItem;
  decodeIndex : string → error + ImageIndex;
  decodeOCIManifest : string → error + Manifest;
  decodeRepositories : string → error + list (string * list (string * string));
  unmarshalParent : string → error + string;
  image_NewFromJSON : string → error + Image;
  v1_HistoryFromConfig : string → bool → error + History;
  v1_MakeConfigFromV1Config : string → RootFS → list History → error + string;
  archive_DecompressStream : string → error + string;
  (* layer, digest, stringid, reference, streamformatter *)
  CreateChainID : list DiffID → ChainID;
  Digest_Algorithm : string → option string;
  Digest_Hex : string → option string;
  stringid_TruncateID : string → string;
  reference_ParseNamed : string → error + Named;
  reference_WithName : string → error + Named;
  reference_WithTag : Named → string → error + NamedTagged;
  getRefs : gmap string string → error + gmap string Named;
  FormatStatus : string → string;
  (* the layer store l.ls *)
  ls_Get : Σ → ChainID → (error + Layer) * Σ;
  ls_Register : Σ → string → ChainID → (error + Layer) * Σ;
  ls_Release : Σ → Layer → option error * Σ;
  (* the image store l.is *)
  is_Create : Σ → string → (error + ImageID) * Σ;
  is_Get : Σ → ImageID → error + Image;
  is_SetParent : Σ → ImageID → ImageID → option error * Σ;
  (* the reference store l.rs *)
  rs_Get : Σ → NamedTagged → error + ImageID;
  rs_AddTag : Σ → NamedTagged → ImageID → bool → option error * Σ
}.

Arguments mkEnv {Σ}.
Arguments manifestFileName {Σ} _.
Arguments legacyRepositoriesFileName {Σ} _.
Arguments legacyConfigFileName {Σ} _.
Arguments legacyLayerFileName {Σ} _.
Arguments filepath_Join {Σ} _ _.
Arguments FollowSymlinkInScope {Σ} _ _ _.
Arguments os_Open {Σ} _ _.
Arguments os_Stat {Σ} _ _.
Arguments ioutil_ReadDir {Σ} _ _.
Arguments ioutil_TempDir {Σ} _.
Arguments chrootarchive_Untar {Σ} _ _ _.
Arguments decodeManifest {Σ} _ _.
Arguments decodeIndex {Σ} _ _.
Arguments decodeOCIManifest {Σ} _ _.
Arguments decodeRepositories {Σ} _ _.
Arguments unmarshalParent {Σ} _ _.
Arguments image_NewFromJSON {Σ} _ _.
Arguments v1_HistoryFromConfig {Σ} _ _ _.
Arguments v1_MakeConfigFromV1Config {Σ} _ _ _ _.
Arguments archive_DecompressStream {Σ} _ _.
Arguments CreateChainID {Σ} _ _.
Arguments Digest_Algorithm {Σ} _ _.
Arguments Digest_Hex {Σ} _ _.
Arguments stringid_TruncateID {Σ} _ _.
Arguments reference_ParseNamed {Σ} _ _.
Arguments reference_WithName {Σ} _ _.
Arguments reference_WithTag {Σ} _ _ _.
Arguments getRefs {Σ} _ _.
Arguments FormatStatus {Σ} _ _.
Arguments ls_Get {Σ} _ _ _.
Arguments ls_Register {Σ} _ _ _ _.
Arguments ls_Release {Σ} _ _ _.
Arguments is_Create {Σ} _ _ _.
Arguments is_Get {Σ} _ _ _.
Arguments is_SetParent {Σ} _ _ _ _.
Arguments rs_Get {Σ} _ _ _.
Arguments rs_AddTag {Σ} _ _ _ _ _.

(** ** The monad of the importer *)

(** How a call ends: with a value, with a Go [error], with a run-time
    panic, or (only for the fuel-bounded recursion of the legacy adapter)
    without an answer within the fuel. *)
Inductive result (A : Type) :=
| Ok (a : A)
| Err (e : error)
| Panic (msg : string)
| OutOfFuel.

Arguments Ok {A} _.
Arguments Err {A} _.
Arguments Panic {A} _.
Arguments OutOfFuel {A}.

(** The mutable state an import threads through: the stores, the legacy
    load map (a Go map, shared by reference among all calls of
    [legacyLoadImage]) and the stack of calls deferred by the running
    [loadHelper] frame. *)
Record State (Σ : Type) := mkState {
  stores : Σ;
  loadedMap : gmap string ImageID;
  deferred : list Layer
}.

Arguments mkState {Σ} _ _ _.
Arguments stores {Σ} _.
Arguments loadedMap {Σ} _.
Arguments deferred {Σ} _.

Definition M (Σ A : Type) : Type := State Σ → result A * State Σ * list event.

Section Monad.
Context {Σ : Type}.

Definition ret {A} (a : A) : M Σ A := λ s, (Ok a, s, []).

Definition bind {A B} (m : M Σ A) (f : A → M Σ B) : M Σ B := λ s,
  match m s with
  | (Ok a, s1, t1) => let '(r, s2, t2) := f a s1 in (r, s2, t1 ++ t2)
  | (Err e, s1, t1) => (Err e, s1, t1)
  | (Panic msg, s1, t1) => (Panic msg, s1, t1)
  | (OutOfFuel, s1, t1) => (OutOfFuel, s1, t1)
  end.

(** [return err]. *)
Definition throw {A} (e : error) : M Σ A := λ s, (Err e, s, []).

Definition panic {A} (msg : string) : M Σ A := λ s, (Panic msg, s, []).

Definition outOfFuel {A} : M Σ A := λ s, (OutOfFuel, s, []).

Definition emit (ev : event) : M Σ unit := λ s, (Ok tt, s, [ev]).

(** Lift the [(value, error)] pair of a pure collaborator. *)
Definition liftE {A} (r : error + A) : M Σ A :=
  match r with
  | inl e => throw e
  | inr a => ret a
  end.

(** [v, err := m] where the caller inspects [err] itself. *)
Definition catch {A} (m : M Σ A) : M Σ (error + A) := λ s,
  match m s with
  | (Ok a, s1, t1) => (Ok (inr a), s1, t1)
  | (Err e, s1, t1) => (Ok (inl e), s1, t1)
  | (Panic msg, s1, t1) => (Panic msg, s1, t1)
  | (OutOfFuel, s1, t1) => (OutOfFuel, s1, t1)
  end.

(** A call statement whose [error] result is dropped. *)
Definition discard {A} (m : M Σ A) : M Σ unit :=
  bind (catch m) (λ _, ret tt).

Definition getState : M Σ (State Σ) := λ s, (Ok s, s, []).

Definition putState (s' : State Σ) : M Σ unit := λ _, (Ok tt, s', []).
End Monad.

#[global] Instance M_ret {Σ} : MRet (M Σ) := λ A, ret.
#[global] Instance M_bind {Σ} : MBind (M Σ) := λ A B f m, bind m f.

(** ** The importer *)

Section Importer.
Context {Σ : Type} (E : Env Σ).

Definition setStores (s : State Σ) (σ : Σ) : State Σ :=
  mkState σ (loadedMap s) (deferred s).

(** A store call that returns a value and an [error]. *)
Definition callStore {A} (f : Σ → (error + A) * Σ) (ev : option A → event)
  : M Σ A := λ s,
  let '(r, σ) := f (stores s) in
  match r with
  | inl e => (Err e, setStores s σ, [ev None])
  | inr a => (Ok a, setStores s σ, [ev (Some a)])
  end.

(** A store call that returns only an [error]. *)
Definition callStore_ (f : Σ → option error * Σ) (ev : event) : M Σ unit :=
  λ s,
  let '(r, σ) := f (stores s) in
  match r with
  | Some e => (Err e, setStores s σ, [ev])
  | None => (Ok tt, setStores s σ, [ev])
  end.

(** A store query that leaves the store as it is. *)
Definition queryStore {A} (f : Σ → error + A) (ev : event) : M Σ A := λ s,
  match f (stores s) with
  | inl e => (Err e, s, [ev])
  | inr a => (Ok a, s, [ev])
  end.

Definition lsGet (c : ChainID) : M Σ Layer :=
  callStore (λ σ, ls_Get E σ c) (EvLsGet c).

Definition lsRegister (data : string) (parent : ChainID)
    (progressID : option string) : M Σ Layer :=
  callStore (λ σ, ls_Register E σ data parent)
            (EvLsRegister data parent progressID).

Definition lsRelease (l : Layer) : M Σ unit :=
  callStore_ (λ σ, ls_Release E σ l) (EvLsRelease l).

Definition isCreate (config : string) : M Σ ImageID :=
  callStore (λ σ, is_Create E σ config) (EvIsCreate config).

Definition isGet (id : ImageID) : M Σ Image :=
  queryStore (λ σ, is_Get E σ id) (EvIsGet id).

Definition isSetParent (id parent : ImageID) : M Σ unit :=
  callStore_ (λ σ, is_SetParent E σ id parent) (EvIsSetParent id parent).

Definition rsGet (ref : NamedTagged) : M Σ ImageID :=
  queryStore (λ σ, rs_Get E σ ref) (EvRsGet ref).

Definition rsAddTag (ref : NamedTagged) (id : ImageID) (force : bool)
  : M Σ unit :=
  callStore_ (λ σ, rs_AddTag E σ ref id force) (EvRsAddTag ref id force).

(** [os.Open]; the value stands for the content the file will yield. *)
Definition osOpen (path : string) : M Σ string :=
  emit (EvOpen path);; liftE (os_Open E path).

(** [ioutil.ReadFile] opens the path and reads it to the end. *)
Definition ioutil_ReadFile (path : string) : M Σ string :=
  emit (EvOpen path);; liftE (os_Open E path).

Definition osStat (path : string) : M Σ nat :=
  emit (EvStat path);; liftE (os_Stat E path).

(** [outStream.Write] and [fmt.Fprintf(outStream, ...)]; their results
    are not looked at by the importer. *)
Definition write (msg : string) : M Σ unit := emit (EvWrite msg).

(** [[
    func safePath(base, path string) (string, error) {
      return symlink.FollowSymlinkInScope(filepath.Join(base, path), base)
    }
    ]] *)
Definition safePath (base path : string) : M Σ string :=
  let p := filepath_Join E [base; path] in
  let r := FollowSymlinkInScope E p base in
  emit (EvFollowSymlink p base r);; liftE r.

(** [loadLayer]: open the blob, decompress it and register the stream
    against the chain identity of [rootFS].  With a progress output the
    file is also [Stat]ed and the reader reports under the truncated
    [id]. *)
Definition loadLayer (filename : string) (rootFS : RootFS) (id : string)
    (progressOutput : bool) : M Σ Layer :=
  rawTar ← osOpen filename;
  inflatedLayerData ← liftE (archive_DecompressStream E rawTar);
  if progressOutput then
    _ ← osStat filename;
    lsRegister inflatedLayerData (CreateChainID E (DiffIDs rootFS))
               (Some (stringid_TruncateID E id))
  else
    lsRegister inflatedLayerData (CreateChainID E (DiffIDs rootFS)) None.

(** [setLoadedTag]: a notice when the reference is bound to another
    image, then [AddTag] with force; the error of [AddTag] is returned. *)
Definition setLoadedTag (ref : NamedTagged) (imgID : ImageID) : M Σ unit :=
  prev ← catch (rsGet ref);
  match prev with
  | inr prevID =>
      if decide (prevID ≠ imgID) then
        write ("The image " +:+ NamedTagged_String ref +:+
               " already exists, renaming the old one with ID " +:+
               prevID +:+ " to empty string" +:+ String (Ascii.ascii_of_nat 10) EmptyString)
      else ret tt
  | inl _ => ret tt
  end;;
  rsAddTag ref imgID true.

(** [defer layer.ReleaseAndLog(l.ls, newLayer)]: pushed on the stack of
    the running [loadHelper] frame. *)
Definition defer_ReleaseAndLog (newLayer : Layer) : M Σ unit := λ s,
  (Ok tt, mkState (stores s) (loadedMap s) (newLayer :: deferred s), []).

(** The deferred calls run last-in first-out when the frame is left;
    [layer.ReleaseAndLog] only logs what [Release] returns. *)
Fixpoint runDeferred (ls : list Layer) (σ : Σ) : Σ * list event :=
  match ls with
  | [] => (σ, [])
  | l :: rest =>
      let '(σ', t) := runDeferred rest (ls_Release E σ l).2 in
      (σ', EvLsRelease l :: t)
  end.

Definition withDeferred {A} (body : M Σ A) : M Σ A := λ s,
  let '(r, s1, t1) := body (mkState (stores s) (loadedMap s) []) in
  match r with
  | OutOfFuel => (r, s1, t1)
  | _ =>
      let '(σ2, t2) := runDeferred (deferred s1) (stores s1) in
      (r, mkState σ2 (loadedMap s1) (deferred s), t1 ++ t2)
  end.

(** The inner loop [for i, diffID := range img.RootFS.DiffIDs] of
    [loadHelper], entered at index [i] with the diff identities still to
    visit. *)
Fixpoint loadLayers (tmpDir : string) (progressOutput : bool)
    (m : manifestItem) (i : nat) (diffIDs : list DiffID) (rootFS : RootFS)
  : M Σ RootFS :=
  match diffIDs with
  | [] => ret rootFS
  | diffID :: rest =>
      match Layers m !! i with
      | None => panic "index out of range"
      | Some layerFile =>
          layerPath ← safePath tmpDir layerFile;
          let r := RootFS_Append rootFS diffID in
          newLayer ← (got ← catch (lsGet (CreateChainID E (DiffIDs r)));
                      match got with
                      | inr l => ret l
                      | inl _ =>
                          loadLayer layerPath rootFS diffID progressOutput
                      end);
          defer_ReleaseAndLog newLayer;;
          if decide (diffID ≠ Layer_DiffID newLayer) then
            throw (ErrInvalidDiffID i diffID (Layer_DiffID newLayer))
          else
            loadLayers tmpDir progressOutput m (S i) rest
                       (RootFS_Append rootFS diffID)
      end
  end.

Definition loadedMessage (ref : NamedTagged) (imgID : ImageID) : string :=
  FormatStatus E (NamedTagged_String ref +:+ "(" +:+ imgID +:+
                  ") has been loaded.").

(** The loop [for _, repoTag := range m.RepoTags] of [loadHelper]. *)
Fixpoint loadRepoTags (imgID : ImageID) (repoTags : list string) : M Σ unit :=
  match repoTags with
  | [] => ret tt
  | repoTag :: rest =>
      named ← liftE (reference_ParseNamed E repoTag);
      match asNamedTagged named with
      | None => throw (ErrInvalidTag repoTag)
      | Some ref =>
          discard (setLoadedTag ref imgID);;
          write (loadedMessage ref imgID);;
          loadRepoTags imgID rest
      end
  end.

(** The body of the loop [for _, m := range manifests] of [loadHelper]. *)
Definition loadManifestItem (tmpDir : string) (progressOutput : bool)
    (m : manifestItem) : M Σ unit :=
  configPath ← safePath tmpDir (Config m);
  config ← ioutil_ReadFile configPath;
  img ← liftE (image_NewFromJSON E config);
  let rootFS := mkRootFS (RootFS_Type (Image_RootFS img)) [] in
  let expected := length (Layers m) in
  let actual := length (DiffIDs (Image_RootFS img)) in
  if decide (expected ≠ actual) then
    throw (ErrLayersLengthMismatch expected actual)
  else
    _ ← loadLayers tmpDir progressOutput m 0 (DiffIDs (Image_RootFS img))
                   rootFS;
    imgID ← isCreate config;
    loadRepoTags imgID (RepoTags m).

Fixpoint loadManifests (tmpDir : string) (progressOutput : bool)
    (manifests : list manifestItem) : M Σ unit :=
  match manifests with
  | [] => ret tt
  | m :: rest =>
      loadManifestItem tmpDir progressOutput m;;
      loadManifests tmpDir progressOutput rest
  end.

(** [loadHelper]: the releases deferred inside the loops run when the
    function returns, whatever the way it returns. *)
Definition loadHelper (tmpDir : string) (manifests : list manifestItem)
    (progressOutput : bool) : M Σ unit :=
  withDeferred (loadManifests tmpDir progressOutput manifests).

(** [blobs/<algorithm>/<hex>] below [prefix]; [Algorithm()] and [Hex()]
    of [digest.Digest] panic on a digest without a separator. *)
Definition blobPath (prefix : list string) (d : string) : M Σ string :=
  match Digest_Algorithm E d with
  | None => panic "no ':' separator in digest"
  | Some alg =>
      match Digest_Hex E d with
      | None => panic "no ':' separator in digest"
      | Some hex => ret (filepath_Join E (prefix ++ ["blobs"; alg; hex]))
      end
  end.

(** The loop [for i, l := range man.Layers] of [ociLoad]. *)
Fixpoint ociLayers (ls : list Descriptor) : M Σ (list string) :=
  match ls with
  | [] => ret []
  | l :: rest =>
      p ← blobPath [] (Digest l);
      ps ← ociLayers rest;
      ret (p :: ps)
  end.

(** The repository tag of one manifest of the index. *)
Definition ociTag (name : string) (refs : gmap string string)
    (refName : string) : M Σ string :=
  if decide (name ≠ "") then
    named ← liftE (reference_ParseNamed E name);
    withTag ← liftE (reference_WithTag E named refName);
    ret (NamedTagged_String withTag)
  else
    rs ← liftE (getRefs E refs);
    match rs !! refName with
    | None => throw (ErrNoNaming refName)
    | Some r => ret (Named_String r)
    end.

(** The loop [for _, md := range index.Manifests] of [ociLoad]; the
    manifest blob is opened at the joined path as it is. *)
Fixpoint ociManifests (tmpDir name : string) (refs : gmap string string)
    (mds : list Descriptor) (manifests : list manifestItem)
  : M Σ (list manifestItem) :=
  match mds with
  | [] => ret manifests
  | md :: rest =>
      if decide (MediaType md ≠ MediaTypeImageManifest) then
        ociManifests tmpDir name refs rest manifests
      else
        manifestPath ← blobPath [tmpDir] (Digest md);
        f ← osOpen manifestPath;
        man ← liftE (decodeOCIManifest E f);
        layers ← ociLayers (Manifest_Layers man);
        match Annotations md !! "org.opencontainers.ref.name" with
        | None => throw ErrNoRefName
        | Some refName =>
            tag ← ociTag name refs refName;
            config ← blobPath [] (Digest (Manifest_Config man));
            ociManifests tmpDir name refs rest
              (manifests ++ [mkManifestItem config [tag] layers])
        end
  end.

(** [ociLoad]. *)
Definition ociLoad (tmpDir name : string) (refs : gmap string string)
    (progressOutput : bool) : M Σ unit :=
  if decide (name ≠ "" ∧ size refs ≠ 0) then throw ErrNameAndRefs
  else if decide (name = "" ∧ size refs = 0) then throw ErrNoNameMapping
  else
    indexJSON ← osOpen (filepath_Join E [tmpDir; "index.json"]);
    index ← liftE (decodeIndex E indexJSON);
    manifests ← ociManifests tmpDir name refs (Manifests index) [];
    loadHelper tmpDir manifests progressOutput.

(** [loadedMap[oldID] = imgID]. *)
Definition setLoaded (oldID : string) (imgID : ImageID) : M Σ unit := λ s,
  (Ok tt, mkState (stores s) (<[oldID := imgID]> (loadedMap s)) (deferred s),
   []).

(** [legacyLoadedMap := make(map[string]image.ID)]. *)
Definition makeLoadedMap : M Σ unit := λ s,
  (Ok tt, mkState (stores s) ∅ (deferred s), []).

(** The [for] loop around the parent lookup in [legacyLoadImage]: while
    the parent is not in the load map, load it and look again. *)
Fixpoint waitParent (load : string → M Σ unit) (k : nat) (parent : string)
  : M Σ ImageID :=
  match k with
  | 0 => outOfFuel
  | S k' =>
      s ← getState;
      match loadedMap s !! parent with
      | Some parentID => ret parentID
      | None => load parent;; waitParent load k' parent
      end
  end.

(** [legacyLoadImage]; [fuel] bounds the depth of the recursion on the
    declared parents and the rounds of the loop around it. *)
Fixpoint legacyLoadImage (fuel : nat) (oldID sourceDir : string)
    (progressOutput : bool) : M Σ unit :=
  match fuel with
  | 0 => outOfFuel
  | S n =>
      s ← getState;
      if decide (is_Some (loadedMap s !! oldID)) then ret tt
      else
        configPath ← safePath sourceDir
                       (filepath_Join E [oldID; legacyConfigFileName E]);
        imageJSON ← ioutil_ReadFile configPath;
        parent ← liftE (unmarshalParent E imageJSON);
        parentID ← (if decide (parent ≠ "") then
                      waitParent
                        (λ p, legacyLoadImage n p sourceDir progressOutput)
                        n parent
                    else ret "");
        base ← (if decide (parentID ≠ "") then
                  parentImg ← isGet parentID;
                  ret (Image_RootFS parentImg, Image_History parentImg)
                else ret (NewRootFS, []));
        layerPath ← safePath sourceDir
                      (filepath_Join E [oldID; legacyLayerFileName E]);
        newLayer ← loadLayer layerPath base.1 oldID progressOutput;
        let rootFS := RootFS_Append base.1 (Layer_DiffID newLayer) in
        h ← liftE (v1_HistoryFromConfig E imageJSON false);
        let history := base.2 ++ [h] in
        config ← liftE (v1_MakeConfigFromV1Config E imageJSON rootFS history);
        imgID ← isCreate config;
        lsRelease newLayer;;
        (if decide (parentID ≠ "") then isSetParent imgID parentID
         else ret tt);;
        setLoaded oldID imgID
  end.

(** The loop [for _, d := range dirs] of [legacyLoad]. *)
Fixpoint legacyLoadDirs (fuel : nat) (dirs : list FileInfo) (tmpDir : string)
    (progressOutput : bool) : M Σ unit :=
  match dirs with
  | [] => ret tt
  | d :: rest =>
      (if IsDir d then legacyLoadImage fuel (Name d) tmpDir progressOutput
       else ret tt);;
      legacyLoadDirs fuel rest tmpDir progressOutput
  end.

(** The loop [for tag, oldID := range tagMap] of [legacyLoad]. *)
Fixpoint legacyLoadTags (name : string) (tagMap : list (string * string))
  : M Σ unit :=
  match tagMap with
  | [] => ret tt
  | (tag, oldID) :: rest =>
      s ← getState;
      match loadedMap s !! oldID with
      | None => throw (ErrInvalidTargetID oldID)
      | Some imgID =>
          named ← liftE (reference_WithName E name);
          ref ← liftE (reference_WithTag E named tag);
          discard (setLoadedTag ref imgID);;
          write (loadedMessage ref imgID);;
          legacyLoadTags name rest
      end
  end.

(** The loop [for name, tagMap := range repositories] of [legacyLoad], in
    the order the decoded map is iterated. *)
Fixpoint legacyLoadRepositories
    (repositories : list (string * list (string * string))) : M Σ unit :=
  match repositories with
  | [] => ret tt
  | (name, tagMap) :: rest =>
      legacyLoadTags name tagMap;;
      legacyLoadRepositories rest
  end.

(** [return f.Close()]. *)
Definition returnClose (f : option string) : M Σ unit :=
  match File_Close f with
  | Some e => throw e
  | None => ret tt
  end.

(** [legacyLoad]. *)
Definition legacyLoad (fuel : nat) (tmpDir : string) (progressOutput : bool)
  : M Σ unit :=
  makeLoadedMap;;
  dirs ← (emit (EvReadDir tmpDir);; liftE (ioutil_ReadDir E tmpDir));
  legacyLoadDirs fuel dirs tmpDir progressOutput;;
  repositoriesPath ← safePath tmpDir (legacyRepositoriesFileName E);
  repositoriesFile ← catch (osOpen repositoriesPath);
  match repositoriesFile with
  | inl err =>
      if negb (os_IsNotExist err) then throw err
      else returnClose None
  | inr content =>
      repositories ← liftE (decodeRepositories E content);
      legacyLoadRepositories repositories
  end.

(** [defer os.RemoveAll(tmpDir)]. *)
Definition withRemoveAll {A} (tmpDir : string) (body : M Σ A) : M Σ A := λ s,
  let '(r, s1, t1) := body s in
  match r with
  | OutOfFuel => (r, s1, t1)
  | _ => (r, s1, t1 ++ [EvRemoveAll tmpDir])
  end.

(** [Load]: the format dispatcher.  The progress output it builds is
    never nil. *)
Definition Load (fuel : nat) (inTar name : string) (refs : gmap string string)
  : M Σ unit :=
  tmpDir ← liftE (ioutil_TempDir E);
  withRemoveAll tmpDir (
    match chrootarchive_Untar E inTar tmpDir with
    | Some err => throw err
    | None =>
        ociLayoutPath ← safePath tmpDir "oci-layout";
        ociLayoutFile ← catch (osOpen ociLayoutPath);
        match ociLayoutFile with
        | inr _ => ociLoad tmpDir name refs true
        | inl _ =>
            manifestPath ← safePath tmpDir (manifestFileName E);
            manifestFile ← catch (osOpen manifestPath);
            match manifestFile with
            | inl err =>
                if os_IsNotExist err then legacyLoad fuel tmpDir true
                else returnClose None
            | inr content =>
                manifest ← liftE (decodeManifest E content);
                loadHelper tmpDir manifest true
            end
        end
    end).

End Importer.

(** ** Reading traces *)

(** The handles a trace acquires: a hit of [Get] or a successful
    [Register]. *)
Definition acquiredBy (ev : event) : option Layer :=
  match ev with
  | EvLsGet _ r => r
  | EvLsRegister _ _ _ r => r
  | _ => None
  end.

Definition acquired (t : list event) : list Layer := omap acquiredBy t.

(** The handles a trace releases. *)
Definition releasedBy (ev : event) : option Layer :=
  match ev with
  | EvLsRelease l => Some l
  | _ => None
  end.

Definition released (t : list event) : list Layer := omap releasedBy t.

Definition isCreate_event (ev : event) : bool :=
  match ev with
  | EvIsCreate _ _ => true
  | _ => false
  end.

Definition isAddTag_event (ev : event) : bool :=
  match ev with
  | EvRsAddTag _ _ _ => true
  | _ => false
  end.

Definition isLayerStore_event (ev : event) : bool :=
  match ev with
  | EvLsGet _ _ | EvLsRegister _ _ _ _ | EvLsRelease _ => true
  | _ => false
  end.

(** Every event a computation writes is of the kind [Q], whatever the
    state it starts in. *)
Definition emits {Σ A} (Q : event → Prop) (m : M Σ A) : Prop :=
  ∀ s, Forall Q (m s).2.

(** The lookup-or-register step of the layer loop, as [loadLayers] spells
    it out. *)
Definition resolveLayer {Σ} (E : Env Σ) (layerPath : string) (rootFS : RootFS)
    (diffID : DiffID) (progressOutput : bool) : M Σ Layer :=
  got ← catch (lsGet E (CreateChainID E
                          (DiffIDs (RootFS_Append rootFS diffID))));
  match got with
  | inr l => ret l
  | inl _ => loadLayer E layerPath rootFS diffID progressOutput
  end.


(** A run that ends with an answer: an error, or a value and a state that
    satisfy [Φ]; it neither panics nor runs out of fuel. *)
Definition lands {Σ A} (x : result A * State Σ * list event)
    (Φ : A → State Σ → Prop) : Prop :=
  match x.1.1 with
  | Ok a => Φ a x.1.2
  | Err _ => True
  | Panic _ | OutOfFuel => False
  end.

(** The parent that the configuration of a legacy image declares, read
    the way [legacyLoadImage] reads it: through the guard, from the file,
    by the decoder.  [None] when one of the three fails. *)
Definition legacyParent {Σ} (E : Env Σ) (sourceDir oldID : string)
  : option string :=
  match FollowSymlinkInScope E
          (filepath_Join E
             [sourceDir; filepath_Join E [oldID; legacyConfigFileName E]])
          sourceDir with
  | inl _ => None
  | inr configPath =>
      match os_Open E configPath with
      | inl _ => None
      | inr imageJSON =>
          match unmarshalParent E imageJSON with
          | inl _ => None
          | inr parent => Some parent
          end
      end
  end.

(** The declared parent chains are acyclic and finite: some measure on
    old IDs goes down along every declared parent. *)
Definition acyclicParents {Σ} (E : Env Σ) (sourceDir : string)
    (rank : string → nat) : Prop :=
  ∀ oldID parent,
    legacyParent E sourceDir oldID = Some parent → parent ≠ "" →
    rank parent < rank oldID.


(** The inflated data of every [Register] call of a trace, and the answer
    of every [Create] call. *)
Definition registeredBy (ev : event) : option string :=
  match ev with
  | EvLsRegister data _ _ _ => Some data
  | _ => None
  end.

Definition registered (t : list event) : list string := omap registeredBy t.

Definition createdBy (ev : event) : option (option ImageID) :=
  match ev with
  | EvIsCreate _ r => Some r
  | _ => None
  end.

Definition created (t : list event) : list (option ImageID) :=
  omap createdBy t.

(** The inflated layer data of a legacy image, read the way
    [legacyLoadImage] and [loadLayer] read it: through the guard, from the
    file, by the decompressor. *)
Definition legacyLayerData {Σ} (E : Env Σ) (sourceDir oldID : string)
  : option string :=
  match FollowSymlinkInScope E
          (filepath_Join E
             [sourceDir; filepath_Join E [oldID; legacyLayerFileName E]])
          sourceDir with
  | inl _ => None
  | inr layerPath =>
      match os_Open E layerPath with
      | inl _ => None
      | inr rawTar =>
          match archive_DecompressStream E rawTar with
          | inl _ => None
          | inr data => Some data
          end
      end
  end.

(** What [legacyLoadImage] does once the parent is resolved, as its body
    spells it out. *)
Definition legacyAssemble {Σ} (E : Env Σ) (oldID sourceDir : string)
    (progressOutput : bool) (imageJSON : string) (parentID : ImageID)
  : M Σ unit :=
  base ← (if decide (parentID ≠ "") then
            parentImg ← isGet E parentID;
            ret (Image_RootFS parentImg, Image_History parentImg)
          else ret (NewRootFS, []));
  layerPath ← safePath E sourceDir
                (filepath_Join E [oldID; legacyLayerFileName E]);
  newLayer ← loadLayer E layerPath base.1 oldID progressOutput;
  let rootFS := RootFS_Append base.1 (Layer_DiffID newLayer) in
  h ← liftE (v1_HistoryFromConfig E imageJSON false);
  let history := base.2 ++ [h] in
  config ← liftE (v1_MakeConfigFromV1Config E imageJSON rootFS history);
  imgID ← isCreate E config;
  lsRelease E newLayer;;
  (if decide (parentID ≠ "") then isSetParent E imgID parentID
   else ret tt);;
  setLoaded oldID imgID.

(** [x] is a declared ancestor of [oldID] reached through old IDs that
    are not in the load map [lm]. *)
Inductive pending {Σ} (E : Env Σ) (sourceDir : string)
    (lm : gmap string ImageID) : string → string → Prop :=
| pending_parent oldID parent :
    legacyParent E sourceDir oldID = Some parent → parent ≠ "" →
    lm !! parent = None →
    pending E sourceDir lm oldID parent
| pending_step oldID parent x :
    legacyParent E sourceDir oldID = Some parent → parent ≠ "" →
    lm !! parent = None →
    pending E sourceDir lm parent x →
    pending E sourceDir lm oldID x.

(** A successful stretch of a legacy import from state [s] to state [s']
    with trace [t] has loaded exactly the old IDs [new], each once and in
    this order: they were not in the load map and now are, nothing else in
    the map has changed, the [Register] calls are those of their layer
    blobs and the [Create] calls returned their image IDs, and every one
    that declares a parent has had [SetParent] called with the image ID
    the load map holds for that parent. *)
Record loadedBy {Σ} (E : Env Σ) (sourceDir : string) (s s' : State Σ)
    (t : list event) (new : list string) : Prop := mkLoadedBy {
  lb_nodup : NoDup new;
  lb_fresh : ∀ id, id ∈ new → loadedMap s !! id = None;
  lb_keeps : ∀ id, id ∉ new → loadedMap s' !! id = loadedMap s !! id;
  lb_loaded : ∀ id, id ∈ new → is_Some (loadedMap s' !! id);
  lb_registered :
    Some <$> registered t = legacyLayerData E sourceDir <$> new;
  lb_created : created t = (λ id, loadedMap s' !! id) <$> new;
  lb_parent : ∀ id parent,
    id ∈ new → legacyParent E sourceDir id = Some parent → parent ≠ "" →
    ∃ parentID imgID,
      loadedMap s' !! parent = Some parentID
      ∧ loadedMap s' !! id = Some imgID
      ∧ (parentID ≠ "" → EvIsSetParent imgID parentID ∈ t)
}.

(** A computation that leaves the load map as it is. *)
Definition keepsMap {Σ A} (m : M Σ A) : Prop :=
  ∀ s, loadedMap (m s).1.2 = loadedMap s.


(** The chain identities a trace looks up in the layer store, and the
    chain identities of the layers it registers. *)
Definition lookupBy (ev : event) : option ChainID :=
  match ev with
  | EvLsGet c _ => Some c
  | _ => None
  end.

Definition lookups (t : list event) : list ChainID := omap lookupBy t.

Definition registeredChainBy (ev : event) : option ChainID :=
  match ev with
  | EvLsRegister _ _ _ (Some l) => Some (Layer_ChainID l)
  | _ => None
  end.

Definition registeredChains (t : list event) : list ChainID :=
  omap registeredChainBy t.

(** The chain identities against which a trace registers. *)
Definition registerParentBy (ev : event) : option ChainID :=
  match ev with
  | EvLsRegister _ parent _ _ => Some parent
  | _ => None
  end.

Definition registerParents (t : list event) : list ChainID :=
  omap registerParentBy t.

(** The number of [Register] calls of a trace that do not come after a
    missed [Get] of their own; [missed] tells whether a miss is
    outstanding when the trace starts. *)
Fixpoint registersWithoutLookup (missed : bool) (t : list event) : nat :=
  match t with
  | [] => 0
  | EvLsGet _ None :: t' => registersWithoutLookup true t'
  | EvLsGet _ (Some _) :: t' => registersWithoutLookup false t'
  | EvLsRegister _ _ _ _ :: t' =>
      (if missed then 0 else 1) + registersWithoutLookup false t'
  | _ :: t' => registersWithoutLookup missed t'
  end.

(** The lookup-before-register discipline on a trace. *)
Definition lookupBeforeRegister (t : list event) : Prop :=
  registersWithoutLookup false t = 0.

(** What the importer relies on from the layer store while it holds the
    handles of a batch: [has σ c] says that the store in state [σ] holds a
    layer of chain identity [c].  A held layer is found by [Get] and stays
    through the store calls of [loadHelper]; a registered layer is held,
    under the chain identity made of the parent chain and its own diff
    identity. *)
Record LayerStoreLaws {Σ} (E : Env Σ) (has : Σ → ChainID → Prop) : Prop :=
  mkLayerStoreLaws {
  law_Get_found : ∀ σ c, has σ c → ∃ l, (ls_Get E σ c).1 = inr l;
  law_Get_keeps : ∀ σ c c', has σ c' → has (ls_Get E σ c).2 c';
  law_Register_has : ∀ σ data p l,
    (ls_Register E σ data p).1 = inr l →
    has (ls_Register E σ data p).2 (Layer_ChainID l);
  law_Register_keeps : ∀ σ data p c',
    has σ c' → has (ls_Register E σ data p).2 c';
  law_Register_chain : ∀ σ data pre l,
    (ls_Register E σ data (CreateChainID E pre)).1 = inr l →
    Layer_ChainID l = CreateChainID E (pre ++ [Layer_DiffID l]);
  law_Create_keeps : ∀ σ config c, has σ c → has (is_Create E σ config).2 c;
  law_AddTag_keeps : ∀ σ ref id force c,
    has σ c → has (rs_AddTag E σ ref id force).2 c
}.

(** A computation after which the store still holds what it held. *)
Definition keepsHas {Σ A} (has : Σ → ChainID → Prop) (m : M Σ A) : Prop :=
  ∀ s c, has (stores s) c → has (stores (m s).1.2) c.


(** The root file system a legacy image starts from: the one of the parent
    image when a parent image ID was resolved, the empty one otherwise. *)
Definition inheritedRootFS {Σ} (E : Env Σ) (s : State Σ) (parentID : ImageID)
  : RootFS :=
  if decide (parentID ≠ "") then
    match is_Get E (stores s) parentID with
    | inr parentImg => Image_RootFS parentImg
    | inl _ => NewRootFS
    end
  else NewRootFS.


(** A computation that leaves on the stack of deferred releases exactly
    the handles its trace acquires, last acquired first. *)
Definition defersAcquired {Σ A} (m : M Σ A) : Prop :=
  ∀ s, deferred (m s).1.2 = rev (acquired (m s).2) ++ deferred s.


(** The opens of a trace that are not of a path the guard has returned
    earlier in the trace; [resolved] are the paths the guard has returned
    before the trace starts. *)
Fixpoint unguardedOpens (resolved : list string) (t : list event)
  : list string :=
  match t with
  | [] => []
  | EvFollowSymlink _ _ (inr p) :: t' => unguardedOpens (p :: resolved) t'
  | EvOpen p :: t' =>
      if bool_decide (p ∈ resolved) then unguardedOpens resolved t'
      else p :: unguardedOpens resolved t'
  | _ :: t' => unguardedOpens resolved t'
  end.

(** The paths the guard has returned by the end of a trace. *)
Fixpoint resolvedAfter (resolved : list string) (t : list event)
  : list string :=
  match t with
  | [] => resolved
  | EvFollowSymlink _ _ (inr p) :: t' => resolvedAfter (p :: resolved) t'
  | _ :: t' => resolvedAfter resolved t'
  end.

(** A computation all of whose opens are of paths the guard has returned
    before: in any case ([guards]), or provided that the guard has
    returned [path] ([guardsWith path]). *)
Definition guards {Σ A} (m : M Σ A) : Prop :=
  ∀ s resolved, unguardedOpens resolved (m s).2 = [].

Definition guardsWith {Σ A} (path : string) (m : M Σ A) : Prop :=
  ∀ s resolved, path ∈ resolved → unguardedOpens resolved (m s).2 = [].


(** A computation that always comes to an answer: it never runs out of
    fuel. *)
Definition answers {Σ A} (m : M Σ A) : Prop :=
  ∀ s, (m s).1.1 ≠ OutOfFuel.

(** The descriptors of an index that [ociLoad] turns into manifest
    items. *)
Definition isImageManifest (md : Descriptor) : bool :=
  bool_decide (MediaType md = MediaTypeImageManifest).

(** What the importer relies on from the reference store: after a
    successful [AddTag] the reference resolves to the image ID given. *)
Definition RefStoreLaw {Σ} (E : Env Σ) : Prop :=
  ∀ σ ref id force,
    (rs_AddTag E σ ref id force).1 = None →
    rs_Get E (rs_AddTag E σ ref id force).2 ref = inr id.

(** The notice that [setLoadedTag] writes when the reference is bound to
    another image. *)
Definition renamingNotice (ref : NamedTagged) (prevID : ImageID) : string :=
  "The image " +:+ NamedTagged_String ref +:+
  " already exists, renaming the old one with ID " +:+
  prevID +:+ " to empty string" +:+ String (Ascii.ascii_of_nat 10) EmptyString.

Definition isFollowSymlink_event (ev : event) : bool :=
  match ev with
  | EvFollowSymlink _ _ _ => true
  | _ => false
  end.

Definition isRemoveAll_event (ev : event) : bool :=
  match ev with
  | EvRemoveAll _ => true
  | _ => false
  end.

(** What the guard writes to the trace when [safePath] is called with the
    base [tmpDir]. *)
Definition guardOf {Σ} (E : Env Σ) (tmpDir : string) (ev : event) : Prop :=
  ∃ rel, ev = EvFollowSymlink (filepath_Join E [tmpDir; rel]) tmpDir
                (FollowSymlinkInScope E (filepath_Join E [tmpDir; rel]) tmpDir).

(** What [Load] does once the [oci-layout] marker has not opened, as its
    body spells it out. *)
Definition loadArchive {Σ} (E : Env Σ) (fuel : nat) (tmpDir : string)
  : M Σ unit :=
  manifestPath ← safePath E tmpDir (manifestFileName E);
  manifestFile ← catch (osOpen E manifestPath);
  match manifestFile with
  | inl err =>
      if os_IsNotExist err then legacyLoad E fuel tmpDir true
      else returnClose None
  | inr content =>
      manifest ← liftE (decodeManifest E content);
      loadHelper E tmpDir manifest true
  end.

(** The body of [Load] under its deferred [os.RemoveAll]. *)
Definition loadExtracted {Σ} (E : Env Σ) (fuel : nat)
    (inTar name : string) (refs : gmap string string) (tmpDir : string)
  : M Σ unit :=
  match chrootarchive_Untar E inTar tmpDir with
  | Some err => throw err
  | None =>
      ociLayoutPath ← safePath E tmpDir "oci-layout";
      ociLayoutFile ← catch (osOpen E ociLayoutPath);
      match ociLayoutFile with
      | inr _ => ociLoad E tmpDir name refs true
      | inl _ => loadArchive E fuel tmpDir
      end
  end.

Definition isOpen_event (ev : event) : bool :=
  match ev with
  | EvOpen _ => true
  | _ => false
  end.

(** A computation that leaves the state as it is, and one that in
    addition writes nothing to the trace. *)
Definition keepsState {Σ A} (m : M Σ A) : Prop :=
  ∀ s, (m s).1.2 = s.

Definition silent {Σ A} (m : M Σ A) : Prop :=
  ∀ s, (m s).1.2 = s ∧ (m s).2 = [].

(** A descriptor of the index for which [ociLoad] finds a repository tag:
    it carries the reference name annotation, and the name given to the
    load takes that tag, or the reference map has an entry for it. *)
Definition ociNamed {Σ} (E : Env Σ) (name : string) (refs : gmap string string)
    (md : Descriptor) : Prop :=
  ∃ refName,
    Annotations md !! "org.opencontainers.ref.name" = Some refName
    ∧ (name ≠ "" →
       ∃ named withTag,
         reference_ParseNamed E name = inr named
         ∧ reference_WithTag E named refName = inr withTag)
    ∧ (name = "" →
       ∃ rs, getRefs E refs = inr rs ∧ is_Some (rs !! refName)).

(** A computation that keeps the entries of the load map whose key
    satisfies [P]. *)
Definition keepsEntries {Σ A} (P : string → Prop) (m : M Σ A) : Prop :=
  ∀ s k v, P k → loadedMap s !! k = Some v →
           loadedMap (m s).1.2 !! k = Some v.

(** A computation whose successful runs release the handles they
    acquire, in the order they acquire them. *)
Definition settles {Σ A} (m : M Σ A) : Prop :=
  ∀ s a, (m s).1.1 = Ok a → released (m s).2 = acquired (m s).2.

(** The configurations a trace hands to [Create]. *)
Definition createConfigBy (ev : event) : option string :=
  match ev with
  | EvIsCreate config _ => Some config
  | _ => None
  end.

Definition createConfigs (t : list event) : list string :=
  omap createConfigBy t.

(** The configuration of a manifest item, read the way [loadHelper] reads
    it: through the guard, from the file. *)
Definition itemConfig {Σ} (E : Env Σ) (tmpDir : string) (m : manifestItem)
  : option string :=
  match FollowSymlinkInScope E (filepath_Join E [tmpDir; Config m]) tmpDir with
  | inl _ => None
  | inr configPath =>
      match os_Open E configPath with
      | inl _ => None
      | inr config => Some config
      end
  end.

(** The image IDs that a trace binds a reference to although [Create] has
    not returned them earlier in the trace; [known] are the image IDs
    that [Create] has returned before the trace starts. *)
Fixpoint foreignTags (known : list ImageID) (t : list event)
  : list ImageID :=
  match t with
  | [] => []
  | EvIsCreate _ (Some id) :: t' => foreignTags (id :: known) t'
  | EvRsAddTag _ id _ :: t' =>
      if bool_decide (id ∈ known) then foreignTags known t'
      else id :: foreignTags known t'
  | _ :: t' => foreignTags known t'
  end.

(** The image IDs that [Create] has returned by the end of a trace. *)
Fixpoint createdAfter (known : list ImageID) (t : list event)
  : list ImageID :=
  match t with
  | [] => known
  | EvIsCreate _ (Some id) :: t' => createdAfter (id :: known) t'
  | _ :: t' => createdAfter known t'
  end.

(** A computation that binds references only to image IDs that [Create]
    has returned before, given that it has returned [ids]. *)
Definition tagsOwn {Σ A} (ids : list ImageID) (m : M Σ A) : Prop :=
  ∀ s known, (∀ id, id ∈ ids → id ∈ known) →
             foreignTags known (m s).2 = [].

(** The same for a computation that reads image IDs from the load map
    and writes to it: the map holds only image IDs that [Create] has
    returned, before and after. *)
Definition tagsLoaded {Σ A} (ids : list ImageID) (m : M Σ A) : Prop :=
  ∀ s known,
    (∀ k v, loadedMap s !! k = Some v → v ∈ known) →
    (∀ id, id ∈ ids → id ∈ known) →
    foreignTags known (m s).2 = []
    ∧ ∀ k v, loadedMap (m s).1.2 !! k = Some v →
             v ∈ createdAfter known (m s).2.

(** The diff identities that the configuration of a manifest item
    declares, as [loadHelper] reads them. *)
Definition itemDiffIDs {Σ} (E : Env Σ) (tmpDir : string) (m : manifestItem)
  : list DiffID :=
  match itemConfig E tmpDir m with
  | None => []
  | Some config =>
      match image_NewFromJSON E config with
      | inl _ => []
      | inr img => DiffIDs (Image_RootFS img)
      end
  end.

(** ** A small world to run the importer in *)

(** The collaborators are interfaces; to run the importer on concrete
    archives they are given a simple implementation here: a table-driven
    file system and decoders, and stores kept in finite maps.  A layer's
    diff identity stands for the digest of its inflated data and is the
    data itself; chain identities are the diff identities joined by
    ["/"]. *)
Module Sample.

Fixpoint assoc {A} (tbl : list (string * A)) (k : string) : option A :=
  match tbl with
  | [] => None
  | (k', a) :: rest => if decide (k' = k) then Some a else assoc rest k
  end.

Fixpoint member (k : string) (l : list string) : bool :=
  match l with
  | [] => false
  | k' :: rest => if decide (k' = k) then true else member k rest
  end.

(** The extracted tree, what the decoders make of file contents, and the
    faults to inject. *)
Record World := mkWorld {
  files : list (string * string);
  denied : list string;
  escapes : list string;
  dirs : list FileInfo;
  manifestsOf : list (string * list manifestItem);
  indexOf : list (string * ImageIndex);
  ociManifestOf : list (string * Manifest);
  repositoriesOf : list (string * list (string * list (string * string)));
  parentOf : list (string * string);
  imageOf : list (string * Image);
  failCreate : bool;
  failAddTag : bool
}.

Record Store := mkStore {
  st_layers : gmap ChainID Layer;
  st_images : gmap ImageID string;
  st_parents : gmap ImageID ImageID;
  st_tags : gmap string ImageID
}.

Definition emptyStore : Store := mkStore ∅ ∅ ∅ ∅.

Definition chain (parent : ChainID) (d : DiffID) : ChainID :=
  if decide (parent = "") then d else parent +:+ "/" +:+ d.

Definition createChainID (ds : list DiffID) : ChainID := foldl chain "" ds.

Definition splitColon (d : string) : option (string * string) :=
  match String.index 0 ":" d with
  | Some i => Some (String.substring 0 i d,
                    String.substring (S i) (String.length d - S i) d)
  | None => None
  end.

Definition parseNamed (s : string) : Named :=
  match splitColon s with
  | Some (n, t) => WithTagged (mkNamedTagged n t)
  | None => NameOnly s
  end.

Definition nameOf (n : Named) : string :=
  match n with
  | NameOnly s => s
  | WithTagged r => ref_name r
  end.

Definition decodeWith {A} (tbl : list (string * A)) (content : string)
  : error + A :=
  match assoc tbl content with
  | Some a => inr a
  | None => inl (ErrExternal "json: cannot decode")
  end.

Definition openFile (w : World) (path : string) : error + string :=
  if member path (denied w) then inl (ErrExternal "permission denied")
  else match assoc (files w) path with
       | Some c => inr c
       | None => inl (ErrNotExist path)
       end.

Definition env (w : World) : Env Store := {|
  manifestFileName := "manifest.json";
  legacyRepositoriesFileName := "repositories";
  legacyConfigFileName := "json";
  legacyLayerFileName := "layer.tar";
  filepath_Join := String.concat "/";
  FollowSymlinkInScope path root :=
    if member path (escapes w) then inl (ErrPathEscape path) else inr path;
  os_Open := openFile w;
  os_Stat path :=
    match openFile w path with
    | inl e => inl e
    | inr c => inr (String.length c)
    end;
  ioutil_ReadDir _ := inr (dirs w);
  ioutil_TempDir := inr "/tmp";
  chrootarchive_Untar _ _ := None;
  decodeManifest := decodeWith (manifestsOf w);
  decodeIndex := decodeWith (indexOf w);
  decodeOCIManifest := decodeWith (ociManifestOf w);
  decodeRepositories := decodeWith (repositoriesOf w);
  unmarshalParent := decodeWith (parentOf w);
  image_NewFromJSON := decodeWith (imageOf w);
  v1_HistoryFromConfig json _ := inr ("history of " +:+ json);
  v1_MakeConfigFromV1Config json rootFS _ :=
    inr (json +:+ "@" +:+ createChainID (DiffIDs rootFS));
  archive_DecompressStream c := inr c;
  CreateChainID := createChainID;
  Digest_Algorithm d := fst <$> splitColon d;
  Digest_Hex d := snd <$> splitColon d;
  stringid_TruncateID := String.substring 0 12;
  reference_ParseNamed s := inr (parseNamed s);
  reference_WithName s := inr (NameOnly s);
  reference_WithTag n t := inr (mkNamedTagged (nameOf n) t);
  getRefs refs := inr (parseNamed <$> refs);
  FormatStatus msg := msg;
  ls_Get σ c :=
    match st_layers σ !! c with
    | Some l => (inr l, σ)
    | None => (inl (ErrExternal "layer does not exist"), σ)
    end;
  ls_Register σ data parent :=
    let l := mkLayer (chain parent data) data in
    (inr l, mkStore (<[chain parent data := l]> (st_layers σ))
                    (st_images σ) (st_parents σ) (st_tags σ));
  ls_Release σ _ := (None, σ);
  is_Create σ config :=
    if failCreate w then (inl (ErrExternal "image store: create"), σ)
    else (inr ("img:" +:+ config),
          mkStore (st_layers σ) (<["img:" +:+ config := config]> (st_images σ))
                  (st_parents σ) (st_tags σ));
  is_Get σ id :=
    match st_images σ !! id with
    | Some config => decodeWith (imageOf w) config
    | None => inl (ErrExternal "image store: no such image")
    end;
  is_SetParent σ id parent :=
    (None, mkStore (st_layers σ) (st_images σ)
                   (<[id := parent]> (st_parents σ)) (st_tags σ));
  rs_Get σ ref :=
    match st_tags σ !! NamedTagged_String ref with
    | Some id => inr id
    | None => inl (ErrExternal "reference does not exist")
    end;
  rs_AddTag σ ref id _ :=
    if failAddTag w then (Some (ErrExternal "reference store: add tag"), σ)
    else (None, mkStore (st_layers σ) (st_images σ) (st_parents σ)
                        (<[NamedTagged_String ref := id]> (st_tags σ)))
|}.

Definition start : State Store := mkState emptyStore ∅ [].

End Sample.

(** ** Archives used as examples *)

Module Worlds.
Import Sample.

Definition image1 : Image := mkImage (mkRootFS "layers" ["d1"]) [].

Definition item1 : manifestItem :=
  mkManifestItem "c1.json" ["sample:latest"] ["l1.tar"].

(** A structured archive with one image of one layer. *)
Definition structured : World :=
  mkWorld [("/tmp/manifest.json", "manifest");
           ("/tmp/c1.json", "cfg1"); ("/tmp/l1.tar", "d1")]
          [] [] [] [("manifest", [item1])] [] [] [] []
          [("cfg1", image1)] false false.

(** The same archive whose layer blob inflates to other data than the
    configuration declares. *)
Definition wrongLayer : World :=
  mkWorld [("/tmp/manifest.json", "manifest");
           ("/tmp/c1.json", "cfg1"); ("/tmp/l1.tar", "other")]
          [] [] [] [("manifest", [item1])] [] [] [] []
          [("cfg1", image1)] false false.

(** A configuration that declares three layers in an item that supplies
    two blobs. *)
Definition image3 : Image := mkImage (mkRootFS "layers" ["d1"; "d2"; "d3"]) [].

Definition item2of3 : manifestItem :=
  mkManifestItem "c3.json" ["sample:latest"] ["l1.tar"; "l2.tar"].

Definition threeDeclared : World :=
  mkWorld [("/tmp/c3.json", "cfg3"); ("/tmp/l1.tar", "d1");
           ("/tmp/l2.tar", "d2")]
          [] [] [] [] [] [] [] [] [("cfg3", image3)] false false.

(** Two images that share their first layer. *)
Definition image2 : Image := mkImage (mkRootFS "layers" ["d1"; "d2"]) [].

Definition item2 : manifestItem :=
  mkManifestItem "c2.json" ["other:latest"] ["l1.tar"; "l2.tar"].

Definition sharedPrefix : World :=
  mkWorld [("/tmp/manifest.json", "manifest");
           ("/tmp/c1.json", "cfg1"); ("/tmp/c2.json", "cfg2");
           ("/tmp/l1.tar", "d1"); ("/tmp/l2.tar", "d2")]
          [] [] [] [("manifest", [item1; item2])] [] [] [] []
          [("cfg1", image1); ("cfg2", image2)] false false.

(** The structured archive with two tags, in a reference store whose
    [AddTag] fails. *)
Definition item2tags : manifestItem :=
  mkManifestItem "c1.json" ["sample:latest"; "sample:v2"] ["l1.tar"].

Definition addTagFails : World :=
  mkWorld [("/tmp/manifest.json", "manifest");
           ("/tmp/c1.json", "cfg1"); ("/tmp/l1.tar", "d1")]
          [] [] [] [("manifest", [item2tags])] [] [] [] []
          [("cfg1", image1)] false true.

(** The structured archive whose manifest file is there but cannot be
    opened. *)
Definition manifestDenied : World :=
  mkWorld [("/tmp/manifest.json", "manifest");
           ("/tmp/c1.json", "cfg1"); ("/tmp/l1.tar", "d1")]
          ["/tmp/manifest.json"] [] [] [("manifest", [item1])] [] [] [] []
          [("cfg1", image1)] false false.

(** An archive with both an [oci-layout] marker that cannot be opened and
    a structured manifest. *)
Definition ociLayoutDenied : World :=
  mkWorld [("/tmp/oci-layout", "{}"); ("/tmp/manifest.json", "manifest");
           ("/tmp/c1.json", "cfg1"); ("/tmp/l1.tar", "d1")]
          ["/tmp/oci-layout"] [] [] [("manifest", [item1])] [] [] [] []
          [("cfg1", image1)] false false.

(** An OCI layout whose [index.json] is a link out of the extraction
    root and whose index names a manifest digest with dot-dot segments;
    the guard refuses both paths. *)
Definition ociIndex : ImageIndex :=
  mkImageIndex
    [mkDescriptor MediaTypeImageManifest "sha256:../../../etc/passwd"
                  {["org.opencontainers.ref.name" := "v1"]}].

Definition ociManifest : Manifest :=
  mkManifest (mkDescriptor "" "sha256:cfg" ∅) [mkDescriptor "" "sha256:l1" ∅].

Definition ociEscape : World :=
  mkWorld [("/tmp/oci-layout", "{}"); ("/tmp/index.json", "index");
           ("/tmp/blobs/sha256/../../../etc/passwd", "manifest");
           ("/tmp/blobs/sha256/cfg", "cfg1"); ("/tmp/blobs/sha256/l1", "d1")]
          []
          ["/tmp/index.json"; "/tmp/blobs/sha256/../../../etc/passwd"]
          [] [] [("index", ociIndex)] [("manifest", ociManifest)] [] []
          [("cfg1", image1)] false false.

(** A legacy archive: images [X] and [Y] with the declared parent [P],
    and a repositories file. *)
Definition legacyFiles : list (string * string) :=
  [("/tmp/P/json", "jsonP"); ("/tmp/P/layer.tar", "dataP");
   ("/tmp/X/json", "jsonX"); ("/tmp/X/layer.tar", "dataX");
   ("/tmp/Y/json", "jsonY"); ("/tmp/Y/layer.tar", "dataY")].

Definition legacyDirs : list FileInfo :=
  [mkFileInfo "X" true; mkFileInfo "Y" true; mkFileInfo "P" true;
   mkFileInfo "repositories" false].

Definition legacyParents : list (string * string) :=
  [("jsonP", ""); ("jsonX", "P"); ("jsonY", "P")].

Definition legacyImages : list (string * Image) :=
  [("jsonP@dataP", mkImage (mkRootFS "layers" ["dataP"]) ["history of jsonP"]);
   ("jsonX@dataP/dataX",
    mkImage (mkRootFS "layers" ["dataP"; "dataX"])
            ["history of jsonP"; "history of jsonX"]);
   ("jsonY@dataP/dataY",
    mkImage (mkRootFS "layers" ["dataP"; "dataY"])
            ["history of jsonP"; "history of jsonY"])].

Definition legacy : World :=
  mkWorld (("/tmp/repositories", "repos") :: legacyFiles) [] [] legacyDirs
          [] [] [] [("repos", [("sample", [("latest", "X")])])]
          legacyParents legacyImages false false.

(** A measure that goes down along the declared parents of [legacy]. *)
Definition legacyRank (oldID : string) : nat :=
  if decide (oldID = "P") then 0 else 1.

(** The legacy archive without a repositories file. *)
Definition legacyNoRepositories : World :=
  mkWorld legacyFiles [] [] legacyDirs [] [] [] [] legacyParents
          legacyImages false false.

(** The legacy archive whose repositories file names an image that is
    not among the directories. *)
Definition legacyUnknownTarget : World :=
  mkWorld (("/tmp/repositories", "repos") :: legacyFiles) [] [] legacyDirs
          [] [] [] [("repos", [("sample", [("latest", "Z")])])]
          legacyParents legacyImages false false.

(** A legacy archive of the single image [P], in an image store whose
    [Create] fails. *)
Definition legacyCreateFails : World :=
  mkWorld [("/tmp/P/json", "jsonP"); ("/tmp/P/layer.tar", "dataP")] [] []
          [mkFileInfo "P" true] [] [] [] [] legacyParents legacyImages
          true false.

(** A store that already holds the layer of [P]. *)
Definition layerP : Layer := mkLayer "dataP" "dataP".

Definition startWithP : State Store :=
  mkState (mkStore {["dataP" := layerP]} ∅ ∅ ∅) ∅ [].

(** An OCI layout of one image, in an archive that also holds the
    structured manifest of [structured]. *)
Definition ociIndexV1 : ImageIndex :=
  mkImageIndex
    [mkDescriptor "application/vnd.oci.image.index.v1+json" "sha256:nested" ∅;
     mkDescriptor MediaTypeImageManifest "sha256:man"
                  {["org.opencontainers.ref.name" := "v1"]}].

Definition ociManifestV1 : Manifest :=
  mkManifest (mkDescriptor "" "sha256:cfg" ∅) [mkDescriptor "" "sha256:l1" ∅].

Definition ociBoth : World :=
  mkWorld [("/tmp/oci-layout", "{}"); ("/tmp/index.json", "index");
           ("/tmp/blobs/sha256/man", "manifest");
           ("/tmp/blobs/sha256/cfg", "cfg1"); ("/tmp/blobs/sha256/l1", "d1");
           ("/tmp/manifest.json", "docker manifest");
           ("/tmp/c1.json", "cfg1"); ("/tmp/l1.tar", "d1")]
          [] [] [] [("docker manifest", [item1])] [("index", ociIndexV1)]
          [("manifest", ociManifestV1)] [] [] [("cfg1", image1)] false false.

(** A legacy archive whose images [A] and [B] declare each other as
    parent. *)
Definition legacyCycle : World :=
  mkWorld [("/tmp/A/json", "jsonA"); ("/tmp/A/layer.tar", "dataA");
           ("/tmp/B/json", "jsonB"); ("/tmp/B/layer.tar", "dataB")] [] []
          [mkFileInfo "A" true; mkFileInfo "B" true] [] [] [] []
          [("jsonA", "B"); ("jsonB", "A")] [] false false.

End Worlds.

(** ** Running the monad *)

Lemma acquired_app (t1 t2 : list event) :
  acquired (t1 ++ t2) = acquired t1 ++ acquired t2.
Proof. apply omap_app. Qed.

Lemma acquired_cons (ev : event) (t : list event) :
  acquired (ev :: t) = from_option (λ l, [l]) [] (acquiredBy ev) ++ acquired t.
Proof. unfold acquired. cbn. by destruct (acquiredBy ev). Qed.

Lemma acquired_none (t : list event) :
  Forall (λ ev, acquiredBy ev = None) t → acquired t = [].
Proof.
  induction 1 as [|ev t Hev _ IH]; [done|].
  by rewrite acquired_cons, Hev, IH.
Qed.

Lemma no_create (t : list event) :
  Forall (λ ev, isCreate_event ev = false) t → filter isCreate_event t = [].
Proof.
  induction 1 as [|ev t Hev _ IH]; [done|].
  rewrite filter_cons, IH. destruct (decide _) as [Hd|]; [|done].
  by rewrite Hev in Hd.
Qed.

Lemma acquired_nil : acquired [] = [].
Proof. done. Qed.

Ltac acq_norm :=
  repeat (rewrite acquired_app in * || rewrite acquired_cons in *
          || rewrite acquired_nil in * );
  cbn [from_option acquiredBy app] in *;
  rewrite ?app_nil_r in *.

Section Run.
Context {Σ : Type}.
Implicit Types s : State Σ.

Lemma bind_run {A B} (m : M Σ A) (f : A → M Σ B) s :
  (m ≫= f) s =
  match m s with
  | (Ok a, s1, t1) => let '(r, s2, t2) := f a s1 in (r, s2, t1 ++ t2)
  | (Err e, s1, t1) => (Err e, s1, t1)
  | (Panic msg, s1, t1) => (Panic msg, s1, t1)
  | (OutOfFuel, s1, t1) => (OutOfFuel, s1, t1)
  end.
Proof. reflexivity. Qed.

(** What a run of [m ≫= f] is made of: either [m] returns a value and
    [f] goes on from there, or [m] ends the run. *)
Lemma bind_inv {A B} (m : M Σ A) (f : A → M Σ B) s r s' t :
  (m ≫= f) s = (r, s', t) →
  (∃ a s1 t1 t2, m s = (Ok a, s1, t1) ∧ f a s1 = (r, s', t2) ∧ t = t1 ++ t2)
  ∨ (∃ r1, m s = (r1, s', t)
           ∧ match r1, r with
             | Err e1, Err e => e1 = e
             | Panic m1, Panic m2 => m1 = m2
             | OutOfFuel, OutOfFuel => True
             | _, _ => False
             end).
Proof.
  rewrite bind_run. destruct (m s) as [[[a|e|msg|] s1] t1].
  - destruct (f a s1) as [[r2 s2] t2] eqn:Hf. intros [= <- <- <-].
    left. by eexists a, s1, t1, t2.
  - intros [= <- <- <-]. right. by eexists.
  - intros [= <- <- <-]. right. by eexists.
  - intros [= <- <- <-]. right. by eexists.
Qed.

Lemma catch_inv {A} (m : M Σ A) s r s' t :
  catch m s = (r, s', t) →
  ∃ r1, m s = (r1, s', t)
        ∧ match r1, r with
          | Ok a, Ok (inr b) => a = b
          | Err e, Ok (inl e') => e = e'
          | Panic m1, Panic m2 => m1 = m2
          | OutOfFuel, OutOfFuel => True
          | _, _ => False
          end.
Proof.
  unfold catch. destruct (m s) as [[[a|e|msg|] s1] t1];
    intros [= <- <- <-]; by eexists.
Qed.

(** *** Kinds of events *)

Lemma emits_ret {A} Q (a : A) : emits (Σ:=Σ) Q (mret a).
Proof. intros s. constructor. Qed.

Lemma emits_throw {A} Q e : emits (Σ:=Σ) (A:=A) Q (throw e).
Proof. intros s. constructor. Qed.

Lemma emits_panic {A} Q msg : emits (Σ:=Σ) (A:=A) Q (panic msg).
Proof. intros s. constructor. Qed.

Lemma emits_outOfFuel {A} Q : emits (Σ:=Σ) (A:=A) Q outOfFuel.
Proof. intros s. constructor. Qed.

Lemma emits_liftE {A} Q (r : error + A) : emits (Σ:=Σ) Q (liftE r).
Proof. intros s. destruct r; constructor. Qed.

Lemma emits_getState Q : emits (Σ:=Σ) Q getState.
Proof. intros s. constructor. Qed.

Lemma emits_emit (Q : event → Prop) ev : Q ev → emits (Σ:=Σ) Q (emit ev).
Proof. intros H s. by repeat constructor. Qed.

Lemma emits_bind {A B} Q (m : M Σ A) (f : A → M Σ B) :
  emits Q m → (∀ a, emits Q (f a)) → emits Q (m ≫= f).
Proof.
  intros Hm Hf s. rewrite bind_run. specialize (Hm s).
  destruct (m s) as [[[a|e|msg|] s1] t1]; cbn in *; try done.
  specialize (Hf a s1). destruct (f a s1) as [[r2 s2] t2]. cbn in *.
  by apply Forall_app.
Qed.

Lemma emits_catch {A} Q (m : M Σ A) : emits Q m → emits Q (catch m).
Proof.
  intros Hm s. unfold catch. specialize (Hm s).
  by destruct (m s) as [[[a|e|msg|] s1] t1].
Qed.

Lemma emits_discard {A} Q (m : M Σ A) : emits Q m → emits Q (discard m).
Proof.
  intros Hm. apply emits_bind; [by apply emits_catch|].
  intros _. apply emits_ret.
Qed.

Lemma emits_callStore {A} (Q : event → Prop) (f : Σ → (error + A) * Σ) ev :
  (∀ r, Q (ev r)) → emits Q (callStore f ev).
Proof.
  intros H s. unfold callStore.
  destruct (f (stores s)) as [[e|a] σ]; by repeat constructor.
Qed.

Lemma emits_callStore_ (Q : event → Prop) (f : Σ → option error * Σ) ev :
  Q ev → emits Q (callStore_ f ev).
Proof.
  intros H s. unfold callStore_.
  destruct (f (stores s)) as [[e|] σ]; by repeat constructor.
Qed.

Lemma emits_queryStore {A} (Q : event → Prop) (f : Σ → error + A) ev :
  Q ev → emits Q (queryStore f ev).
Proof.
  intros H s. unfold queryStore.
  destruct (f (stores s)) as [e|a]; by repeat constructor.
Qed.

(** From a kind of events to a run at hand. *)
Lemma emits_run {A} Q (m : M Σ A) s r s' t :
  emits Q m → m s = (r, s', t) → Forall Q t.
Proof. intros Hm Hrun. specialize (Hm s). by rewrite Hrun in Hm. Qed.
End Run.

(** Take a computation apart along its binds, leaving the side conditions
    on single events. *)
Ltac emits_step :=
  lazymatch goal with
  | |- emits _ (mbind _ _) => apply emits_bind; [|intros ?]
  | |- emits _ (mret _) => apply emits_ret
  | |- emits _ (ret _) => apply emits_ret
  | |- emits _ (throw _) => apply emits_throw
  | |- emits _ (panic _) => apply emits_panic
  | |- emits _ outOfFuel => apply emits_outOfFuel
  | |- emits _ (liftE _) => apply emits_liftE
  | |- emits _ getState => apply emits_getState
  | |- emits _ (emit _) => apply emits_emit
  | |- emits _ (catch _) => apply emits_catch
  | |- emits _ (discard _) => apply emits_discard
  | |- emits _ (callStore _ _) => apply emits_callStore; intros ?
  | |- emits _ (callStore_ _ _) => apply emits_callStore_
  | |- emits _ (queryStore _ _) => apply emits_queryStore
  | |- emits _ (match ?x with _ => _ end) => destruct x
  end.

Ltac emits_auto := repeat emits_step.

(** Unfold the plumbing of the monad and compute. *)
Ltac msimpl :=
  repeat (progress (unfold mbind, M_bind, mret, M_ret, bind, ret, throw,
                      panic, outOfFuel, emit, liftE in *; cbn in * )).

(** Split a run [H] along its first bind: in the first goal the head
    returned [a] in state [s1] with trace [t1] ([H1]) and [H] is the run of
    the continuation with trace [t2]; in the second goal the head ended
    the run with [r1] ([H], [Hr]). *)
Tactic Notation "minv" hyp(H) "as" ident(a) ident(s1) ident(t1) ident(t2)
    ident(H1) "|" ident(r1) ident(Hr) :=
  apply bind_inv in H as [(a & s1 & t1 & t2 & H1 & H & ->)|(r1 & H & Hr)].

(** ** Kinds of events of the importer's functions *)

Section Kinds.
Context {Σ : Type} (E : Env Σ).
Implicit Types s : State Σ.

Lemma emits_defer Q l : emits (Σ:=Σ) Q (defer_ReleaseAndLog l).
Proof. intros s. constructor. Qed.

Lemma emits_setLoaded Q oldID imgID : emits (Σ:=Σ) Q (setLoaded oldID imgID).
Proof. intros s. constructor. Qed.

Lemma emits_makeLoadedMap Q : emits (Σ:=Σ) Q makeLoadedMap.
Proof. intros s. constructor. Qed.

Lemma emits_runDeferred (Q : event → Prop) ls :
  (∀ l, Q (EvLsRelease l)) → ∀ σ, Forall Q (runDeferred E ls σ).2.
Proof.
  intros HQ. induction ls as [|l ls IH]; intros σ; [constructor|].
  cbn [runDeferred]. specialize (IH (ls_Release E σ l).2).
  destruct (runDeferred E ls _) as [σ' t]. by constructor.
Qed.

Lemma safePath_run base path s :
  safePath E base path s =
  let p := filepath_Join E [base; path] in
  let r := FollowSymlinkInScope E p base in
  (match r with inl e => Err e | inr q => Ok q end, s,
   [EvFollowSymlink p base r]).
Proof.
  unfold safePath. msimpl.
  by destruct (FollowSymlinkInScope E _ _).
Qed.

Lemma osOpen_run path s :
  osOpen E path s =
  (match os_Open E path with inl e => Err e | inr c => Ok c end, s,
   [EvOpen path]).
Proof. unfold osOpen. msimpl. by destruct (os_Open E path). Qed.

Lemma ioutil_ReadFile_run path s :
  ioutil_ReadFile E path s =
  (match os_Open E path with inl e => Err e | inr c => Ok c end, s,
   [EvOpen path]).
Proof. apply osOpen_run. Qed.
End Kinds.

Ltac emits_model :=
  unfold resolveLayer, loadLayer, setLoadedTag, safePath, osOpen,
    ioutil_ReadFile, osStat, write, lsGet, lsRegister, lsRelease, isCreate,
    isGet, isSetParent, rsGet, rsAddTag, returnClose, blobPath;
  repeat first
    [ emits_step
    | apply emits_defer
    | apply emits_setLoaded
    | apply emits_makeLoadedMap ];
  try done.

(** ** The structured path: [loadHelper] *)

Section Structured.
Context {Σ : Type} (E : Env Σ).
Implicit Types s : State Σ.

(** One round of the layer loop. *)
Lemma loadLayers_cons tmpDir po m i diffID rest rootFS :
  loadLayers E tmpDir po m i (diffID :: rest) rootFS =
  match Layers m !! i with
  | None => panic "index out of range"
  | Some layerFile =>
      layerPath ← safePath E tmpDir layerFile;
      newLayer ← resolveLayer E layerPath rootFS diffID po;
      defer_ReleaseAndLog newLayer;;
      if decide (diffID ≠ Layer_DiffID newLayer) then
        throw (ErrInvalidDiffID i diffID (Layer_DiffID newLayer))
      else
        loadLayers E tmpDir po m (S i) rest (RootFS_Append rootFS diffID)
  end.
Proof. reflexivity. Qed.

(** The layer loop writes events of kind [Q] when the guard, the blob
    access and the layer store calls are of that kind. *)
Lemma loadLayers_emits (Q : event → Prop) tmpDir po m ds :
  (∀ p b r, Q (EvFollowSymlink p b r)) → (∀ p, Q (EvOpen p)) →
  (∀ p, Q (EvStat p)) → (∀ c r, Q (EvLsGet c r)) →
  (∀ d c p r, Q (EvLsRegister d c p r)) →
  ∀ i rootFS, emits Q (loadLayers E tmpDir po m i ds rootFS).
Proof.
  intros ?????. induction ds as [|diffID rest IH]; intros i rootFS.
  { apply emits_ret. }
  rewrite loadLayers_cons. emits_model.
Qed.

Lemma loadRepoTags_emits (Q : event → Prop) imgID repoTags :
  (∀ r, Q (EvRsGet r)) → (∀ r i f, Q (EvRsAddTag r i f)) →
  (∀ m, Q (EvWrite m)) →
  emits Q (loadRepoTags E imgID repoTags).
Proof.
  intros ???. induction repoTags as [|repoTag rest IH].
  { apply emits_ret. }
  cbn [loadRepoTags]. emits_model.
Qed.

(** What is resolved for a position is one handle, or none when the
    step fails. *)
Lemma resolveLayer_acquired layerPath rootFS diffID po s r s' t :
  resolveLayer E layerPath rootFS diffID po s = (r, s', t) →
  acquired t = match r with Ok l => [l] | _ => [] end.
Proof.
  unfold resolveLayer, catch, lsGet, loadLayer, osOpen, osStat, lsRegister,
    callStore.
  msimpl. destruct (ls_Get E (stores s) _) as [[e|l] σ]; msimpl;
    [|by intros [= <- <- <-]].
  destruct (os_Open E layerPath) as [e'|rawTar]; msimpl;
    [by intros [= <- <- <-]|].
  destruct (archive_DecompressStream E rawTar) as [e'|data]; msimpl;
    [by intros [= <- <- <-]|].
  destruct po; msimpl.
  - destruct (os_Stat E layerPath) as [e'|n]; msimpl;
      [by intros [= <- <- <-]|].
    destruct (ls_Register E σ data _) as [[e'|l] σ'];
      by intros [= <- <- <-].
  - destruct (ls_Register E σ data _) as [[e'|l] σ'];
      by intros [= <- <- <-].
Qed.

(** The handle acquired at position [j] of a run of the layer loop
    decides the run when its diff identity is not the declared one. *)
Lemma loadLayers_mismatch tmpDir po m ds :
  ∀ i rootFS s r s' t j l d,
    loadLayers E tmpDir po m i ds rootFS s = (r, s', t) →
    acquired t !! j = Some l →
    ds !! j = Some d →
    Layer_DiffID l ≠ d →
    r = Err (ErrInvalidDiffID (i + j) d (Layer_DiffID l)).
Proof.
  induction ds as [|diffID rest IH];
    intros i rootFS s r s' t j l d Hrun Hacq Hd Hne; [done|].
  rewrite loadLayers_cons in Hrun.
  destruct (Layers m !! i) as [layerFile|]; [|by inversion Hrun; subst].
  minv Hrun as layerPath s1 t1 t2 Hpath | r1 Hr.
  2:{ rewrite safePath_run in Hrun. by inversion Hrun; subst. }
  rewrite safePath_run in Hpath. inversion Hpath; subst; clear Hpath.
  minv Hrun as newLayer s2 t3 t4 Hres | r1 Hr.
  2:{ apply resolveLayer_acquired in Hrun. acq_norm.
      rewrite Hrun in Hacq. by destruct r1. }
  apply resolveLayer_acquired in Hres. acq_norm.
  rewrite Hres in Hacq.
  minv Hrun as u s3 t5 t6 Hdefer | r1 Hr; [|by inversion Hrun; subst].
  inversion Hdefer; subst; clear Hdefer. acq_norm.
  destruct (decide (diffID ≠ Layer_DiffID newLayer)) as [Hneq|Heq].
  - inversion Hrun; subst. destruct j as [|j]; [|done]. cbn in Hacq, Hd.
    inversion Hacq; inversion Hd; subst. by rewrite Nat.add_0_r.
  - apply dec_stable in Heq. destruct j as [|j]; cbn in Hacq, Hd.
    + inversion Hacq; inversion Hd; subst. done.
    + replace (i + S j) with (S i + j) by lia. eapply IH; eauto.
Qed.

(** A manifest item whose configuration has been read and parsed. *)
Lemma loadManifestItem_run tmpDir po m s configPath config img :
  FollowSymlinkInScope E (filepath_Join E [tmpDir; Config m]) tmpDir
    = inr configPath →
  os_Open E configPath = inr config →
  image_NewFromJSON E config = inr img →
  loadManifestItem E tmpDir po m s =
  let pre := [EvFollowSymlink (filepath_Join E [tmpDir; Config m]) tmpDir
                              (inr configPath);
              EvOpen configPath] in
  let expected := length (Layers m) in
  let actual := length (DiffIDs (Image_RootFS img)) in
  if decide (expected ≠ actual) then
    (Err (ErrLayersLengthMismatch expected actual), s, pre)
  else
    let x := (loadLayers E tmpDir po m 0 (DiffIDs (Image_RootFS img))
                (mkRootFS (RootFS_Type (Image_RootFS img)) []) ≫= λ _,
              isCreate E config ≫= λ imgID,
              loadRepoTags E imgID (RepoTags m)) s in
    (x.1.1, x.1.2, pre ++ x.2).
Proof.
  intros Hpath Hopen Hjson. unfold loadManifestItem.
  rewrite bind_run, safePath_run. cbn zeta. rewrite Hpath.
  rewrite bind_run, ioutil_ReadFile_run, Hopen.
  rewrite bind_run, Hjson. cbn [liftE ret].
  destruct (decide _) as [Hn|Hn]; [done|].
  match goal with
  | |- context [mbind ?f ?m s] => destruct (mbind f m s) as [[r1 s1] t1]
  end.
  done.
Qed.

(** C10: when the configuration of a manifest item has been read and
    parsed and the number of its declared diff identities differs from
    the number of layer paths of the item (more or fewer), the item
    fails with the layers-length-mismatch error, and so does the whole
    [loadHelper]; the only collaborator calls made are the path guard
    and the read of the configuration, so no layer has been looked up,
    opened or registered, and the stores are as before. *)
Theorem loadHelper_layer_count_mismatch (tmpDir : string)
    (progressOutput : bool) (m : manifestItem) (rest : list manifestItem)
    (s : State Σ) (configPath config : string) (img : Image) :
  FollowSymlinkInScope E (filepath_Join E [tmpDir; Config m]) tmpDir
    = inr configPath →
  os_Open E configPath = inr config →
  image_NewFromJSON E config = inr img →
  length (Layers m) ≠ length (DiffIDs (Image_RootFS img)) →
  let e := ErrLayersLengthMismatch (length (Layers m))
                                   (length (DiffIDs (Image_RootFS img))) in
  let t := [EvFollowSymlink (filepath_Join E [tmpDir; Config m]) tmpDir
                            (inr configPath);
            EvOpen configPath] in
  loadManifestItem E tmpDir progressOutput m s = (Err e, s, t)
  ∧ loadHelper E tmpDir (m :: rest) progressOutput s = (Err e, s, t)
  ∧ filter isLayerStore_event t = [].
Proof.
  intros Hpath Hopen Hjson Hlen e t.
  assert (Hitem : ∀ s0 : State Σ,
             loadManifestItem E tmpDir progressOutput m s0 = (Err e, s0, t)).
  { intros s0. rewrite (loadManifestItem_run _ _ _ _ _ _ _ Hpath Hopen Hjson).
    cbn zeta. destruct (decide _) as [_|Hn]; [done|]. by destruct Hn. }
  split; [apply Hitem|]. split; [|done].
  unfold loadHelper, withDeferred. cbn [loadManifests].
  rewrite bind_run, Hitem. by destruct s.
Qed.

(** C5: when the configuration of a manifest item has been read and
    parsed, and the handle the run resolves for position [j] of its
    layer stack has a diff identity other than the one the
    configuration declares for that position, the item fails with the
    invalid-diffID error for that position and its trace has no call of
    the image store's [Create]; [loadHelper] entering a batch that
    starts with this item fails with the same error, likewise without
    [Create]. *)
Theorem loadHelper_diffID_mismatch (tmpDir : string) (progressOutput : bool)
    (m : manifestItem) (s : State Σ) (configPath config : string)
    (img : Image) (r : result unit) (s' : State Σ) (t : list event)
    (j : nat) (l : Layer) (d : DiffID) :
  FollowSymlinkInScope E (filepath_Join E [tmpDir; Config m]) tmpDir
    = inr configPath →
  os_Open E configPath = inr config →
  image_NewFromJSON E config = inr img →
  loadManifestItem E tmpDir progressOutput m s = (r, s', t) →
  acquired t !! j = Some l →
  DiffIDs (Image_RootFS img) !! j = Some d →
  Layer_DiffID l ≠ d →
  r = Err (ErrInvalidDiffID j d (Layer_DiffID l))
  ∧ filter isCreate_event t = []
  ∧ ∀ rest s0, s = mkState (stores s0) (loadedMap s0) [] →
      ∃ s1 t1,
        loadHelper E tmpDir (m :: rest) progressOutput s0
          = (Err (ErrInvalidDiffID j d (Layer_DiffID l)), s1, t1)
        ∧ filter isCreate_event t1 = [].
Proof.
  intros Hpath Hopen Hjson Hrun Hacq Hd Hne.
  assert (r = Err (ErrInvalidDiffID j d (Layer_DiffID l))
          ∧ filter isCreate_event t = []) as [-> Hnc].
  { rewrite (loadManifestItem_run _ _ _ _ _ _ _ Hpath Hopen Hjson) in Hrun.
    cbn zeta in Hrun.
    destruct (decide (length (Layers m) ≠ _)) as [Hlen|Hlen].
    { inversion Hrun; subst. done. }
    match type of Hrun with
    | context [mbind ?f ?m s] =>
        destruct (mbind f m s) as [[r1 s1] t1] eqn:Hbody
    end.
    inversion Hrun; subst; clear Hrun. acq_norm.
    rewrite !filter_cons. cbn.
    minv Hbody as rootFS s2 t2 t3 Hloop | r2 Hr.
    - (* the layer loop came to its end *)
      exfalso.
      assert (acquired t3 = []) as Ht3.
      { apply acquired_none. eapply emits_run; [|exact Hbody].
        apply emits_bind; [by emits_model|intros imgID].
        by apply loadRepoTags_emits. }
      acq_norm. rewrite Ht3, app_nil_r in Hacq.
      by pose proof (loadLayers_mismatch _ _ _ _ _ _ _ _ _ _ _ _ _
                       Hloop Hacq Hd Hne).
    - pose proof (loadLayers_mismatch _ _ _ _ _ _ _ _ _ _ _ _ _
                    Hbody Hacq Hd Hne) as ->.
      destruct r as [|e0| |]; try done. subst e0. split; [done|].
      apply no_create. eapply emits_run; [|exact Hbody].
      by apply loadLayers_emits. }
  split; [done|]. split; [done|]. intros rest s0 ->.
  unfold loadHelper, withDeferred. cbn [loadManifests].
  rewrite bind_run, Hrun.
  pose proof (emits_runDeferred E (λ ev, isCreate_event ev = false)
                (deferred s') (λ _, eq_refl) (stores s')) as Hrel.
  destruct (runDeferred E (deferred s') (stores s')) as [σ2 t2].
  eexists _, _. split; [done|].
  rewrite filter_app, Hnc. by apply no_create.
Qed.
End Structured.

Section StructuredExamples.
Import Sample Worlds.

(** Three declared layers with two blobs supplied. *)
Lemma loadHelper_layer_count_mismatch_witness :
  let e := ErrLayersLengthMismatch 2 3 in
  let t := [EvFollowSymlink "/tmp/c3.json" "/tmp" (inr "/tmp/c3.json");
            EvOpen "/tmp/c3.json"] in
  loadManifestItem (env threeDeclared) "/tmp" true item2of3 start
    = (Err e, start, t)
  ∧ loadHelper (env threeDeclared) "/tmp" [item2of3] true start
    = (Err e, start, t)
  ∧ filter isLayerStore_event t = [].
Proof.
  apply (loadHelper_layer_count_mismatch (env threeDeclared) "/tmp" true
           item2of3 [] start "/tmp/c3.json" "cfg3" image3).
  - reflexivity.
  - reflexivity.
  - reflexivity.
  - vm_compute. lia.
Defined.

(** A blob that inflates to [other] where [d1] is declared. *)
Lemma loadHelper_diffID_mismatch_witness :
  let x := loadManifestItem (env wrongLayer) "/tmp" true item1 start in
  x.1.1 = Err (ErrInvalidDiffID 0 "d1" "other")
  ∧ filter isCreate_event x.2 = []
  ∧ ∀ rest s0, start = mkState (stores s0) (loadedMap s0) [] →
      ∃ s1 t1,
        loadHelper (env wrongLayer) "/tmp" (item1 :: rest) true s0
          = (Err (ErrInvalidDiffID 0 "d1" "other"), s1, t1)
        ∧ filter isCreate_event t1 = [].
Proof.
  intros x.
  apply (loadHelper_diffID_mismatch (env wrongLayer) "/tmp" true item1 start
           "/tmp/c1.json" "cfg1" image1 x.1.1 x.1.2 x.2 0
           (mkLayer "other" "other") "d1").
  - reflexivity.
  - reflexivity.
  - reflexivity.
  - vm_compute. reflexivity.
  - vm_compute. reflexivity.
  - reflexivity.
  - vm_compute. discriminate.
Defined.
End StructuredExamples.

(** ** The importer on well-formed archives *)

Section WellFormedArchives.
Import Sample Worlds.

(** A structured archive with one entry, one new layer and the tag
    [sample:latest]: one image is created, one status line is written and
    the reference is bound to the image. *)
Example Load_structured :
  let x := Load (env structured) 1 "archive.tar" "" ∅ start in
  x.1.1 = Ok tt
  ∧ created x.2 = [Some "img:cfg1"]
  ∧ filter (λ ev, bool_decide (ev = EvWrite
              "sample:latest(img:cfg1) has been loaded.")) x.2
    = [EvWrite "sample:latest(img:cfg1) has been loaded."]
  ∧ rs_Get (env structured) (stores x.1.2) (mkNamedTagged "sample" "latest")
    = inr "img:cfg1"
  ∧ released x.2 = acquired x.2.
Proof. vm_compute. done. Qed.

(** A legacy archive with the images [X] and [Y] on the parent [P] and a
    repositories file that tags [X]. *)
Example Load_legacy :
  let x := Load (env legacy) 3 "archive.tar" "" ∅ start in
  x.1.1 = Ok tt
  ∧ registered x.2 = ["dataP"; "dataX"; "dataY"]
  ∧ created x.2 = [Some "img:jsonP@dataP"; Some "img:jsonX@dataP/dataX";
                   Some "img:jsonY@dataP/dataY"]
  ∧ rs_Get (env legacy) (stores x.1.2) (mkNamedTagged "sample" "latest")
    = inr "img:jsonX@dataP/dataX".
Proof. vm_compute. done. Qed.
End WellFormedArchives.

(** ** Runs on which the importer departs from its specification *)

Section Defects.
Import Sample Worlds.

(** C1: [ociLoad] opens [index.json] and the manifest blob at the joined
    path without passing it to [safePath].  On an OCI layout whose
    [index.json] and manifest blob path the guard refuses, the import
    reads both files all the same and succeeds: the two opens are of
    paths no call of the guard has returned. *)
Theorem ociLoad_opens_without_guard :
  let x := Load (env ociEscape) 1 "archive.tar" "myimage" ∅ start in
  (safePath (env ociEscape) "/tmp" "index.json" start).1.1
    = Err (ErrPathEscape "/tmp/index.json")
  ∧ (safePath (env ociEscape) "/tmp" "blobs/sha256/../../../etc/passwd"
              start).1.1
    = Err (ErrPathEscape "/tmp/blobs/sha256/../../../etc/passwd")
  ∧ x.1.1 = Ok tt
  ∧ unguardedOpens [] x.2
    = ["/tmp/index.json"; "/tmp/blobs/sha256/../../../etc/passwd"].
Proof. vm_compute. done. Qed.

(** C2: [legacyLoadImage] returns on a failing [Create] without
    releasing the handle that [loadLayer] has registered: the trace
    acquires the handle and releases nothing. *)
Theorem legacyLoadImage_leaks_on_error :
  let x := legacyLoadImage (env legacyCreateFails) 2 "P" "/tmp" true start in
  x.1.1 = Err (ErrExternal "image store: create")
  ∧ acquired x.2 = [layerP]
  ∧ released x.2 = [].
Proof. vm_compute. done. Qed.

(** C3: when the manifest file is there and opening it fails for
    another reason than absence, [Load] returns what [Close] of the nil
    file returns, [os.ErrInvalid], and not the failure of the open; when
    opening the [oci-layout] marker fails for such a reason, [Load] goes
    on as if the marker were absent and the import succeeds. *)
Theorem Load_marker_failure_not_surfaced :
  os_Open (env manifestDenied) "/tmp/manifest.json"
    = inl (ErrExternal "permission denied")
  ∧ (Load (env manifestDenied) 1 "archive.tar" "" ∅ start).1.1
    = Err ErrInvalid
  ∧ os_Open (env ociLayoutDenied) "/tmp/oci-layout"
    = inl (ErrExternal "permission denied")
  ∧ (Load (env ociLayoutDenied) 1 "archive.tar" "" ∅ start).1.1 = Ok tt.
Proof. vm_compute. done. Qed.

(** C4: [loadHelper] drops the error that [setLoadedTag] returns.  With
    a reference store whose [AddTag] fails, [setLoadedTag] returns the
    error, and the import goes on to the next tag and succeeds. *)
Theorem loadHelper_ignores_AddTag_error :
  let ref := mkNamedTagged "sample" "latest" in
  let x := Load (env addTagFails) 1 "archive.tar" "" ∅ start in
  (setLoadedTag (env addTagFails) ref "img:cfg1" start).1.1
    = Err (ErrExternal "reference store: add tag")
  ∧ x.1.1 = Ok tt
  ∧ filter isAddTag_event x.2
    = [EvRsAddTag ref "img:cfg1" true;
       EvRsAddTag (mkNamedTagged "sample" "v2") "img:cfg1" true].
Proof. vm_compute. done. Qed.

(** C9: without a repositories file [legacyLoad] returns what [Close]
    of the nil file returns, [os.ErrInvalid], after it has loaded the
    images; with a repositories file that names an old ID which is not
    in the load map it returns the invalid-target error. *)
Theorem legacyLoad_without_repositories_fails :
  os_Open (env legacyNoRepositories) "/tmp/repositories"
    = inl (ErrNotExist "/tmp/repositories")
  ∧ (legacyLoad (env legacyNoRepositories) 3 "/tmp" true start).1.1
    = Err ErrInvalid
  ∧ (legacyLoad (env legacyUnknownTarget) 3 "/tmp" true start).1.1
    = Err (ErrInvalidTargetID "Z").
Proof. vm_compute. done. Qed.
End Defects.

(** ** Release of the handles acquired by [loadHelper] *)

Lemma released_app (t1 t2 : list event) :
  released (t1 ++ t2) = released t1 ++ released t2.
Proof. apply omap_app. Qed.

Lemma released_none (t : list event) :
  Forall (λ ev, releasedBy ev = None) t → released t = [].
Proof.
  induction 1 as [|ev t Hev _ IH]; [done|].
  unfold released in *. cbn. by rewrite Hev, IH.
Qed.

Section Defers.
Context {Σ : Type} (E : Env Σ).
Implicit Types s : State Σ.

Lemma defers_ret {A} (a : A) : defersAcquired (Σ:=Σ) (mret a).
Proof. by intros s. Qed.

Lemma defers_throw {A} e : defersAcquired (Σ:=Σ) (A:=A) (throw e).
Proof. by intros s. Qed.

Lemma defers_panic {A} msg : defersAcquired (Σ:=Σ) (A:=A) (panic msg).
Proof. by intros s. Qed.

Lemma defers_liftE {A} (r : error + A) : defersAcquired (Σ:=Σ) (liftE r).
Proof. intros s. by destruct r. Qed.

Lemma defers_emit ev :
  acquiredBy ev = None → defersAcquired (Σ:=Σ) (emit ev).
Proof. intros Hev s. unfold emit. cbn [fst snd]. by rewrite acquired_cons, Hev. Qed.

Lemma defers_bind {A B} (m : M Σ A) (f : A → M Σ B) :
  defersAcquired m → (∀ a, defersAcquired (f a)) → defersAcquired (m ≫= f).
Proof.
  intros Hm Hf s. rewrite bind_run. specialize (Hm s).
  destruct (m s) as [[[a|e|msg|] s1] t1]; cbn in *; try done.
  specialize (Hf a s1). destruct (f a s1) as [[r2 s2] t2]. cbn in *.
  by rewrite Hf, Hm, acquired_app, rev_app_distr, app_assoc.
Qed.

Lemma defers_catch {A} (m : M Σ A) :
  defersAcquired m → defersAcquired (catch m).
Proof.
  intros Hm s. unfold catch. specialize (Hm s).
  by destruct (m s) as [[[a|e|msg|] s1] t1].
Qed.

Lemma defers_discard {A} (m : M Σ A) :
  defersAcquired m → defersAcquired (discard m).
Proof.
  intros Hm. apply defers_bind; [by apply defers_catch|].
  intros _. apply defers_ret.
Qed.

Lemma defers_callStore {A} (f : Σ → (error + A) * Σ) ev :
  (∀ r, acquiredBy (ev r) = None) → defersAcquired (callStore f ev).
Proof.
  intros Hev s. unfold callStore.
  destruct (f (stores s)) as [[e|a] σ]; cbn [fst snd]; by rewrite acquired_cons, Hev.
Qed.

Lemma defers_callStore_ (f : Σ → option error * Σ) ev :
  acquiredBy ev = None → defersAcquired (callStore_ f ev).
Proof.
  intros Hev s. unfold callStore_.
  destruct (f (stores s)) as [[e|] σ]; cbn [fst snd]; by rewrite acquired_cons, Hev.
Qed.

Lemma defers_queryStore {A} (f : Σ → error + A) ev :
  acquiredBy ev = None → defersAcquired (queryStore f ev).
Proof.
  intros Hev s. unfold queryStore.
  destruct (f (stores s)) as [e|a]; cbn [fst snd]; by rewrite acquired_cons, Hev.
Qed.

Lemma resolveLayer_deferred layerPath rootFS diffID po s r s' t :
  resolveLayer E layerPath rootFS diffID po s = (r, s', t) →
  deferred s' = deferred s.
Proof.
  unfold resolveLayer, catch, lsGet, loadLayer, osOpen, osStat, lsRegister,
    callStore.
  msimpl. destruct (ls_Get E (stores s) _) as [[e|l] σ]; msimpl;
    [|by intros [= <- <- <-]].
  destruct (os_Open E layerPath) as [e'|rawTar]; msimpl;
    [by intros [= <- <- <-]|].
  destruct (archive_DecompressStream E rawTar) as [e'|data]; msimpl;
    [by intros [= <- <- <-]|].
  destruct po; msimpl.
  - destruct (os_Stat E layerPath) as [e'|n]; msimpl;
      [by intros [= <- <- <-]|].
    destruct (ls_Register E σ data _) as [[e'|l] σ'];
      by intros [= <- <- <-].
  - destruct (ls_Register E σ data _) as [[e'|l] σ'];
      by intros [= <- <- <-].
Qed.

(** A layer is resolved and its release deferred at once. *)
Lemma defers_resolve {B} layerPath rootFS diffID po (k : Layer → M Σ B) :
  (∀ l, defersAcquired (k l)) →
  defersAcquired (newLayer ← resolveLayer E layerPath rootFS diffID po;
                  defer_ReleaseAndLog newLayer;; k newLayer).
Proof.
  intros Hk s. rewrite bind_run.
  destruct (resolveLayer E layerPath rootFS diffID po s) as [[r1 s1] t1]
    eqn:Hres.
  pose proof (resolveLayer_acquired _ _ _ _ _ _ _ _ _ Hres) as Hacq.
  pose proof (resolveLayer_deferred _ _ _ _ _ _ _ _ Hres) as Hdef.
  destruct r1 as [l|e|msg|]; cbn [fst snd]; try by rewrite Hacq, Hdef.
  rewrite bind_run. cbn [defer_ReleaseAndLog].
  specialize (Hk l (mkState (stores s1) (loadedMap s1) (l :: deferred s1))).
  destruct (k l _) as [[r2 s2] t2]. cbn [fst snd deferred app] in *.
  rewrite Hk, acquired_app, Hacq, Hdef, rev_app_distr. cbn [rev app].
  by rewrite <- app_assoc.
Qed.

Lemma loadLayers_defers tmpDir po m ds :
  ∀ i rootFS, defersAcquired (loadLayers E tmpDir po m i ds rootFS).
Proof.
  induction ds as [|diffID rest IH]; intros i rootFS; [apply defers_ret|].
  rewrite loadLayers_cons.
  destruct (Layers m !! i) as [layerFile|]; [|apply defers_panic].
  apply defers_bind.
  { unfold safePath. apply defers_bind; [by apply defers_emit|].
    intros _. apply defers_liftE. }
  intros layerPath. apply defers_resolve. intros l.
  destruct (decide _); [apply defers_throw|apply IH].
Qed.

Lemma setLoadedTag_defers ref imgID :
  defersAcquired (setLoadedTag E ref imgID).
Proof.
  unfold setLoadedTag. apply defers_bind.
  { by apply defers_catch, defers_queryStore. }
  intros prev. apply defers_bind.
  - destruct prev as [e|prevID]; [apply defers_ret|].
    destruct (decide _); [by apply defers_emit|apply defers_ret].
  - intros _. by apply defers_callStore_.
Qed.

Lemma loadRepoTags_defers imgID repoTags :
  defersAcquired (loadRepoTags E imgID repoTags).
Proof.
  induction repoTags as [|repoTag rest IH]; [apply defers_ret|].
  cbn [loadRepoTags]. apply defers_bind; [apply defers_liftE|].
  intros named. destruct (asNamedTagged named) as [ref|];
    [|apply defers_throw].
  apply defers_bind; [apply defers_discard, setLoadedTag_defers|].
  intros _. apply defers_bind; [by apply defers_emit|]. by intros _.
Qed.

Lemma loadManifests_defers tmpDir po manifests :
  defersAcquired (loadManifests E tmpDir po manifests).
Proof.
  induction manifests as [|m rest IH]; [apply defers_ret|].
  cbn [loadManifests]. apply defers_bind; [|by intros _].
  unfold loadManifestItem. apply defers_bind.
  { unfold safePath. apply defers_bind; [by apply defers_emit|].
    intros _. apply defers_liftE. }
  intros configPath. apply defers_bind.
  { unfold ioutil_ReadFile. apply defers_bind; [by apply defers_emit|].
    intros _. apply defers_liftE. }
  intros config. apply defers_bind; [apply defers_liftE|]. intros img.
  cbn zeta. destruct (decide _); [apply defers_throw|].
  apply defers_bind; [apply loadLayers_defers|]. intros _.
  apply defers_bind; [by apply defers_callStore|]. intros imgID.
  apply loadRepoTags_defers.
Qed.

Lemma runDeferred_released ls :
  ∀ σ, released (runDeferred E ls σ).2 = ls
       ∧ acquired (runDeferred E ls σ).2 = [].
Proof.
  induction ls as [|l ls IH]; intros σ; [done|]. cbn [runDeferred].
  specialize (IH (ls_Release E σ l).2).
  destruct (runDeferred E ls _) as [σ' t]. cbn [snd] in *.
  destruct IH as [IH1 IH2]. unfold released, acquired in *. cbn.
  by rewrite IH1, IH2.
Qed.

(** Whatever way [loadHelper] returns, it has released every handle it
    has acquired, once, the last acquired first. *)
Lemma loadHelper_releases_acquired tmpDir manifests po s r s' t :
  loadHelper E tmpDir manifests po s = (r, s', t) →
  r ≠ OutOfFuel →
  released t = rev (acquired t).
Proof.
  unfold loadHelper, withDeferred. intros Hrun Hr.
  pose proof (loadManifests_defers tmpDir po manifests
                (mkState (stores s) (loadedMap s) [])) as Hdef.
  assert (released (loadManifests E tmpDir po manifests
                      (mkState (stores s) (loadedMap s) [])).2 = [])
    as Hrel.
  { apply released_none.
    assert (emits (Σ:=Σ) (λ ev, releasedBy ev = None)
                  (loadManifests E tmpDir po manifests)) as Hem.
    { clear. induction manifests as [|m rest IH]; [apply emits_ret|].
      cbn [loadManifests]. apply emits_bind; [|by intros _].
      unfold loadManifestItem. apply emits_bind; [by emits_model|].
      intros configPath. apply emits_bind; [by emits_model|].
      intros config. apply emits_bind; [by emits_model|]. intros img.
      cbn zeta. destruct (decide _); [apply emits_throw|].
      apply emits_bind; [by apply loadLayers_emits|]. intros _.
      apply emits_bind; [by emits_model|]. intros imgID.
      by apply loadRepoTags_emits. }
    apply Hem. }
  destruct (loadManifests E tmpDir po manifests _) as [[r1 s1] t1].
  cbn [fst snd] in Hdef, Hrel. rewrite app_nil_r in Hdef.
  destruct (runDeferred_released (deferred s1) (stores s1)) as [Hrel2 Hacq2].
  destruct (runDeferred E (deferred s1) (stores s1)) as [σ2 t2].
  cbn [snd] in Hrel2, Hacq2.
  destruct r1; inversion Hrun; subst; try done;
    by rewrite released_app, acquired_app, Hrel, Hrel2, Hacq2, app_nil_r.
Qed.
End Defers.

(** ** The legacy path: termination *)

Section Lands.
Context {Σ : Type} (E : Env Σ).
Implicit Types s : State Σ.

Lemma lands_weaken {A} (x : result A * State Σ * list event)
    (Φ Ψ : A → State Σ → Prop) :
  lands x Φ → (∀ a s, Φ a s → Ψ a s) → lands x Ψ.
Proof. unfold lands. destruct x.1.1; auto. Qed.

Lemma lands_prefix {A} (x : result A * State Σ * list event) t
    (Φ : A → State Σ → Prop) :
  lands x Φ → lands (let '(r, s2, t2) := x in (r, s2, t ++ t2)) Φ.
Proof. by destruct x as [[r2 s2] t2]. Qed.

Lemma lands_bind {A B} (m : M Σ A) (f : A → M Σ B) s
    (Ψ : A → State Σ → Prop) (Φ : B → State Σ → Prop) :
  lands (m s) Ψ →
  (∀ a s1, Ψ a s1 → lands (f a s1) Φ) →
  lands ((m ≫= f) s) Φ.
Proof.
  unfold lands. rewrite bind_run.
  destruct (m s) as [[[a|e|msg|] s1] t1]; cbn; try done.
  intros Ha Hf. specialize (Hf a s1 Ha).
  by destruct (f a s1) as [[r2 s2] t2].
Qed.

Lemma lands_ret {A} (a : A) s (Φ : A → State Σ → Prop) :
  Φ a s → lands (mret (M:=M Σ) a s) Φ.
Proof. done. Qed.

Lemma lands_liftE {A} (r : error + A) s :
  lands (liftE r s) (λ a _, r = inr a).
Proof. by destruct r. Qed.

Lemma lands_emit ev s : lands (emit ev s) (λ _ _, True).
Proof. done. Qed.

Lemma lands_safePath base path s :
  lands (safePath E base path s)
        (λ q _, FollowSymlinkInScope E (filepath_Join E [base; path]) base
                = inr q).
Proof.
  rewrite safePath_run. unfold lands. cbn.
  by destruct (FollowSymlinkInScope E _ _).
Qed.

Lemma lands_ReadFile path s :
  lands (ioutil_ReadFile E path s) (λ c _, os_Open E path = inr c).
Proof.
  rewrite ioutil_ReadFile_run. unfold lands. cbn.
  by destruct (os_Open E path).
Qed.

Lemma lands_callStore {A} (f : Σ → (error + A) * Σ) ev s :
  lands (callStore f ev s) (λ _ _, True).
Proof. unfold callStore, lands. by destruct (f (stores s)) as [[e|a] σ]. Qed.

Lemma lands_callStore_ (f : Σ → option error * Σ) ev s :
  lands (callStore_ f ev s) (λ _ _, True).
Proof. unfold callStore_, lands. by destruct (f (stores s)) as [[e|] σ]. Qed.

Lemma lands_queryStore {A} (f : Σ → error + A) ev s :
  lands (queryStore f ev s) (λ _ _, True).
Proof. unfold queryStore, lands. by destruct (f (stores s)) as [e|a]. Qed.

Lemma lands_loadLayer filename rootFS id po s :
  lands (loadLayer E filename rootFS id po s) (λ _ _, True).
Proof.
  unfold loadLayer, osOpen, osStat, lsRegister.
  eapply lands_bind.
  { eapply lands_bind; [apply lands_emit|]. intros _ s1 _. apply lands_liftE. }
  intros rawTar s1 _. cbn beta.
  eapply lands_bind; [apply lands_liftE|]. intros data s2 _. cbn beta.
  destruct po.
  - eapply lands_bind.
    { eapply lands_bind; [apply lands_emit|]. intros _ s3 _.
      apply lands_liftE. }
    intros _ s3 _. apply lands_callStore.
  - apply lands_callStore.
Qed.

(** The loop around the parent lookup ends after at most one load when a
    successful load leaves the parent in the load map. *)
Lemma lands_waitParent (load : string → M Σ unit) k parent s :
  2 ≤ k →
  (∀ s0, lands (load parent s0) (λ _ s', is_Some (loadedMap s' !! parent))) →
  lands (waitParent load k parent s)
        (λ parentID s', loadedMap s' !! parent = Some parentID).
Proof.
  intros Hk Hload. destruct k as [|[|k]]; [lia|lia|].
  cbn [waitParent]. rewrite bind_run. cbn [getState].
  destruct (loadedMap s !! parent) as [parentID|] eqn:Hs.
  { done. }
  apply lands_prefix.
  eapply lands_bind; [apply Hload|]. intros _ s1 [parentID Hs1].
  cbn [waitParent]. rewrite bind_run. cbn [getState]. rewrite Hs1.
  by unfold lands.
Qed.
End Lands.

Section Termination.
Context {Σ : Type} (E : Env Σ).
Implicit Types s : State Σ.

(** C8: when the declared parent chains are acyclic and finite (some
    measure [rank] on old IDs goes down along every declared parent),
    [legacyLoadImage] comes to an answer for every old ID, in every state
    and with any fuel above [rank oldID + 1]: the recursion on the
    parents and the loop around it end either with an error return or
    with the old ID recorded in the load map. *)
Theorem legacyLoadImage_terminates (sourceDir : string) (progressOutput : bool)
    (rank : string → nat) :
  acyclicParents E sourceDir rank →
  ∀ (fuel : nat) (oldID : string) (s : State Σ),
    rank oldID + 2 ≤ fuel →
    let x := legacyLoadImage E fuel oldID sourceDir progressOutput s in
    (∃ e, x.1.1 = Err e)
    ∨ (x.1.1 = Ok tt ∧ is_Some (loadedMap x.1.2 !! oldID)).
Proof.
  intros Hacyclic.
  assert (Hlands : ∀ fuel oldID s, rank oldID + 2 ≤ fuel →
            lands (legacyLoadImage E fuel oldID sourceDir progressOutput s)
                  (λ _ s', is_Some (loadedMap s' !! oldID))).
  { induction fuel as [|n IH]; intros oldID s Hfuel; [lia|].
    cbn [legacyLoadImage]. rewrite bind_run. cbn [getState].
    destruct (decide (is_Some (loadedMap s !! oldID))) as [Hin|Hout].
    { done. }
    apply lands_prefix.
    eapply lands_bind; [apply lands_safePath|]. intros configPath s1 Hpath.
    eapply lands_bind; [apply lands_ReadFile|]. intros imageJSON s2 Hopen.
    eapply lands_bind; [apply lands_liftE|]. intros parent s3 Hparent.
    assert (legacyParent E sourceDir oldID = Some parent) as Hdecl.
    { unfold legacyParent. by rewrite Hpath, Hopen, Hparent. }
    eapply lands_bind with (Ψ := λ _ _, True).
    { destruct (decide (parent ≠ "")) as [Hp|Hp]; [|done].
      pose proof (Hacyclic oldID parent Hdecl Hp) as Hrank.
      eapply lands_weaken.
      - apply lands_waitParent; [lia|]. intros s0. apply IH. lia.
      - done. }
    intros parentID s4 _.
    eapply lands_bind with (Ψ := λ _ _, True).
    { destruct (decide (parentID ≠ "")); [|done].
      eapply lands_bind; [apply lands_queryStore|]. by intros. }
    intros base s5 _.
    eapply lands_bind; [apply lands_safePath|]. intros layerPath s6 _.
    eapply lands_bind; [apply lands_loadLayer|]. intros newLayer s7 _.
    eapply lands_bind; [apply lands_liftE|]. intros h s8 _.
    eapply lands_bind; [apply lands_liftE|]. intros config s9 _.
    eapply lands_bind; [apply lands_callStore|]. intros imgID s10 _.
    eapply lands_bind; [apply lands_callStore_|]. intros _ s11 _.
    eapply lands_bind with (Ψ := λ _ _, True).
    { destruct (decide (parentID ≠ "")); [|done]. apply lands_callStore_. }
    intros _ s12 _. unfold setLoaded, lands. cbn.
    rewrite lookup_insert_eq. by eexists. }
  intros fuel oldID s Hfuel x. specialize (Hlands fuel oldID s Hfuel).
  unfold lands in Hlands. fold x in Hlands.
  destruct x.1.1 as [[]|e|msg|]; [right|left|done|done]; eauto.
Qed.
End Termination.

Section TerminationExample.
Import Sample Worlds.

Lemma legacy_acyclic : acyclicParents (env legacy) "/tmp" legacyRank.
Proof.
  intros oldID parent Hdecl Hne.
  assert (parent = "P" ∧ oldID ≠ "P") as [-> HoldID].
  { destruct (decide (oldID = "P")) as [->|HoldID].
    { vm_compute in Hdecl. inversion Hdecl; subst. done. }
    split; [|done]. revert Hdecl.
    unfold legacyParent, env, openFile, decodeWith, legacy. cbn.
    intros Hdecl. repeat (case_match; simplify_eq; try done). }
  unfold legacyRank. destruct (decide (oldID = "P")); [done|]. vm_compute. lia.
Qed.

(** [X] declares the parent [P]. *)
Lemma legacyLoadImage_terminates_witness :
  let x := legacyLoadImage (env legacy) 3 "X" "/tmp" true start in
  (∃ e, x.1.1 = Err e)
  ∨ (x.1.1 = Ok tt ∧ is_Some (loadedMap x.1.2 !! "X")).
Proof.
  apply (legacyLoadImage_terminates (env legacy) "/tmp" true legacyRank
           legacy_acyclic 3 "X" start).
  vm_compute. lia.
Defined.
End TerminationExample.

(** ** The legacy path: shared ancestry *)

Lemma registered_app (t1 t2 : list event) :
  registered (t1 ++ t2) = registered t1 ++ registered t2.
Proof. apply omap_app. Qed.

Lemma created_app (t1 t2 : list event) :
  created (t1 ++ t2) = created t1 ++ created t2.
Proof. apply omap_app. Qed.

Lemma registered_none (t : list event) :
  Forall (λ ev, registeredBy ev = None) t → registered t = [].
Proof.
  induction 1 as [|ev t Hev _ IH]; [done|].
  unfold registered in *. cbn. by rewrite Hev, IH.
Qed.

Lemma created_none (t : list event) :
  Forall (λ ev, createdBy ev = None) t → created t = [].
Proof.
  induction 1 as [|ev t Hev _ IH]; [done|].
  unfold created in *. cbn. by rewrite Hev, IH.
Qed.

Section KeepsMap.
Context {Σ : Type} (E : Env Σ).
Implicit Types s : State Σ.

Lemma keepsMap_ret {A} (a : A) : keepsMap (Σ:=Σ) (mret a).
Proof. done. Qed.

Lemma keepsMap_throw {A} e : keepsMap (Σ:=Σ) (A:=A) (throw e).
Proof. done. Qed.

Lemma keepsMap_liftE {A} (r : error + A) : keepsMap (Σ:=Σ) (liftE r).
Proof. by destruct r. Qed.

Lemma keepsMap_emit ev : keepsMap (Σ:=Σ) (emit ev).
Proof. done. Qed.

Lemma keepsMap_bind {A B} (m : M Σ A) (f : A → M Σ B) :
  keepsMap m → (∀ a, keepsMap (f a)) → keepsMap (m ≫= f).
Proof.
  intros Hm Hf s. rewrite bind_run. specialize (Hm s).
  destruct (m s) as [[[a|e|msg|] s1] t1]; cbn in *; try done.
  specialize (Hf a s1). destruct (f a s1) as [[r2 s2] t2]. cbn in *.
  congruence.
Qed.

Lemma keepsMap_catch {A} (m : M Σ A) : keepsMap m → keepsMap (catch m).
Proof.
  intros Hm s. unfold catch. specialize (Hm s).
  by destruct (m s) as [[[a|e|msg|] s1] t1].
Qed.

Lemma keepsMap_callStore {A} (f : Σ → (error + A) * Σ) ev :
  keepsMap (callStore f ev).
Proof. intros s. unfold callStore. by destruct (f (stores s)) as [[e|a] σ]. Qed.

Lemma keepsMap_callStore_ (f : Σ → option error * Σ) ev :
  keepsMap (callStore_ f ev).
Proof. intros s. unfold callStore_. by destruct (f (stores s)) as [[e|] σ]. Qed.

Lemma keepsMap_queryStore {A} (f : Σ → error + A) ev :
  keepsMap (queryStore f ev).
Proof. intros s. unfold queryStore. by destruct (f (stores s)) as [e|a]. Qed.

Lemma keepsMap_run {A} (m : M Σ A) s r s' t :
  keepsMap m → m s = (r, s', t) → loadedMap s' = loadedMap s.
Proof. intros Hm Hrun. specialize (Hm s). by rewrite Hrun in Hm. Qed.
End KeepsMap.

Ltac keepsMap_step :=
  lazymatch goal with
  | |- keepsMap (mbind _ _) => apply keepsMap_bind; [|intros ?]
  | |- keepsMap (mret _) => apply keepsMap_ret
  | |- keepsMap (ret _) => apply keepsMap_ret
  | |- keepsMap (throw _) => apply keepsMap_throw
  | |- keepsMap (liftE _) => apply keepsMap_liftE
  | |- keepsMap (emit _) => apply keepsMap_emit
  | |- keepsMap (catch _) => apply keepsMap_catch
  | |- keepsMap (callStore _ _) => apply keepsMap_callStore
  | |- keepsMap (callStore_ _ _) => apply keepsMap_callStore_
  | |- keepsMap (queryStore _ _) => apply keepsMap_queryStore
  | |- keepsMap (match ?x with _ => _ end) => destruct x
  end.

Ltac keepsMap_model :=
  unfold loadLayer, safePath, osOpen, ioutil_ReadFile, osStat, write, lsGet,
    lsRegister, lsRelease, isCreate, isGet, isSetParent, rsGet, rsAddTag;
  repeat keepsMap_step.

Section LegacyBody.
Context {Σ : Type} (E : Env Σ).
Implicit Types s : State Σ.

(** One unfolding of [legacyLoadImage]. *)
Lemma legacyLoadImage_S n oldID sourceDir po :
  legacyLoadImage E (S n) oldID sourceDir po =
  (s ← getState;
   if decide (is_Some (loadedMap s !! oldID)) then ret tt
   else
     configPath ← safePath E sourceDir
                    (filepath_Join E [oldID; legacyConfigFileName E]);
     imageJSON ← ioutil_ReadFile E configPath;
     parent ← liftE (unmarshalParent E imageJSON);
     parentID ← (if decide (parent ≠ "") then
                   waitParent (λ p, legacyLoadImage E n p sourceDir po)
                              n parent
                 else ret "");
     legacyAssemble E oldID sourceDir po imageJSON parentID).
Proof. reflexivity. Qed.

(** An old ID already in the load map: [legacyLoadImage] returns at once,
    with no call and no change. *)
Lemma legacyLoadImage_loaded n oldID sourceDir po s :
  is_Some (loadedMap s !! oldID) →
  legacyLoadImage E (S n) oldID sourceDir po s = (Ok tt, s, []).
Proof.
  intros Hin. rewrite legacyLoadImage_S, bind_run. cbn [getState].
  by rewrite decide_True.
Qed.

Lemma loadLayer_Ok filename rootFS id po s l s' t :
  loadLayer E filename rootFS id po s = (Ok l, s', t) →
  ∃ rawTar data,
    os_Open E filename = inr rawTar
    ∧ archive_DecompressStream E rawTar = inr data
    ∧ registered t = [data] ∧ created t = []
    ∧ loadedMap s' = loadedMap s.
Proof.
  intros Hrun.
  assert (loadedMap s' = loadedMap s) as Hmap.
  { eapply keepsMap_run; [|exact Hrun]. keepsMap_model. }
  revert Hrun. unfold loadLayer, osOpen, osStat, lsRegister, callStore.
  msimpl.
  destruct (os_Open E filename) as [e|rawTar] eqn:Hopen; msimpl; [done|].
  destruct (archive_DecompressStream E rawTar) as [e|data] eqn:Hdata; msimpl;
    [done|].
  destruct po; msimpl.
  - destruct (os_Stat E filename) as [e|n]; msimpl; [done|].
    destruct (ls_Register E (stores s) data _) as [[e|l'] σ];
      intros [= <- <- <-]. by exists rawTar, data.
  - destruct (ls_Register E (stores s) data _) as [[e|l'] σ];
      intros [= <- <- <-]. by exists rawTar, data.
Qed.

(** What the assembly of a legacy image has done when it succeeds. *)
Lemma legacyAssemble_Ok oldID sourceDir po imageJSON parentID s s' t :
  legacyAssemble E oldID sourceDir po imageJSON parentID s = (Ok tt, s', t) →
  ∃ data imgID,
    legacyLayerData E sourceDir oldID = Some data
    ∧ registered t = [data]
    ∧ created t = [Some imgID]
    ∧ loadedMap s' = <[oldID := imgID]> (loadedMap s)
    ∧ (parentID ≠ "" → EvIsSetParent imgID parentID ∈ t).
Proof.
  intros Hrun. unfold legacyAssemble in Hrun.
  minv Hrun as base s1 t1 t2 Hbase | r1 Hr; [|by destruct r1].
  assert (loadedMap s1 = loadedMap s ∧ registered t1 = [] ∧ created t1 = [])
    as (Hm1 & Hr1 & Hc1).
  { split; [|split].
    - eapply keepsMap_run; [|exact Hbase]. keepsMap_model.
    - apply registered_none. eapply emits_run; [|exact Hbase]. emits_model.
    - apply created_none. eapply emits_run; [|exact Hbase]. emits_model. }
  minv Hrun as layerPath s2 t3 t4 Hpath | r1 Hr; [|by destruct r1].
  rewrite safePath_run in Hpath. cbn zeta in Hpath.
  destruct (FollowSymlinkInScope E _ sourceDir) as [e|layerPath'] eqn:Hfollow;
    [done|].
  inversion Hpath; subst; clear Hpath.
  minv Hrun as newLayer s3 t5 t6 Hlayer | r1 Hr; [|by destruct r1].
  apply loadLayer_Ok in Hlayer
    as (rawTar & data & Hopen & Hdata & Hr5 & Hc5 & Hm3).
  cbn zeta in Hrun.
  minv Hrun as h s4 t7 t8 Hh | r1 Hr; [|by destruct r1].
  destruct (v1_HistoryFromConfig E imageJSON false) as [e|h'];
    inversion Hh; subst; clear Hh.
  minv Hrun as config s5 t9 t10 Hconfig | r1 Hr; [|by destruct r1].
  destruct (v1_MakeConfigFromV1Config E imageJSON _ _) as [e|config'];
    inversion Hconfig; subst; clear Hconfig.
  minv Hrun as imgID s6 t11 t12 Hcreate | r1 Hr; [|by destruct r1].
  unfold isCreate, callStore in Hcreate.
  destruct (is_Create E _ config) as [[e|imgID'] σ6];
    inversion Hcreate; subst; clear Hcreate.
  minv Hrun as u1 s7 t13 t14 Hrelease | r1 Hr; [|by destruct r1].
  unfold lsRelease, callStore_ in Hrelease.
  destruct (ls_Release E _ newLayer) as [[e|] σ7];
    inversion Hrelease; subst; clear Hrelease.
  minv Hrun as u2 s8 t15 t16 Hset | r1 Hr; [|by destruct r1].
  inversion Hrun; subst; clear Hrun.
  exists data, imgID. split.
  { unfold legacyLayerData. by rewrite Hfollow, Hopen, Hdata. }
  assert (loadedMap s8 = loadedMap s ∧ registered t15 = []
          ∧ created t15 = []
          ∧ (parentID ≠ "" → EvIsSetParent imgID parentID ∈ t15))
    as (Hm8 & Hr15 & Hc15 & Hev).
  { destruct (decide (parentID ≠ "")) as [Hp|Hp].
    - unfold isSetParent, callStore_ in Hset.
      destruct (is_SetParent E _ imgID parentID) as [[e|] σ8];
        inversion Hset; subst; clear Hset.
      cbn. split; [congruence|]. split; [done|]. split; [done|].
      intros _. apply list_elem_of_singleton. done.
    - inversion Hset; subst. cbn. split; [congruence|]. done. }
  rewrite !registered_app, !created_app, Hr1, Hc1, Hr5, Hc5, Hr15, Hc15.
  cbn. rewrite Hm8. split; [done|]. split; [done|]. split; [done|].
  intros Hp. specialize (Hev Hp).
  repeat (rewrite elem_of_app || rewrite elem_of_cons). eauto 20.
Qed.
End LegacyBody.

Section LegacyRuns.
Context {Σ : Type} (E : Env Σ) (sourceDir : string) (po : bool).
Implicit Types s : State Σ.

(** The loop around the parent lookup, when it returns: the parent was in
    the load map, or one load has put it there. *)
Lemma waitParent_Ok (load : string → M Σ unit) k parent s parentID s' t :
  (∀ s0 s1 t1, load parent s0 = (Ok tt, s1, t1) →
               is_Some (loadedMap s1 !! parent)) →
  waitParent load k parent s = (Ok parentID, s', t) →
  (loadedMap s !! parent = Some parentID ∧ s' = s ∧ t = [])
  ∨ (loadedMap s !! parent = None ∧ load parent s = (Ok tt, s', t)
     ∧ loadedMap s' !! parent = Some parentID).
Proof.
  intros Hload Hrun. destruct k as [|k]; [done|].
  cbn [waitParent] in Hrun. rewrite bind_run in Hrun. cbn [getState] in Hrun.
  destruct (loadedMap s !! parent) as [pid|] eqn:Hs.
  { inversion Hrun; subst. by left. }
  right. split; [done|].
  destruct ((load parent ≫= λ _, waitParent load k parent) s)
    as [[r1 s1] t1] eqn:Hloop.
  inversion Hrun; subst; clear Hrun.
  minv Hloop as u s2 t2 t3 Hfirst | r1 Hr; [|by destruct r1].
  destruct u. pose proof (Hload _ _ _ Hfirst) as [pid Hpid].
  destruct k as [|k]; [done|].
  cbn [waitParent] in Hloop. rewrite bind_run in Hloop.
  cbn [getState] in Hloop. rewrite Hpid in Hloop.
  inversion Hloop; subst. cbn. by rewrite app_nil_r.
Qed.

(** A successful [legacyLoadImage] on an old ID that was not in the load
    map: the parent it declares, how that parent was resolved, and the
    assembly that followed. *)
Lemma legacyLoadImage_Ok_inv n oldID s s' t :
  legacyLoadImage E (S n) oldID sourceDir po s = (Ok tt, s', t) →
  loadedMap s !! oldID = None →
  ∃ imageJSON parent parentID sp pre tp ta,
    legacyParent E sourceDir oldID = Some parent
    ∧ ((parent = "" ∧ parentID = "" ∧ sp = s ∧ tp = [])
       ∨ (parent ≠ ""
          ∧ waitParent (λ p, legacyLoadImage E n p sourceDir po) n parent s
            = (Ok parentID, sp, tp)))
    ∧ legacyAssemble E oldID sourceDir po imageJSON parentID sp
      = (Ok tt, s', ta)
    ∧ t = pre ++ tp ++ ta
    ∧ registered pre = [] ∧ created pre = []
    ∧ (∀ i p, EvIsSetParent i p ∉ pre).
Proof.
  intros Hbody Hout. rewrite legacyLoadImage_S in Hbody.
  minv Hbody as s0 s0' t0 t0' Hget | r1 Hr; [|by destruct r1].
  inversion Hget; subst; clear Hget. cbn [app].
  rewrite decide_False in Hbody by (rewrite Hout; by intros [? ?]).
  minv Hbody as configPath s1 t1 t2 Hpath | r1 Hr; [|by destruct r1].
  rewrite safePath_run in Hpath. cbn zeta in Hpath.
  destruct (FollowSymlinkInScope E _ sourceDir) as [e|configPath'] eqn:Hfollow;
    [done|].
  inversion Hpath; subst; clear Hpath.
  minv Hbody as imageJSON s2 t3 t4 Hread | r1 Hr; [|by destruct r1].
  rewrite ioutil_ReadFile_run in Hread.
  destruct (os_Open E configPath) as [e|imageJSON'] eqn:Hopen; [done|].
  inversion Hread; subst; clear Hread.
  minv Hbody as parent s3 t5 t6 Hparent | r1 Hr; [|by destruct r1].
  destruct (unmarshalParent E imageJSON) as [e|parent'] eqn:Hunm;
    inversion Hparent; subst; clear Hparent.
  minv Hbody as parentID s4 t7 t8 Hwait | r1 Hr; [|by destruct r1].
  exists imageJSON, parent, parentID, s4,
    [EvFollowSymlink
       (filepath_Join E
          [sourceDir; filepath_Join E [oldID; legacyConfigFileName E]])
       sourceDir (inr configPath); EvOpen configPath], t7, t8.
  split. { unfold legacyParent. by rewrite Hfollow, Hopen, Hunm. }
  split.
  { destruct (decide (parent ≠ "")) as [Hp|Hp].
    - right. done.
    - left. apply dec_stable in Hp. by inversion Hwait. }
  split; [done|]. split; [done|]. split; [done|]. split; [done|].
  intros i p Hin. repeat (apply elem_of_cons in Hin as [Hin|Hin]; [done|]).
  by apply elem_of_nil in Hin.
Qed.

(** A successful [legacyLoadImage] has its old ID in the load map. *)
Lemma legacyLoadImage_Ok_loaded n oldID s s' t :
  legacyLoadImage E n oldID sourceDir po s = (Ok tt, s', t) →
  is_Some (loadedMap s' !! oldID).
Proof.
  intros Hrun. destruct n as [|n]; [done|].
  destruct (loadedMap s !! oldID) as [imgID|] eqn:Hs.
  { rewrite legacyLoadImage_loaded in Hrun by (by rewrite Hs).
    inversion Hrun; subst. by rewrite Hs. }
  apply legacyLoadImage_Ok_inv in Hrun
    as (imageJSON & parent & parentID & sp & pre & tp & ta & _ & _ & Hasm & _);
    [|done].
  apply legacyAssemble_Ok in Hasm as (data & imgID & _ & _ & _ & Hmap & _).
  rewrite Hmap, lookup_insert_eq. by eexists.
Qed.

(** Every pending ancestor of an old ID that is loaded with success has
    itself been loaded with success, from the same state and with less
    fuel. *)
Lemma pending_loaded n :
  ∀ oldID x s s' t,
    legacyLoadImage E (S n) oldID sourceDir po s = (Ok tt, s', t) →
    loadedMap s !! oldID = None →
    pending E sourceDir (loadedMap s) oldID x →
    ∃ k s1 t1, k ≤ n ∧ legacyLoadImage E k x sourceDir po s = (Ok tt, s1, t1).
Proof.
  induction n as [|n IH]; intros oldID x s s' t Hrun Hout Hpend.
  - apply legacyLoadImage_Ok_inv in Hrun
      as (imageJSON & parent & parentID & sp & pre & tp & ta
          & Hdecl & Hwait & _); [|done].
    destruct Hwait as [(-> & _)|(_ & Hwait)]; [|done].
    destruct Hpend; congruence.
  - apply legacyLoadImage_Ok_inv in Hrun
      as (imageJSON & parent & parentID & sp & pre & tp & ta
          & Hdecl & Hwait & _); [|done].
    assert (∀ p, legacyParent E sourceDir oldID = Some p → p ≠ "" →
                 loadedMap s !! p = None →
                 ∃ s1 t1, legacyLoadImage E (S n) p sourceDir po s
                          = (Ok tt, s1, t1)) as Hsub.
    { intros p Hp Hne Hpout. assert (p = parent) as -> by congruence.
      destruct Hwait as [(-> & _)|(_ & Hwait)]; [done|].
      apply waitParent_Ok in Hwait
        as [(Hin & _)|(_ & Hload & _)]; [congruence|eauto|].
      intros s0 s1 t1. apply legacyLoadImage_Ok_loaded. }
    destruct Hpend as [oldID p Hp Hne Hpout|oldID p x Hp Hne Hpout Hpend].
    + destruct (Hsub p Hp Hne Hpout) as (s1 & t1 & Hload).
      exists (S n), s1, t1. split; [lia|done].
    + destruct (Hsub p Hp Hne Hpout) as (s1 & t1 & Hload).
      destruct (IH _ _ _ _ _ Hload Hpout Hpend) as (k & s2 & t2 & Hk & Hx).
      exists k, s2, t2. split; [lia|done].
Qed.

(** No old ID that is loaded with success is its own pending ancestor. *)
Lemma pending_irrefl n :
  ∀ oldID s s' t,
    legacyLoadImage E n oldID sourceDir po s = (Ok tt, s', t) →
    loadedMap s !! oldID = None →
    ¬ pending E sourceDir (loadedMap s) oldID oldID.
Proof.
  induction n as [n IH] using lt_wf_ind. intros oldID s s' t Hrun Hout Hpend.
  destruct n as [|n]; [done|].
  destruct (pending_loaded _ _ _ _ _ _ Hrun Hout Hpend)
    as (k & s1 & t1 & Hk & Hx).
  eapply (IH k); eauto. lia.
Qed.
End LegacyRuns.

Section LoadedBy.
Context {Σ : Type} (E : Env Σ) (sourceDir : string) (po : bool).
Implicit Types s : State Σ.

Lemma loadedBy_nil s : loadedBy E sourceDir s s [] [].
Proof.
  split; try done.
  - constructor.
  - intros id Hin. by apply elem_of_nil in Hin.
  - intros id Hin. by apply elem_of_nil in Hin.
  - intros id parent Hin. by apply elem_of_nil in Hin.
Qed.

Lemma loadedBy_prefix s s' pre t new :
  registered pre = [] → created pre = [] →
  loadedBy E sourceDir s s' t new →
  loadedBy E sourceDir s s' (pre ++ t) new.
Proof.
  intros Hr Hc [Hnd Hfresh Hkeeps Hloaded Hreg Hcre Hpar].
  split; try done.
  - by rewrite registered_app, Hr.
  - by rewrite created_app, Hc.
  - intros id parent Hin Hdecl Hne.
    destruct (Hpar id parent Hin Hdecl Hne) as (pid & iid & H1 & H2 & H3).
    exists pid, iid. split; [done|]. split; [done|].
    intros Hp. apply elem_of_app. right. by apply H3.
Qed.

Lemma loadedBy_app s s1 s2 t1 t2 new1 new2 :
  loadedBy E sourceDir s s1 t1 new1 →
  loadedBy E sourceDir s1 s2 t2 new2 →
  loadedBy E sourceDir s s2 (t1 ++ t2) (new1 ++ new2).
Proof.
  intros [Hnd1 Hfresh1 Hkeeps1 Hloaded1 Hreg1 Hcre1 Hpar1]
         [Hnd2 Hfresh2 Hkeeps2 Hloaded2 Hreg2 Hcre2 Hpar2].
  assert (Hdisj : ∀ id, id ∈ new1 → id ∉ new2).
  { intros id H1 H2. specialize (Hloaded1 id H1) as [? Hl].
    specialize (Hfresh2 id H2). congruence. }
  assert (Hstay : ∀ id, is_Some (loadedMap s1 !! id) →
                        loadedMap s2 !! id = loadedMap s1 !! id).
  { intros id [? Hl]. apply Hkeeps2. intros H2.
    specialize (Hfresh2 id H2). congruence. }
  split.
  - apply NoDup_app. done.
  - intros id [H1|H2]%elem_of_app; [by apply Hfresh1|].
    rewrite <- Hkeeps1; [by apply Hfresh2|].
    intros H1. by apply (Hdisj id).
  - intros id Hout. rewrite elem_of_app in Hout.
    rewrite Hkeeps2, Hkeeps1; tauto.
  - intros id [H1|H2]%elem_of_app; [|by apply Hloaded2].
    rewrite Hstay; by apply Hloaded1.
  - by rewrite registered_app, !fmap_app, Hreg1, Hreg2.
  - rewrite created_app, fmap_app, Hcre1, Hcre2. f_equal.
    apply list_fmap_ext. intros i id H1%list_elem_of_lookup_2.
    symmetry. apply Hstay. by apply Hloaded1.
  - intros id parent [H1|H2]%elem_of_app Hdecl Hne.
    + destruct (Hpar1 id parent H1 Hdecl Hne) as (pid & iid & Hp & Hi & Hev).
      exists pid, iid. rewrite !Hstay by (by eexists). split; [done|].
      split; [done|]. intros Hpid. apply elem_of_app. left. by apply Hev.
    + destruct (Hpar2 id parent H2 Hdecl Hne) as (pid & iid & Hp & Hi & Hev).
      exists pid, iid. split; [done|]. split; [done|].
      intros Hpid. apply elem_of_app. right. by apply Hev.
Qed.

(** The assembly of one legacy image whose parent, when it declares one,
    is in the load map. *)
Lemma loadedBy_assemble oldID imageJSON parent parentID s s' t :
  loadedMap s !! oldID = None →
  legacyParent E sourceDir oldID = Some parent →
  (parent = "" ∧ parentID = "")
  ∨ (parent ≠ "" ∧ loadedMap s !! parent = Some parentID) →
  legacyAssemble E oldID sourceDir po imageJSON parentID s = (Ok tt, s', t) →
  loadedBy E sourceDir s s' t [oldID].
Proof.
  intros Hout Hdecl Hparent Hrun.
  apply legacyAssemble_Ok in Hrun
    as (data & imgID & Hdata & Hreg & Hcre & Hmap & Hev).
  split.
  - apply NoDup_singleton.
  - by intros id ->%list_elem_of_singleton.
  - intros id Hid. rewrite list_elem_of_singleton in Hid.
    by rewrite Hmap, lookup_insert_ne.
  - intros id ->%list_elem_of_singleton. rewrite Hmap, lookup_insert_eq.
    by eexists.
  - by rewrite Hreg; cbn; rewrite Hdata.
  - rewrite Hcre. cbn. by rewrite Hmap, lookup_insert_eq.
  - intros id p ->%list_elem_of_singleton Hp Hne.
    assert (p = parent) as -> by congruence.
    destruct Hparent as [[-> _]|[_ Hin]]; [done|].
    assert (oldID ≠ parent) as Hneq.
    { intros ->. enough (@None ImageID = Some parentID) by done.
      etransitivity; [symmetry; exact Hout|exact Hin]. }
    exists parentID, imgID. rewrite Hmap, lookup_insert_eq.
    by rewrite lookup_insert_ne.
Qed.

(** What a successful [legacyLoadImage] has loaded: its old ID, unless it
    was in the load map, after its pending ancestors. *)
Lemma legacyLoadImage_loadedBy n :
  ∀ oldID s s' t,
    legacyLoadImage E n oldID sourceDir po s = (Ok tt, s', t) →
    ∃ new,
      loadedBy E sourceDir s s' t new
      ∧ ∀ x, x ∈ new →
             x = oldID ∨ pending E sourceDir (loadedMap s) oldID x.
Proof.
  induction n as [|n IH]; intros oldID s s' t Hrun; [done|].
  destruct (loadedMap s !! oldID) as [imgID|] eqn:Hout.
  { rewrite legacyLoadImage_loaded in Hrun by (by rewrite Hout).
    inversion Hrun; subst. exists []. split; [apply loadedBy_nil|].
    intros x Hx. by apply elem_of_nil in Hx. }
  pose proof Hrun as Hinv.
  apply legacyLoadImage_Ok_inv in Hinv
    as (imageJSON & parent & parentID & sp & pre & tp & ta
        & Hdecl & Hwait & Hasm & -> & Hpre_r & Hpre_c & _); [|done].
  assert (Hone : ∀ t0, loadedBy E sourceDir s s' t0 [oldID] →
            ∃ new, loadedBy E sourceDir s s' (pre ++ [] ++ t0) new
              ∧ ∀ x, x ∈ new →
                     x = oldID ∨ pending E sourceDir (loadedMap s) oldID x).
  { intros t0 Hlb. exists [oldID]. split; [by apply loadedBy_prefix|].
    intros x ->%list_elem_of_singleton. by left. }
  destruct Hwait as [(-> & -> & -> & ->)|(Hne & Hwait)].
  { apply Hone. eapply loadedBy_assemble; eauto. }
  apply waitParent_Ok in Hwait
    as [(Hin & -> & ->)|(Hpout & Hload & Hin)];
    [| |intros s0 s1 t1; apply legacyLoadImage_Ok_loaded].
  { apply Hone. eapply loadedBy_assemble; eauto. }
  destruct (IH _ _ _ _ Hload) as (newp & Hlbp & Hanc).
  assert (oldID ∉ newp) as Hfresh.
  { intros Hx. apply (pending_irrefl E sourceDir po _ _ _ _ _ Hrun Hout).
    destruct (Hanc _ Hx) as [->|Hpend].
    - by apply pending_parent.
    - by eapply pending_step. }
  assert (loadedMap sp !! oldID = None) as Hout'.
  { by rewrite (lb_keeps _ _ _ _ _ _ Hlbp). }
  exists (newp ++ [oldID]). split.
  - apply loadedBy_prefix; [done|done|].
    eapply loadedBy_app; [exact Hlbp|].
    eapply loadedBy_assemble; eauto.
  - intros x [Hx| ->%list_elem_of_singleton]%elem_of_app; [|by left].
    right. destruct (Hanc _ Hx) as [->|Hpend].
    + by apply pending_parent.
    + by eapply pending_step.
Qed.

(** The directories loop of [legacyLoad]. *)
Lemma legacyLoadDirs_loadedBy n dirs :
  ∀ s s' t,
    legacyLoadDirs E n dirs sourceDir po s = (Ok tt, s', t) →
    ∃ new,
      loadedBy E sourceDir s s' t new
      ∧ ∀ d, d ∈ dirs → IsDir d = true → is_Some (loadedMap s' !! Name d).
Proof.
  induction dirs as [|d rest IH]; intros s s' t Hrun.
  { inversion Hrun; subst. exists []. split; [apply loadedBy_nil|].
    intros d Hd. by apply elem_of_nil in Hd. }
  cbn [legacyLoadDirs] in Hrun.
  minv Hrun as u s1 t1 t2 Hfirst | r1 Hr; [|by destruct r1].
  destruct u. destruct (IH _ _ _ Hrun) as (new2 & Hlb2 & Hdirs2).
  assert (∃ new1, loadedBy E sourceDir s s1 t1 new1
                  ∧ (IsDir d = true → is_Some (loadedMap s1 !! Name d)))
    as (new1 & Hlb1 & Hd1).
  { destruct (IsDir d).
    - destruct (legacyLoadImage_loadedBy _ _ _ _ _ Hfirst) as (new1 & Hlb1 & _).
      exists new1. split; [done|]. intros _.
      by eapply legacyLoadImage_Ok_loaded.
    - inversion Hfirst; subst. exists []. split; [apply loadedBy_nil|done]. }
  exists (new1 ++ new2). split; [by eapply loadedBy_app|].
  intros d' [->|Hd']%elem_of_cons Hdir; [|by apply Hdirs2].
  destruct (Hd1 Hdir) as [imgID Himg].
  rewrite (lb_keeps _ _ _ _ _ _ Hlb2); [by eexists|].
  intros Hin. pose proof (lb_fresh _ _ _ _ _ _ Hlb2 _ Hin). congruence.
Qed.
End LoadedBy.

Section SharedParent.
Context {Σ : Type} (E : Env Σ).

(** C7: in a batch of legacy image directories that [legacyLoad] loads
    with success from an empty load map, every old ID is loaded once:
    there is a duplicate-free list [order] of exactly the old IDs of the
    final load map such that the [Register] calls of the batch are, in
    this order, those of their layer blobs, and the [Create] calls
    returned, in this order, their image IDs.  When the directories [X]
    and [Y] both declare the parent [P], then [P] is in that list (so it
    is registered and assembled once), and [SetParent] has been called
    for the images of [X] and of [Y] with the image ID of [P] (the code
    skips the call for an empty parent image ID).  Moreover
    [legacyLoadImage] on an old ID that is in the load map returns at
    once without any call or change. *)
Theorem legacy_shared_parent_loaded_once (fuel : nat) (dirs : list FileInfo)
    (tmpDir : string) (progressOutput : bool) (s s' : State Σ)
    (t : list event) (X Y P : string) :
  loadedMap s = ∅ →
  legacyLoadDirs E fuel dirs tmpDir progressOutput s = (Ok tt, s', t) →
  mkFileInfo X true ∈ dirs →
  mkFileInfo Y true ∈ dirs →
  legacyParent E tmpDir X = Some P →
  legacyParent E tmpDir Y = Some P →
  P ≠ "" →
  ∃ (order : list string) (pid xid yid : ImageID),
    NoDup order
    ∧ (∀ id, id ∈ order ↔ is_Some (loadedMap s' !! id))
    ∧ Some <$> registered t = legacyLayerData E tmpDir <$> order
    ∧ created t = (λ id, loadedMap s' !! id) <$> order
    ∧ P ∈ order
    ∧ loadedMap s' !! P = Some pid
    ∧ loadedMap s' !! X = Some xid
    ∧ loadedMap s' !! Y = Some yid
    ∧ (pid ≠ "" → EvIsSetParent xid pid ∈ t ∧ EvIsSetParent yid pid ∈ t)
    ∧ (∀ n s0, is_Some (loadedMap s0 !! P) →
         legacyLoadImage E (S n) P tmpDir progressOutput s0 = (Ok tt, s0, [])).
Proof.
  intros Hempty Hrun HX HY HXP HYP HP.
  destruct (legacyLoadDirs_loadedBy E tmpDir progressOutput _ _ _ _ _ Hrun)
    as (order & Hlb & Hdirs).
  assert (Hiff : ∀ id, id ∈ order ↔ is_Some (loadedMap s' !! id)).
  { intros id. split; [apply (lb_loaded _ _ _ _ _ _ Hlb)|].
    intros [imgID Himg]. destruct (decide (id ∈ order)) as [|Hout]; [done|].
    rewrite (lb_keeps _ _ _ _ _ _ Hlb _ Hout), Hempty in Himg.
    by rewrite lookup_empty in Himg. }
  assert (X ∈ order) as HXin by (apply Hiff; by apply (Hdirs _ HX)).
  assert (Y ∈ order) as HYin by (apply Hiff; by apply (Hdirs _ HY)).
  destruct (lb_parent _ _ _ _ _ _ Hlb X P HXin HXP HP)
    as (pid & xid & HPmap & HXmap & HXev).
  destruct (lb_parent _ _ _ _ _ _ Hlb Y P HYin HYP HP)
    as (pid' & yid & HPmap' & HYmap & HYev).
  assert (pid' = pid) as ->.
  { enough (Some pid' = Some pid) by congruence.
    etransitivity; [symmetry; exact HPmap'|exact HPmap]. }
  exists order, pid, xid, yid.
  split; [apply (lb_nodup _ _ _ _ _ _ Hlb)|]. split; [done|].
  split; [apply (lb_registered _ _ _ _ _ _ Hlb)|].
  split; [apply (lb_created _ _ _ _ _ _ Hlb)|].
  split; [apply Hiff; by eexists|].
  split; [done|]. split; [done|]. split; [done|].
  split; [intros Hpid; split; auto|].
  intros n s0 Hin. by apply legacyLoadImage_loaded.
Qed.
End SharedParent.

Section SharedParentExample.
Import Sample Worlds.

(** [X] and [Y] with the parent [P], in the order [X], [Y], [P]. *)
Lemma legacy_shared_parent_loaded_once_witness :
  let x := legacyLoadDirs (env legacy) 3 legacyDirs "/tmp" true start in
  ∃ (order : list string) (pid xid yid : ImageID),
    NoDup order
    ∧ (∀ id, id ∈ order ↔ is_Some (loadedMap x.1.2 !! id))
    ∧ Some <$> registered x.2 = legacyLayerData (env legacy) "/tmp" <$> order
    ∧ created x.2 = (λ id, loadedMap x.1.2 !! id) <$> order
    ∧ "P" ∈ order
    ∧ loadedMap x.1.2 !! "P" = Some pid
    ∧ loadedMap x.1.2 !! "X" = Some xid
    ∧ loadedMap x.1.2 !! "Y" = Some yid
    ∧ (pid ≠ "" → EvIsSetParent xid pid ∈ x.2 ∧ EvIsSetParent yid pid ∈ x.2)
    ∧ (∀ n s0, is_Some (loadedMap s0 !! "P") →
         legacyLoadImage (env legacy) (S n) "P" "/tmp" true s0
           = (Ok tt, s0, [])).
Proof.
  intros x.
  apply (legacy_shared_parent_loaded_once (env legacy) 3 legacyDirs "/tmp"
           true start x.1.2 x.2 "X" "Y" "P").
  - reflexivity.
  - vm_compute. reflexivity.
  - vm_compute. apply list_elem_of_here.
  - vm_compute. apply list_elem_of_further, list_elem_of_here.
  - vm_compute. reflexivity.
  - vm_compute. reflexivity.
  - discriminate.
Defined.
End SharedParentExample.

(** ** The path guard before every open of [loadHelper] and [legacyLoad] *)

Lemma unguardedOpens_app (resolved : list string) (t1 t2 : list event) :
  unguardedOpens resolved (t1 ++ t2)
  = unguardedOpens resolved t1
    ++ unguardedOpens (resolvedAfter resolved t1) t2.
Proof.
  revert resolved. induction t1 as [|ev t1 IH]; intros resolved; [done|].
  destruct ev as [p b [e|q]| | | | | | | | | | | | |]; cbn; try apply IH.
  destruct (bool_decide _); cbn; by rewrite IH.
Qed.

Lemma resolvedAfter_mono (resolved : list string) (t : list event) p :
  p ∈ resolved → p ∈ resolvedAfter resolved t.
Proof.
  revert resolved. induction t as [|ev t IH]; intros resolved Hp; [done|].
  destruct ev as [q b [e|q']| | | | | | | | | | | | |]; cbn; try by apply IH.
  apply IH. by apply elem_of_cons; right.
Qed.

Lemma unguardedOpens_no_open (resolved : list string) (t : list event) :
  Forall (λ ev, ∀ p, ev ≠ EvOpen p) t → unguardedOpens resolved t = [].
Proof.
  intros H. revert resolved.
  induction H as [|ev t Hev _ IH]; intros resolved; [done|].
  destruct ev as [q b [e|q']| p | | | | | | | | | | | |]; cbn; try apply IH.
  by destruct (Hev p).
Qed.

Section Guards.
Context {Σ : Type} (E : Env Σ).
Implicit Types s : State Σ.

Lemma guards_guardsWith {A} path (m : M Σ A) : guards m → guardsWith path m.
Proof. intros Hm s resolved _. apply Hm. Qed.

(** A computation without opens. *)
Lemma guards_emits {A} (m : M Σ A) :
  emits (λ ev, ∀ p, ev ≠ EvOpen p) m → guards m.
Proof. intros Hm s resolved. apply unguardedOpens_no_open, Hm. Qed.

Lemma guards_bind {A B} (m : M Σ A) (f : A → M Σ B) :
  guards m → (∀ a, guards (f a)) → guards (m ≫= f).
Proof.
  intros Hm Hf s resolved. rewrite bind_run. specialize (Hm s resolved).
  destruct (m s) as [[[a|e|msg|] s1] t1]; cbn in *; try done.
  specialize (Hf a s1 (resolvedAfter resolved t1)).
  destruct (f a s1) as [[r2 s2] t2]. cbn in *.
  by rewrite unguardedOpens_app, Hm, Hf.
Qed.

Lemma guardsWith_bind {A B} path (m : M Σ A) (f : A → M Σ B) :
  guardsWith path m → (∀ a, guardsWith path (f a)) →
  guardsWith path (m ≫= f).
Proof.
  intros Hm Hf s resolved Hp. rewrite bind_run. specialize (Hm s resolved Hp).
  destruct (m s) as [[[a|e|msg|] s1] t1]; cbn in *; try done.
  specialize (Hf a s1 (resolvedAfter resolved t1)
                 (resolvedAfter_mono _ _ _ Hp)).
  destruct (f a s1) as [[r2 s2] t2]. cbn in *.
  by rewrite unguardedOpens_app, Hm, Hf.
Qed.

(** The path that [safePath] returns may be opened by what follows. *)
Lemma guards_safePath {B} base path (k : string → M Σ B) :
  (∀ p, guardsWith p (k p)) → guards (safePath E base path ≫= k).
Proof.
  intros Hk s resolved. rewrite bind_run, safePath_run. cbn zeta.
  destruct (FollowSymlinkInScope E _ _) as [e|p]; [done|].
  specialize (Hk p s (p :: resolved)).
  destruct (k p s) as [[r2 s2] t2]. cbn in *. apply Hk.
  by apply elem_of_cons; left.
Qed.

Lemma guardsWith_safePath {B} path0 base path (k : string → M Σ B) :
  (∀ p, guardsWith p (k p)) → (∀ p, guardsWith path0 (k p)) →
  guardsWith path0 (safePath E base path ≫= k).
Proof. intros Hk _. apply guards_guardsWith. by apply guards_safePath. Qed.

Lemma guardsWith_osOpen path : guardsWith path (osOpen E path).
Proof.
  intros s resolved Hp. rewrite osOpen_run. cbn.
  by rewrite bool_decide_eq_true_2.
Qed.

Lemma guardsWith_ReadFile path : guardsWith path (ioutil_ReadFile E path).
Proof. apply guardsWith_osOpen. Qed.

Lemma guardsWith_loadLayer filename rootFS id po :
  guardsWith filename (loadLayer E filename rootFS id po).
Proof.
  unfold loadLayer. apply guardsWith_bind; [apply guardsWith_osOpen|].
  intros rawTar. apply guards_guardsWith, guards_emits. by emits_model.
Qed.

Lemma guardsWith_resolveLayer layerPath rootFS diffID po :
  guardsWith layerPath (resolveLayer E layerPath rootFS diffID po).
Proof.
  unfold resolveLayer. apply guardsWith_bind.
  { apply guards_guardsWith, guards_emits. by emits_model. }
  intros [e|l].
  - apply guardsWith_loadLayer.
  - apply guards_guardsWith, guards_emits. by emits_model.
Qed.

Lemma loadLayers_guards tmpDir po m ds :
  ∀ i rootFS, guards (loadLayers E tmpDir po m i ds rootFS).
Proof.
  induction ds as [|diffID rest IH]; intros i rootFS.
  { apply guards_emits, emits_ret. }
  rewrite loadLayers_cons.
  destruct (Layers m !! i) as [layerFile|];
    [|apply guards_emits, emits_panic].
  apply guards_safePath. intros layerPath.
  apply guardsWith_bind; [apply guardsWith_resolveLayer|]. intros l.
  apply guards_guardsWith, guards_bind.
  { apply guards_emits, emits_defer. }
  intros _. destruct (decide _); [apply guards_emits, emits_throw|apply IH].
Qed.

Lemma loadManifests_guards tmpDir po manifests :
  guards (loadManifests E tmpDir po manifests).
Proof.
  induction manifests as [|m rest IH]; [apply guards_emits, emits_ret|].
  cbn [loadManifests]. apply guards_bind; [|by intros _].
  unfold loadManifestItem. apply guards_safePath. intros configPath.
  apply guardsWith_bind; [apply guardsWith_ReadFile|]. intros config.
  apply guards_guardsWith, guards_bind.
  { apply guards_emits, emits_liftE. }
  intros img. cbn zeta. destruct (decide _); [apply guards_emits, emits_throw|].
  apply guards_bind; [apply loadLayers_guards|]. intros _.
  apply guards_emits, emits_bind; [by emits_model|]. intros imgID.
  by apply loadRepoTags_emits.
Qed.

(** Every open of [loadHelper] is of a path that [safePath] has returned
    before. *)
Lemma loadHelper_guards tmpDir manifests po :
  guards (loadHelper E tmpDir manifests po).
Proof.
  intros s resolved. unfold loadHelper, withDeferred.
  pose proof (loadManifests_guards tmpDir po manifests
                (mkState (stores s) (loadedMap s) []) resolved) as Hbody.
  destruct (loadManifests E tmpDir po manifests _) as [[r1 s1] t1].
  cbn [snd] in Hbody.
  pose proof (emits_runDeferred E (λ ev, ∀ p, ev ≠ EvOpen p) (deferred s1)
                (λ _ _, ltac:(discriminate)) (stores s1)) as Hrel.
  destruct (runDeferred E (deferred s1) (stores s1)) as [σ2 t2].
  cbn [snd] in Hrel. destruct r1; cbn [snd]; try done;
    rewrite unguardedOpens_app, Hbody; by apply unguardedOpens_no_open.
Qed.

Lemma waitParent_guards (load : string → M Σ unit) k parent :
  (∀ p, guards (load p)) → guards (waitParent load k parent).
Proof.
  intros Hload. induction k as [|k IH]; [apply guards_emits, emits_outOfFuel|].
  cbn [waitParent]. apply guards_bind; [apply guards_emits, emits_getState|].
  intros s0. destruct (loadedMap s0 !! parent);
    [apply guards_emits, emits_ret|].
  apply guards_bind; [apply Hload|]. by intros _.
Qed.

(** Every open of [legacyLoadImage] is of a path that [safePath] has
    returned before. *)
Lemma legacyLoadImage_guards n :
  ∀ oldID sourceDir po, guards (legacyLoadImage E n oldID sourceDir po).
Proof.
  induction n as [|n IH]; intros oldID sourceDir po;
    [apply guards_emits, emits_outOfFuel|].
  rewrite legacyLoadImage_S.
  apply guards_bind; [apply guards_emits, emits_getState|].
  intros s0. destruct (decide _); [apply guards_emits, emits_ret|].
  apply guards_safePath. intros configPath.
  apply guardsWith_bind; [apply guardsWith_ReadFile|]. intros imageJSON.
  apply guards_guardsWith, guards_bind; [apply guards_emits, emits_liftE|].
  intros parent. apply guards_bind.
  { destruct (decide _); [|apply guards_emits, emits_ret].
    apply waitParent_guards. intros p. apply IH. }
  intros parentID. unfold legacyAssemble. apply guards_bind.
  { apply guards_emits. by emits_model. }
  intros base. apply guards_safePath. intros layerPath.
  apply guardsWith_bind; [apply guardsWith_loadLayer|]. intros newLayer.
  apply guards_guardsWith, guards_emits. by emits_model.
Qed.

(** Every open of [legacyLoad] is of a path that [safePath] has returned
    before. *)
Lemma legacyLoad_guards n tmpDir po : guards (legacyLoad E n tmpDir po).
Proof.
  unfold legacyLoad.
  apply guards_bind; [apply guards_emits, emits_makeLoadedMap|]. intros _.
  apply guards_bind; [apply guards_emits; by emits_model|]. intros dirs.
  apply guards_bind.
  { induction dirs as [|d rest IH]; [apply guards_emits, emits_ret|].
    cbn [legacyLoadDirs]. apply guards_bind; [|by intros _].
    destruct (IsDir d);
      [apply legacyLoadImage_guards|apply guards_emits, emits_ret]. }
  intros _. apply guards_safePath. intros repositoriesPath.
  apply guardsWith_bind.
  { intros s resolved Hp. unfold catch. rewrite osOpen_run.
    destruct (os_Open E repositoriesPath); cbn;
      by rewrite bool_decide_eq_true_2. }
  intros [err|content]; apply guards_guardsWith, guards_emits.
  - destruct (negb _); by emits_model.
  - apply emits_bind; [by emits_model|]. intros repositories.
    induction repositories as [|[name tagMap] rest IH]; [apply emits_ret|].
    cbn [legacyLoadRepositories]. apply emits_bind; [|by intros _].
    clear IH. induction tagMap as [|[tag oldID] rest' IH]; [apply emits_ret|].
    cbn [legacyLoadTags]. by emits_model.
Qed.
End Guards.

(** ** Lookup before register *)

Lemma lookups_app (t1 t2 : list event) :
  lookups (t1 ++ t2) = lookups t1 ++ lookups t2.
Proof. apply omap_app. Qed.

Lemma registeredChains_app (t1 t2 : list event) :
  registeredChains (t1 ++ t2) = registeredChains t1 ++ registeredChains t2.
Proof. apply omap_app. Qed.

Lemma registerParents_app (t1 t2 : list event) :
  registerParents (t1 ++ t2) = registerParents t1 ++ registerParents t2.
Proof. apply omap_app. Qed.

Lemma lookups_none (t : list event) :
  Forall (λ ev, lookupBy ev = None) t → lookups t = [].
Proof.
  induction 1 as [|ev t Hev _ IH]; [done|].
  unfold lookups in *. cbn. by rewrite Hev, IH.
Qed.

Lemma registeredChains_none (t : list event) :
  Forall (λ ev, registeredChainBy ev = None) t → registeredChains t = [].
Proof.
  induction 1 as [|ev t Hev _ IH]; [done|].
  unfold registeredChains in *. cbn. by rewrite Hev, IH.
Qed.

Section KeepsHas.
Context {Σ : Type} (E : Env Σ) (has : Σ → ChainID → Prop).
Implicit Types s : State Σ.

Lemma keepsHas_ret {A} (a : A) : keepsHas (Σ:=Σ) has (mret a).
Proof. by intros s c. Qed.

Lemma keepsHas_throw {A} e : keepsHas (Σ:=Σ) (A:=A) has (throw e).
Proof. by intros s c. Qed.

Lemma keepsHas_liftE {A} (r : error + A) : keepsHas (Σ:=Σ) has (liftE r).
Proof. intros s c. by destruct r. Qed.

Lemma keepsHas_emit ev : keepsHas (Σ:=Σ) has (emit ev).
Proof. by intros s c. Qed.

Lemma keepsHas_bind {A B} (m : M Σ A) (f : A → M Σ B) :
  keepsHas has m → (∀ a, keepsHas has (f a)) → keepsHas has (m ≫= f).
Proof.
  intros Hm Hf s c Hc. rewrite bind_run. specialize (Hm s c Hc).
  destruct (m s) as [[[a|e|msg|] s1] t1]; cbn in *; try done.
  specialize (Hf a s1 c Hm). by destruct (f a s1) as [[r2 s2] t2].
Qed.

Lemma keepsHas_catch {A} (m : M Σ A) : keepsHas has m → keepsHas has (catch m).
Proof.
  intros Hm s c Hc. unfold catch. specialize (Hm s c Hc).
  by destruct (m s) as [[[a|e|msg|] s1] t1].
Qed.

Lemma keepsHas_queryStore {A} (f : Σ → error + A) ev :
  keepsHas has (queryStore f ev).
Proof. intros s c Hc. unfold queryStore. by destruct (f (stores s)). Qed.

Lemma keepsHas_callStore {A} (f : Σ → (error + A) * Σ) ev :
  (∀ σ c, has σ c → has (f σ).2 c) → keepsHas has (callStore f ev).
Proof.
  intros Hf s c Hc. unfold callStore. specialize (Hf (stores s) c Hc).
  by destruct (f (stores s)) as [[e|a] σ].
Qed.

Lemma keepsHas_callStore_ (f : Σ → option error * Σ) ev :
  (∀ σ c, has σ c → has (f σ).2 c) → keepsHas has (callStore_ f ev).
Proof.
  intros Hf s c Hc. unfold callStore_. specialize (Hf (stores s) c Hc).
  by destruct (f (stores s)) as [[e|] σ].
Qed.

Lemma keepsHas_run {A} (m : M Σ A) s r s' t c :
  keepsHas has m → m s = (r, s', t) → has (stores s) c → has (stores s') c.
Proof. intros Hm Hrun Hc. specialize (Hm s c Hc). by rewrite Hrun in Hm. Qed.
End KeepsHas.

Section Lookup.
Context {Σ : Type} (E : Env Σ).
Implicit Types s : State Σ.

(** The step that resolves one layer: the store is asked first, for the
    chain identity of the root file system extended with the diff
    identity; a hit is the answer and nothing else happens; on a miss the
    step goes on as [loadLayer] on the blob. *)
Lemma resolveLayer_run layerPath rootFS diffID po s :
  resolveLayer E layerPath rootFS diffID po s =
  let c := CreateChainID E (DiffIDs rootFS ++ [diffID]) in
  match ls_Get E (stores s) c with
  | (inr l, σ) => (Ok l, setStores s σ, [EvLsGet c (Some l)])
  | (inl _, σ) =>
      let x := loadLayer E layerPath rootFS diffID po (setStores s σ) in
      (x.1.1, x.1.2, EvLsGet c None :: x.2)
  end.
Proof.
  unfold resolveLayer, catch, lsGet, callStore. rewrite bind_run. cbn.
  destruct (ls_Get E (stores s) _) as [[e|l] σ]; [|done].
  by destruct (loadLayer E _ _ _ _ _) as [[r1 s1] t1].
Qed.

(** [loadLayer] asks the store nothing and registers, if it gets that
    far, against the chain identity of the root file system it is
    given. *)
Lemma loadLayer_trace filename rootFS id po s :
  let t := (loadLayer E filename rootFS id po s).2 in
  lookups t = []
  ∧ Forall (λ p, p = CreateChainID E (DiffIDs rootFS)) (registerParents t).
Proof.
  unfold loadLayer, osOpen, osStat, lsRegister, callStore. msimpl.
  destruct (os_Open E filename) as [e|rawTar]; msimpl; [done|].
  destruct (archive_DecompressStream E rawTar) as [e|data]; msimpl; [done|].
  destruct po; msimpl.
  - destruct (os_Stat E filename) as [e|n]; msimpl; [done|].
    destruct (ls_Register E (stores s) data _) as [[e|l'] σ]; cbn;
      split; try done; by repeat constructor.
  - destruct (ls_Register E (stores s) data _) as [[e|l'] σ]; cbn;
      split; try done; by repeat constructor.
Qed.

(** A successful [loadLayer] has registered the inflated blob against the
    chain identity of the root file system, and its handle is what
    [Register] returned. *)
Lemma loadLayer_Ok_store filename rootFS id po s l s' t :
  loadLayer E filename rootFS id po s = (Ok l, s', t) →
  ∃ data,
    (ls_Register E (stores s) data (CreateChainID E (DiffIDs rootFS))).1
      = inr l
    ∧ stores s'
      = (ls_Register E (stores s) data (CreateChainID E (DiffIDs rootFS))).2
    ∧ registeredChains t = [Layer_ChainID l].
Proof.
  unfold loadLayer, osOpen, osStat, lsRegister, callStore. msimpl.
  destruct (os_Open E filename) as [e|rawTar]; msimpl; [done|].
  destruct (archive_DecompressStream E rawTar) as [e|data]; msimpl; [done|].
  destruct po; msimpl.
  - destruct (os_Stat E filename) as [e|n]; msimpl; [done|].
    destruct (ls_Register E (stores s) data _) as [[e|l'] σ] eqn:Hreg;
      intros [= <- <- <-]. exists data. by rewrite Hreg.
  - destruct (ls_Register E (stores s) data _) as [[e|l'] σ] eqn:Hreg;
      intros [= <- <- <-]. exists data. by rewrite Hreg.
Qed.

Lemma resolveLayer_lookups layerPath rootFS diffID po s :
  lookups (resolveLayer E layerPath rootFS diffID po s).2
  = [CreateChainID E (DiffIDs rootFS ++ [diffID])].
Proof.
  rewrite resolveLayer_run. cbn zeta.
  destruct (ls_Get E (stores s) _) as [[e|l] σ]; [|done].
  cbn. unfold lookups. cbn.
  pose proof (loadLayer_trace layerPath rootFS diffID po (setStores s σ))
    as [Hl _].
  unfold lookups in Hl. by rewrite Hl.
Qed.

(** The chain identity looked up at position [k] of the layer loop is that
    of the root file system the loop started with, extended with the
    first [k + 1] diff identities. *)
Lemma loadLayers_lookups tmpDir po m ds :
  ∀ i rootFS s k c,
    lookups (loadLayers E tmpDir po m i ds rootFS s).2 !! k = Some c →
    c = CreateChainID E (DiffIDs rootFS ++ take (S k) ds).
Proof.
  induction ds as [|diffID rest IH]; intros i rootFS s k c Hk; [done|].
  rewrite loadLayers_cons in Hk.
  destruct (Layers m !! i) as [layerFile|]; [|done].
  rewrite bind_run, safePath_run in Hk. cbn zeta in Hk.
  destruct (FollowSymlinkInScope E _ _) as [e|layerPath]; [done|].
  rewrite bind_run in Hk.
  pose proof (resolveLayer_lookups layerPath rootFS diffID po s) as Hres.
  destruct (resolveLayer E layerPath rootFS diffID po s) as [[r1 s1] t1].
  cbn [snd] in Hres.
  destruct r1 as [newLayer|e|msg|]; cbn in Hk;
    try (unfold lookups in *; cbn in Hk; rewrite Hres in Hk;
         destruct k; by inversion Hk).
  rewrite bind_run in Hk. cbn in Hk.
  destruct (decide (diffID ≠ Layer_DiffID newLayer)) as [Hneq|Heq].
  - cbn in Hk. rewrite app_nil_r in Hk. unfold lookups in *. cbn in Hk.
    rewrite Hres in Hk. destruct k; by inversion Hk.
  - specialize (IH (S i) (RootFS_Append rootFS diffID)
                   (mkState (stores s1) (loadedMap s1)
                            (newLayer :: deferred s1))).
    destruct (loadLayers E tmpDir po m (S i) rest _ _) as [[r2 s2] t2].
    cbn in Hk, IH. unfold lookups in *. cbn in Hk.
    rewrite omap_app, Hres in Hk. destruct k as [|k].
    + by inversion Hk.
    + cbn in Hk. rewrite (IH k c Hk), <- app_assoc. done.
Qed.
End Lookup.

Section Once.
Context {Σ : Type} (E : Env Σ) (has : Σ → ChainID → Prop).
Context (Hlaws : LayerStoreLaws E has).
Implicit Types s : State Σ.

Lemma setLoadedTag_keepsHas ref imgID : keepsHas has (setLoadedTag E ref imgID).
Proof using Hlaws.
  unfold setLoadedTag. apply keepsHas_bind.
  { apply keepsHas_catch, keepsHas_queryStore. }
  intros prev. apply keepsHas_bind.
  - destruct prev as [e|prevID]; [apply keepsHas_ret|].
    destruct (decide (prevID ≠ imgID));
      [apply keepsHas_emit|apply keepsHas_ret].
  - intros _. apply keepsHas_callStore_. intros σ c.
    apply (law_AddTag_keeps E has Hlaws).
Qed.

Lemma loadRepoTags_keepsHas imgID repoTags :
  keepsHas has (loadRepoTags E imgID repoTags).
Proof using Hlaws.
  induction repoTags as [|repoTag rest IH]; [apply keepsHas_ret|].
  cbn [loadRepoTags]. apply keepsHas_bind; [apply keepsHas_liftE|].
  intros named. destruct (asNamedTagged named) as [ref|];
    [|apply keepsHas_throw].
  apply keepsHas_bind.
  { unfold discard. eapply keepsHas_bind.
    - apply keepsHas_catch, setLoadedTag_keepsHas.
    - intros _. apply keepsHas_ret. }
  intros _. apply keepsHas_bind; [apply keepsHas_emit|]. by intros _.
Qed.

(** The layer loop keeps the chains registered so far apart and held. *)
Lemma loadLayers_once tmpDir po m ds :
  ∀ i rootFS s rf s' t R0,
    loadLayers E tmpDir po m i ds rootFS s = (Ok rf, s', t) →
    NoDup R0 → (∀ c, c ∈ R0 → has (stores s) c) →
    NoDup (R0 ++ registeredChains t)
    ∧ ∀ c, c ∈ R0 ++ registeredChains t → has (stores s') c.
Proof using Hlaws.
  induction ds as [|diffID rest IH]; intros i rootFS s rf s' t R0 Hrun Hnd Hheld.
  { inversion Hrun; subst. cbn. by rewrite app_nil_r. }
  rewrite loadLayers_cons in Hrun.
  destruct (Layers m !! i) as [layerFile|]; [|done].
  minv Hrun as layerPath s1 t1 t2 Hpath | r1 Hr; [|by destruct r1].
  rewrite safePath_run in Hpath. cbn zeta in Hpath.
  destruct (FollowSymlinkInScope E _ _) as [e|layerPath']; [done|].
  inversion Hpath; subst; clear Hpath.
  minv Hrun as newLayer s2 t3 t4 Hres | r1 Hr; [|by destruct r1].
  minv Hrun as u s3 t5 t6 Hdefer | r1 Hr; [|by destruct r1].
  inversion Hdefer; subst; clear Hdefer.
  destruct (decide (diffID ≠ Layer_DiffID newLayer)) as [Hneq|Heq]; [done|].
  apply dec_stable in Heq.
  assert (NoDup (R0 ++ registeredChains t3)
          ∧ (∀ c, c ∈ R0 ++ registeredChains t3 → has (stores s2) c))
    as [Hnd3 Hheld3].
  { rewrite resolveLayer_run in Hres. cbn zeta in Hres.
    destruct (ls_Get E (stores s1) _) as [[e|l] σ] eqn:Hget.
    - destruct (loadLayer E layerPath rootFS diffID po (setStores s1 σ))
        as [[r3 s3] t7] eqn:Hload.
      cbn in Hres. inversion Hres; subst; clear Hres.
      apply loadLayer_Ok_store in Hload as (data & Hreg & Hst & Hchains).
      cbn [setStores stores] in Hreg, Hst.
      assert (σ = (ls_Get E (stores s1)
                     (CreateChainID E (DiffIDs rootFS ++ [Layer_DiffID newLayer]))).2)
        as Hσ by (by rewrite Hget).
      assert (Hheldσ : ∀ c, c ∈ R0 → has σ c).
      { intros c Hc. rewrite Hσ. apply (law_Get_keeps E has Hlaws).
        by apply Hheld. }
      pose proof (law_Register_chain E has Hlaws _ _ _ _ Hreg) as Hchain.
      pose proof (law_Register_has E has Hlaws _ _ _ _ Hreg) as Hhas.
      assert (Layer_ChainID newLayer ∉ R0) as Hfresh.
      { intros Hin. rewrite Hchain in Hin.
        destruct (law_Get_found E has Hlaws _ _ (Hheld _ Hin)) as [l Hl].
        rewrite Hget in Hl. done. }
      change (registeredChains (EvLsGet ?c None :: t7))
        with (registeredChains t7).
      rewrite Hchains, Hst. split.
      + apply NoDup_app. split; [done|]. split; [|apply NoDup_singleton].
        intros c Hc ->%list_elem_of_singleton. done.
      + intros c [Hc| ->%list_elem_of_singleton]%elem_of_app; [|done].
        apply (law_Register_keeps E has Hlaws). by apply Hheldσ.
    - inversion Hres; subst; clear Hres. cbn. rewrite app_nil_r.
      split; [done|]. intros c Hc.
      replace σ with (ls_Get E (stores s1)
                        (CreateChainID E (DiffIDs rootFS ++ [Layer_DiffID newLayer]))).2
        by (by rewrite Hget).
      apply (law_Get_keeps E has Hlaws). by apply Hheld. }
  destruct (IH _ _ _ _ _ _ _ Hrun Hnd3 Hheld3) as [Hnd' Hheld'].
  cbn [app]. change (registeredChains (EvFollowSymlink ?p ?b ?r :: ?t))
    with (registeredChains t).
  rewrite !registeredChains_app. cbn [registeredChains omap app].
  by rewrite !app_assoc in *.
Qed.

Lemma loadManifestItem_once tmpDir po m s s' t R0 :
  loadManifestItem E tmpDir po m s = (Ok tt, s', t) →
  NoDup R0 → (∀ c, c ∈ R0 → has (stores s) c) →
  NoDup (R0 ++ registeredChains t)
  ∧ ∀ c, c ∈ R0 ++ registeredChains t → has (stores s') c.
Proof using Hlaws.
  intros Hrun Hnd Hheld. unfold loadManifestItem in Hrun.
  minv Hrun as configPath s1 t1 t2 Hpath | r1 Hr; [|by destruct r1].
  rewrite safePath_run in Hpath. cbn zeta in Hpath.
  destruct (FollowSymlinkInScope E _ _) as [e|configPath']; [done|].
  inversion Hpath; subst; clear Hpath.
  minv Hrun as config s2 t3 t4 Hread | r1 Hr; [|by destruct r1].
  rewrite ioutil_ReadFile_run in Hread.
  destruct (os_Open E configPath) as [e|config']; [done|].
  inversion Hread; subst; clear Hread.
  minv Hrun as img s3 t5 t6 Himg | r1 Hr; [|by destruct r1].
  destruct (image_NewFromJSON E config) as [e|img'];
    inversion Himg; subst; clear Himg.
  cbn zeta in Hrun.
  destruct (decide (length (Layers m) ≠ _)) as [Hlen|Hlen]; [done|].
  minv Hrun as rootFS s4 t7 t8 Hloop | r1 Hr; [|by destruct r1].
  destruct (loadLayers_once _ _ _ _ _ _ _ _ _ _ _ Hloop Hnd Hheld)
    as [Hnd7 Hheld7].
  assert (registeredChains t8 = []
          ∧ ∀ c, has (stores s4) c → has (stores s') c) as [Ht8 Hkeep].
  { split.
    - apply registeredChains_none. eapply emits_run; [|exact Hrun].
      apply emits_bind; [by emits_model|intros imgID].
      by apply loadRepoTags_emits.
    - intros c. eapply keepsHas_run; [|exact Hrun].
      apply keepsHas_bind.
      + apply keepsHas_callStore. intros σ c'.
        apply (law_Create_keeps E has Hlaws).
      + intros imgID. apply loadRepoTags_keepsHas. }
  cbn [app].
  change (registeredChains (EvFollowSymlink ?p ?b ?r :: EvOpen ?q :: ?t))
    with (registeredChains t).
  rewrite registeredChains_app, Ht8, !app_nil_r. split; [done|].
  intros c Hc. apply Hkeep. by apply Hheld7.
Qed.

Lemma loadManifests_once tmpDir po manifests :
  ∀ s s' t R0,
    loadManifests E tmpDir po manifests s = (Ok tt, s', t) →
    NoDup R0 → (∀ c, c ∈ R0 → has (stores s) c) →
    NoDup (R0 ++ registeredChains t)
    ∧ ∀ c, c ∈ R0 ++ registeredChains t → has (stores s') c.
Proof using Hlaws.
  induction manifests as [|m rest IH]; intros s s' t R0 Hrun Hnd Hheld.
  { inversion Hrun; subst. cbn. by rewrite app_nil_r. }
  cbn [loadManifests] in Hrun.
  minv Hrun as u s1 t1 t2 Hitem | r1 Hr; [|by destruct r1].
  destruct u.
  destruct (loadManifestItem_once _ _ _ _ _ _ _ Hitem Hnd Hheld)
    as [Hnd1 Hheld1].
  destruct (IH _ _ _ _ Hrun Hnd1 Hheld1) as [Hnd2 Hheld2].
  rewrite registeredChains_app. by rewrite !app_assoc in *.
Qed.

(** In a batch that [loadHelper] imports with success no chain identity
    is registered twice. *)
Lemma loadHelper_once tmpDir manifests po s s' t :
  loadHelper E tmpDir manifests po s = (Ok tt, s', t) →
  NoDup (registeredChains t).
Proof using Hlaws.
  unfold loadHelper, withDeferred.
  destruct (loadManifests E tmpDir po manifests _) as [[r1 s1] t1] eqn:Hbody.
  pose proof (emits_runDeferred E (λ ev, registeredChainBy ev = None)
                (deferred s1) (λ _, eq_refl) (stores s1)) as Hrel.
  destruct (runDeferred E (deferred s1) (stores s1)) as [σ2 t2].
  cbn [snd] in Hrel. apply registeredChains_none in Hrel.
  destruct r1 as [[]|e|msg|]; intros [= <- <-].
  rewrite registeredChains_app, Hrel, app_nil_r.
  destruct (loadManifests_once _ _ _ _ _ _ [] Hbody) as [Hnd _].
  - constructor.
  - intros c Hc. by apply elem_of_nil in Hc.
  - done.
Qed.
End Once.

Lemma registerParents_Forall (Q : ChainID → Prop) (t : list event) :
  Forall (λ ev, ∀ p, registerParentBy ev = Some p → Q p) t →
  Forall Q (registerParents t).
Proof.
  induction 1 as [|ev t Hev _ IH]; [constructor|].
  unfold registerParents in *. cbn.
  destruct (registerParentBy ev) as [p|]; [|done].
  constructor; [by apply Hev|done].
Qed.

Section LegacyLookup.
Context {Σ : Type} (E : Env Σ).
Implicit Types s : State Σ.

Lemma waitParent_emits (Q : event → Prop) (load : string → M Σ unit) k parent :
  (∀ p, emits Q (load p)) → emits Q (waitParent load k parent).
Proof.
  intros Hload. induction k as [|k IH]; [apply emits_outOfFuel|].
  cbn [waitParent]. apply emits_bind; [apply emits_getState|].
  intros s0. destruct (loadedMap s0 !! parent); [apply emits_ret|].
  apply emits_bind; [apply Hload|]. by intros _.
Qed.

(** The legacy adapter never asks the layer store for a chain
    identity. *)
Lemma legacyLoadImage_no_lookup n :
  ∀ oldID sourceDir po,
    emits (λ ev, lookupBy ev = None)
          (legacyLoadImage E n oldID sourceDir po).
Proof.
  induction n as [|n IH]; intros oldID sourceDir po; [apply emits_outOfFuel|].
  rewrite legacyLoadImage_S. apply emits_bind; [apply emits_getState|].
  intros s0. destruct (decide _); [apply emits_ret|].
  apply emits_bind; [by emits_model|]. intros configPath.
  apply emits_bind; [by emits_model|]. intros imageJSON.
  apply emits_bind; [by emits_model|]. intros parent.
  apply emits_bind.
  { destruct (decide _); [|apply emits_ret].
    apply waitParent_emits. intros p. apply IH. }
  intros parentID. unfold legacyAssemble. emits_model.
Qed.

Lemma legacyLoadDirs_no_lookup n dirs sourceDir po :
  emits (λ ev, lookupBy ev = None) (legacyLoadDirs E n dirs sourceDir po).
Proof.
  induction dirs as [|d rest IH]; [apply emits_ret|].
  cbn [legacyLoadDirs]. apply emits_bind; [|by intros _].
  destruct (IsDir d); [apply legacyLoadImage_no_lookup|apply emits_ret].
Qed.

Lemma legacyLoadTags_no_lookup name tagMap :
  emits (Σ:=Σ) (λ ev, lookupBy ev = None) (legacyLoadTags E name tagMap).
Proof.
  induction tagMap as [|[tag oldID] rest IH]; [apply emits_ret|].
  cbn [legacyLoadTags]. emits_model.
Qed.

Lemma legacyLoadRepositories_no_lookup repositories :
  emits (Σ:=Σ) (λ ev, lookupBy ev = None)
        (legacyLoadRepositories E repositories).
Proof.
  induction repositories as [|[name tagMap] rest IH]; [apply emits_ret|].
  cbn [legacyLoadRepositories]. apply emits_bind; [|by intros _].
  apply legacyLoadTags_no_lookup.
Qed.

Lemma legacyLoad_no_lookup n tmpDir po :
  emits (λ ev, lookupBy ev = None) (legacyLoad E n tmpDir po).
Proof.
  unfold legacyLoad. apply emits_bind; [apply emits_makeLoadedMap|].
  intros _. apply emits_bind; [by emits_model|]. intros dirs.
  apply emits_bind; [apply legacyLoadDirs_no_lookup|]. intros _.
  apply emits_bind; [by emits_model|]. intros repositoriesPath.
  apply emits_bind; [by emits_model|]. intros [err|content].
  - destruct (negb _); by emits_model.
  - apply emits_bind; [by emits_model|]. intros repositories.
    apply legacyLoadRepositories_no_lookup.
Qed.

(** The assembly of a legacy image registers against the chain identity
    of the root file system inherited from the parent, without a lookup. *)
Lemma legacyAssemble_registers oldID sourceDir po imageJSON parentID s r s' t :
  legacyAssemble E oldID sourceDir po imageJSON parentID s = (r, s', t) →
  lookups t = []
  ∧ Forall (λ p, p = CreateChainID E
                       (DiffIDs (inheritedRootFS E s parentID)))
           (registerParents t).
Proof.
  intros Hrun. split.
  { apply lookups_none. eapply emits_run; [|exact Hrun].
    unfold legacyAssemble. emits_model. }
  unfold legacyAssemble in Hrun.
  minv Hrun as base s1 t1 t2 Hbase | r1 Hr.
  - assert (registerParents t1 = []
            ∧ base.1 = inheritedRootFS E s parentID) as [Ht1 Hb].
    { unfold inheritedRootFS. destruct (decide (parentID ≠ "")).
      - unfold isGet, queryStore in Hbase. rewrite bind_run in Hbase.
        destruct (is_Get E (stores s) parentID) as [e|img];
          by inversion Hbase.
      - by inversion Hbase. }
    rewrite registerParents_app, Ht1. cbn [app]. rewrite <- Hb.
    apply registerParents_Forall. eapply emits_run; [|exact Hrun].
    emits_model; by intros p [= <-].
  - assert (registerParents t = []) as ->; [|constructor].
    destruct (decide (parentID ≠ "")); [|by inversion Hrun].
    unfold isGet, queryStore in Hrun. rewrite bind_run in Hrun.
    destruct (is_Get E (stores s) parentID) as [e|img]; by inversion Hrun.
Qed.
End LegacyLookup.

Section LookupBeforeRegister.
Context {Σ : Type} (E : Env Σ).

(** C6 (amended): in the structured and OCI path every round of the layer
    loop resolves its layer by the step [resolveLayer] on the root file
    system built so far and goes on with that root file system extended by
    the diff identity.  The step first asks the store for the chain
    identity of the root file system extended with the diff identity; a
    hit is returned as it is, with no open, no decompression and no
    registration; only on a miss it goes on as [loadLayer], which asks the
    store nothing and registers against the chain identity of the root
    file system it was given.  The chain identity looked up at a position
    is that of the declared diff identities up to this position, so two
    sequences with a common prefix are looked up under the same chain
    identities on it; and with a layer store that finds what it holds and
    keeps it while the batch runs, no chain identity is registered twice
    in a batch that [loadHelper] imports with success.  The legacy path
    does not follow this discipline: [legacyLoad] and [legacyLoadImage]
    never ask the store for a chain identity; once the parent is resolved
    the image is assembled by [legacyAssemble], which registers the
    inflated layer blob of the image, against the chain identity of the
    root file system inherited from the parent. *)
Theorem lookup_before_register_structured_only :
  (∀ tmpDir po m i diffID rest rootFS,
     loadLayers E tmpDir po m i (diffID :: rest) rootFS =
     match Layers m !! i with
     | None => panic "index out of range"
     | Some layerFile =>
         layerPath ← safePath E tmpDir layerFile;
         newLayer ← resolveLayer E layerPath rootFS diffID po;
         defer_ReleaseAndLog newLayer;;
         if decide (diffID ≠ Layer_DiffID newLayer) then
           throw (ErrInvalidDiffID i diffID (Layer_DiffID newLayer))
         else
           loadLayers E tmpDir po m (S i) rest (RootFS_Append rootFS diffID)
     end)
  ∧ (∀ layerPath rootFS diffID po (s : State Σ),
       resolveLayer E layerPath rootFS diffID po s =
       let c := CreateChainID E (DiffIDs rootFS ++ [diffID]) in
       match ls_Get E (stores s) c with
       | (inr l, σ) => (Ok l, setStores s σ, [EvLsGet c (Some l)])
       | (inl _, σ) =>
           let x := loadLayer E layerPath rootFS diffID po (setStores s σ) in
           (x.1.1, x.1.2, EvLsGet c None :: x.2)
       end)
  ∧ (∀ filename rootFS id po (s : State Σ),
       let t := (loadLayer E filename rootFS id po s).2 in
       lookups t = []
       ∧ Forall (λ p, p = CreateChainID E (DiffIDs rootFS))
                (registerParents t))
  ∧ (∀ tmpDir1 tmpDir2 po1 po2 m1 m2 ds1 ds2 ty1 ty2 (s1 s2 : State Σ)
       n k c1 c2,
       take n ds1 = take n ds2 → k < n →
       lookups (loadLayers E tmpDir1 po1 m1 0 ds1 (mkRootFS ty1 []) s1).2 !! k
         = Some c1 →
       lookups (loadLayers E tmpDir2 po2 m2 0 ds2 (mkRootFS ty2 []) s2).2 !! k
         = Some c2 →
       c1 = c2 ∧ c1 = CreateChainID E (take (S k) ds1))
  ∧ (∀ has, LayerStoreLaws E has →
       ∀ tmpDir manifests po (s s' : State Σ) t,
         loadHelper E tmpDir manifests po s = (Ok tt, s', t) →
         NoDup (registeredChains t))
  ∧ (∀ fuel tmpDir po (s : State Σ),
       lookups (legacyLoad E fuel tmpDir po s).2 = [])
  ∧ (∀ fuel oldID sourceDir po (s : State Σ),
       lookups (legacyLoadImage E fuel oldID sourceDir po s).2 = [])
  ∧ (∀ n oldID sourceDir po,
       legacyLoadImage E (S n) oldID sourceDir po =
       (s ← getState;
        if decide (is_Some (loadedMap s !! oldID)) then ret tt
        else
          configPath ← safePath E sourceDir
                         (filepath_Join E [oldID; legacyConfigFileName E]);
          imageJSON ← ioutil_ReadFile E configPath;
          parent ← liftE (unmarshalParent E imageJSON);
          parentID ← (if decide (parent ≠ "") then
                        waitParent (λ p, legacyLoadImage E n p sourceDir po)
                                   n parent
                      else ret "");
          legacyAssemble E oldID sourceDir po imageJSON parentID))
  ∧ (∀ oldID sourceDir po imageJSON parentID (s : State Σ) r s' t,
       legacyAssemble E oldID sourceDir po imageJSON parentID s = (r, s', t) →
       Forall (λ p, p = CreateChainID E
                            (DiffIDs (inheritedRootFS E s parentID)))
              (registerParents t)
       ∧ (r = Ok tt →
          ∃ data, legacyLayerData E sourceDir oldID = Some data
                  ∧ registered t = [data])).
Proof.
  split; [apply loadLayers_cons|].
  split; [apply resolveLayer_run|].
  split; [apply loadLayer_trace|].
  split.
  { intros tmpDir1 tmpDir2 po1 po2 m1 m2 ds1 ds2 ty1 ty2 s1 s2 n k c1 c2
           Hpre Hk H1 H2.
    apply loadLayers_lookups in H1, H2. cbn in H1, H2. subst c1 c2.
    split; [|done]. f_equal.
    replace (S k) with (S k `min` n) by lia.
    by rewrite <- !take_take, Hpre. }
  split; [intros has Hlaws tmpDir manifests po s s' t;
          by apply (loadHelper_once E has Hlaws)|].
  split.
  { intros fuel tmpDir po s. apply lookups_none.
    apply (legacyLoad_no_lookup E fuel tmpDir po s). }
  split.
  { intros fuel oldID sourceDir po s. apply lookups_none.
    apply (legacyLoadImage_no_lookup E fuel oldID sourceDir po s). }
  split; [apply legacyLoadImage_S|].
  intros oldID sourceDir po imageJSON parentID s r s' t Hrun. split.
  - by destruct (legacyAssemble_registers E _ _ _ _ _ _ _ _ _ Hrun).
  - intros ->. apply legacyAssemble_Ok in Hrun
      as (data & imgID & Hdata & Hreg & _). by exists data.
Qed.
End LookupBeforeRegister.

Section LookupExamples.
Import Sample Worlds.

(** The sample layer store finds what it holds and keeps it. *)
Lemma sample_store_laws (w : World) :
  LayerStoreLaws (env w) (λ σ c, is_Some (st_layers σ !! c)).
Proof.
  split; cbn.
  - intros σ c [l Hl]. rewrite Hl. by exists l.
  - intros σ c c' Hc'. by destruct (st_layers σ !! c).
  - intros σ data p l [= <-]. cbn. rewrite lookup_insert_eq. by eexists.
  - intros σ data p c' Hc'. cbn. apply lookup_insert_is_Some.
    destruct (decide (chain p data = c')); [by left|by right].
  - intros σ data pre l [= <-]. cbn. unfold createChainID.
    by rewrite foldl_app.
  - intros σ config c Hc. by destruct (failCreate w).
  - intros σ ref id force c Hc. by destruct (failAddTag w).
Qed.

(** The claim as stated fails on the legacy path: with a store that holds
    the layer of [P] already, [legacyLoadImage] looks nothing up and
    registers the layer again. *)
Lemma legacy_path_registers_without_lookup :
  let x := legacyLoadImage (env legacy) 1 "P" "/tmp" true startWithP in
  (ls_Get (env legacy) (stores startWithP) "dataP").1 = inr layerP
  ∧ x.1.1 = Ok tt
  ∧ lookups x.2 = []
  ∧ registeredChains x.2 = ["dataP"]
  ∧ ¬ lookupBeforeRegister x.2.
Proof.
  vm_compute. repeat split; done.
Qed.

(** Two images that share the layer [d1]: it is registered once. *)
Lemma lookup_before_register_structured_only_witness :
  let x := loadHelper (env sharedPrefix) "/tmp" [item1; item2] true start in
  x.1.1 = Ok tt ∧ NoDup (registeredChains x.2).
Proof.
  intros x. split; [vm_compute; reflexivity|].
  destruct (lookup_before_register_structured_only (env sharedPrefix))
    as (_ & _ & _ & _ & Honce & _).
  apply (Honce _ (sample_store_laws sharedPrefix) "/tmp" [item1; item2] true
           start x.1.2 x.2).
  vm_compute. reflexivity.
Defined.
End LookupExamples.

(** ** The departures, for every collaborator *)

Section DefectsInGeneral.
Context {Σ : Type} (E : Env Σ).
Implicit Types s : State Σ.

(** [return f.Close()] on the nil file of a failed open. *)
Lemma returnClose_nil s : returnClose None s = (Err ErrInvalid, s, []).
Proof. reflexivity. Qed.

(** Whatever the reason the [oci-layout] marker cannot be opened, [Load]
    goes on to the manifest file; when that file cannot be opened for
    another reason than absence, [Load] returns [os.ErrInvalid]. *)
Lemma Load_manifest_open_failure fuel inTar name refs s tmpDir ociLayoutPath
    e1 manifestPath e2 :
  ioutil_TempDir E = inr tmpDir →
  chrootarchive_Untar E inTar tmpDir = None →
  FollowSymlinkInScope E (filepath_Join E [tmpDir; "oci-layout"]) tmpDir
    = inr ociLayoutPath →
  os_Open E ociLayoutPath = inl e1 →
  FollowSymlinkInScope E (filepath_Join E [tmpDir; manifestFileName E]) tmpDir
    = inr manifestPath →
  os_Open E manifestPath = inl e2 →
  os_IsNotExist e2 = false →
  (Load E fuel inTar name refs s).1.1 = Err ErrInvalid.
Proof.
  intros Htmp Huntar Hoci Hopen1 Hman Hopen2 Hne.
  unfold Load, withRemoveAll, safePath, osOpen, catch, returnClose.
  msimpl. rewrite Htmp. msimpl. rewrite Huntar. msimpl.
  rewrite Hoci. msimpl. rewrite Hopen1. msimpl.
  rewrite Hman. msimpl. rewrite Hopen2. msimpl.
  by rewrite Hne.
Qed.

(** When the directories are loaded and the repositories file is absent,
    [legacyLoad] returns [os.ErrInvalid]. *)
Lemma legacyLoad_absent_repositories fuel tmpDir po s dirs s1 t1
    repositoriesPath e :
  ioutil_ReadDir E tmpDir = inr dirs →
  legacyLoadDirs E fuel dirs tmpDir po (mkState (stores s) ∅ (deferred s))
    = (Ok tt, s1, t1) →
  FollowSymlinkInScope E
    (filepath_Join E [tmpDir; legacyRepositoriesFileName E]) tmpDir
    = inr repositoriesPath →
  os_Open E repositoriesPath = inl e →
  os_IsNotExist e = true →
  (legacyLoad E fuel tmpDir po s).1.1 = Err ErrInvalid.
Proof.
  intros Hdirs Hloop Hpath Hopen Habsent.
  unfold legacyLoad, makeLoadedMap, safePath, osOpen, catch, returnClose.
  msimpl. rewrite Hdirs. msimpl. rewrite Hloop.
  rewrite Hpath. msimpl. rewrite Hopen. msimpl.
  by rewrite Habsent.
Qed.

Lemma lands_setLoadedTag ref imgID s :
  lands (setLoadedTag E ref imgID s) (λ _ _, True).
Proof.
  unfold setLoadedTag. eapply lands_bind with (Ψ := λ _ _, True).
  { unfold catch, rsGet, queryStore, lands.
    by destruct (rs_Get E (stores s) ref). }
  intros prev s1 _. eapply lands_bind with (Ψ := λ _ _, True).
  - destruct prev as [e|prevID]; [done|]. by destruct (decide _).
  - intros _ s2 _. apply lands_callStore_.
Qed.

(** The tags loop of [loadHelper] returns no error whatever [AddTag]
    does, as long as every repository tag parses to a tagged name. *)
Lemma loadRepoTags_ignores_AddTag imgID repoTags :
  Forall (λ repoTag, ∃ named ref,
            reference_ParseNamed E repoTag = inr named
            ∧ asNamedTagged named = Some ref) repoTags →
  ∀ s, (loadRepoTags E imgID repoTags s).1.1 = Ok tt.
Proof.
  induction 1 as [|repoTag rest (named & ref & Hparse & Htagged) _ IH];
    intros s; [done|].
  assert (∃ s1 t1, discard (setLoadedTag E ref imgID) s = (Ok tt, s1, t1))
    as (s1 & t1 & Hdiscard).
  { unfold discard, catch, bind.
    pose proof (lands_setLoadedTag ref imgID s) as Hl. unfold lands in Hl.
    destruct (setLoadedTag E ref imgID s) as [[[[]|e|msg|] s1] t1];
      cbn in Hl; try done; by eexists _, _. }
  cbn [loadRepoTags]. rewrite bind_run, Hparse. cbn [liftE ret].
  cbn beta iota. rewrite Htagged. rewrite bind_run, Hdiscard.
  rewrite bind_run. cbn [write emit]. specialize (IH s1).
  by destruct (loadRepoTags E imgID rest s1) as [[r2 s2] t2].
Qed.

(** With a name and no reference map, the first thing [ociLoad] does is to
    open [index.json] at the joined path. *)
Lemma ociLoad_first_open tmpDir name refs po s :
  name ≠ "" → size refs = 0 →
  ∃ t, (ociLoad E tmpDir name refs po s).2
       = EvOpen (filepath_Join E [tmpDir; "index.json"]) :: t.
Proof.
  intros Hname Hrefs. unfold ociLoad.
  rewrite decide_False by (intros [_ ?]; done).
  rewrite decide_False by (intros [? _]; done).
  rewrite bind_run, osOpen_run.
  destruct (os_Open E _) as [e|indexJSON]; [by eexists|].
  match goal with
  | |- context [mbind ?f ?m s] => destruct (mbind f m s) as [[r1 s1] t1]
  end.
  by eexists.
Qed.
End DefectsInGeneral.

(** ** Further properties of the importer *)

Section Answers.
Context {Σ : Type} (E : Env Σ).
Implicit Types s : State Σ.

Lemma answers_ret {A} (a : A) : answers (Σ:=Σ) (mret a).
Proof. by intros s. Qed.

Lemma answers_throw {A} e : answers (Σ:=Σ) (A:=A) (throw e).
Proof. by intros s. Qed.

Lemma answers_panic {A} msg : answers (Σ:=Σ) (A:=A) (panic msg).
Proof. by intros s. Qed.

Lemma answers_liftE {A} (r : error + A) : answers (Σ:=Σ) (liftE r).
Proof. intros s. by destruct r. Qed.

Lemma answers_emit ev : answers (Σ:=Σ) (emit ev).
Proof. by intros s. Qed.

Lemma answers_getState : answers (Σ:=Σ) getState.
Proof. by intros s. Qed.

Lemma answers_bind {A B} (m : M Σ A) (f : A → M Σ B) :
  answers m → (∀ a, answers (f a)) → answers (m ≫= f).
Proof.
  intros Hm Hf s. rewrite bind_run. specialize (Hm s).
  destruct (m s) as [[[a|e|msg|] s1] t1]; cbn in *; try done.
  specialize (Hf a s1). by destruct (f a s1) as [[r2 s2] t2].
Qed.

Lemma answers_catch {A} (m : M Σ A) : answers m → answers (catch m).
Proof.
  intros Hm s. unfold catch. specialize (Hm s).
  by destruct (m s) as [[[a|e|msg|] s1] t1].
Qed.

Lemma answers_discard {A} (m : M Σ A) : answers m → answers (discard m).
Proof.
  intros Hm. apply answers_bind; [by apply answers_catch|].
  intros _. apply answers_ret.
Qed.

Lemma answers_callStore {A} (f : Σ → (error + A) * Σ) ev :
  answers (callStore f ev).
Proof. intros s. unfold callStore. by destruct (f (stores s)) as [[e|a] σ]. Qed.

Lemma answers_callStore_ (f : Σ → option error * Σ) ev :
  answers (callStore_ f ev).
Proof. intros s. unfold callStore_. by destruct (f (stores s)) as [[e|] σ]. Qed.

Lemma answers_queryStore {A} (f : Σ → error + A) ev :
  answers (queryStore f ev).
Proof. intros s. unfold queryStore. by destruct (f (stores s)) as [e|a]. Qed.

Lemma answers_defer l : answers (Σ:=Σ) (defer_ReleaseAndLog l).
Proof. by intros s. Qed.

Lemma answers_withDeferred {A} (m : M Σ A) :
  answers m → answers (withDeferred E m).
Proof.
  intros Hm s. unfold withDeferred.
  specialize (Hm (mkState (stores s) (loadedMap s) [])).
  destruct (m _) as [[r1 s1] t1]. cbn in Hm.
  destruct (runDeferred E (deferred s1) (stores s1)) as [σ2 t2].
  by destruct r1.
Qed.
End Answers.

Ltac answers_step :=
  lazymatch goal with
  | |- answers (mbind _ _) => apply answers_bind; [|intros ?]
  | |- answers (mret _) => apply answers_ret
  | |- answers (ret _) => apply answers_ret
  | |- answers (throw _) => apply answers_throw
  | |- answers (panic _) => apply answers_panic
  | |- answers (liftE _) => apply answers_liftE
  | |- answers (emit _) => apply answers_emit
  | |- answers getState => apply answers_getState
  | |- answers (catch _) => apply answers_catch
  | |- answers (discard _) => apply answers_discard
  | |- answers (callStore _ _) => apply answers_callStore
  | |- answers (callStore_ _ _) => apply answers_callStore_
  | |- answers (queryStore _ _) => apply answers_queryStore
  | |- answers (defer_ReleaseAndLog _) => apply answers_defer
  | |- answers (match ?x with _ => _ end) => destruct x
  end.

Ltac answers_model :=
  unfold resolveLayer, loadLayer, setLoadedTag, safePath, osOpen,
    ioutil_ReadFile, osStat, write, lsGet, lsRegister, lsRelease, isCreate,
    isGet, isSetParent, rsGet, rsAddTag, returnClose, blobPath, ociTag;
  repeat answers_step.

Section AnswersOfTheImporter.
Context {Σ : Type} (E : Env Σ).
Implicit Types s : State Σ.

Lemma loadLayers_answers tmpDir po m ds :
  ∀ i rootFS, answers (loadLayers E tmpDir po m i ds rootFS).
Proof.
  induction ds as [|diffID rest IH]; intros i rootFS; [apply answers_ret|].
  cbn [loadLayers]. answers_model. apply IH.
Qed.

Lemma loadRepoTags_answers imgID repoTags :
  answers (loadRepoTags E imgID repoTags).
Proof.
  induction repoTags as [|repoTag rest IH]; [apply answers_ret|].
  cbn [loadRepoTags]. answers_model. apply IH.
Qed.

Lemma loadManifests_answers tmpDir po manifests :
  answers (loadManifests E tmpDir po manifests).
Proof.
  induction manifests as [|m rest IH]; [apply answers_ret|].
  cbn [loadManifests]. apply answers_bind; [|by intros _].
  unfold loadManifestItem. answers_model.
  - apply loadLayers_answers.
  - apply loadRepoTags_answers.
Qed.

Lemma loadHelper_answers tmpDir manifests po :
  answers (loadHelper E tmpDir manifests po).
Proof. apply answers_withDeferred, loadManifests_answers. Qed.

Lemma ociLayers_answers ls : answers (ociLayers E ls).
Proof.
  induction ls as [|l rest IH]; [apply answers_ret|].
  cbn [ociLayers]. answers_model. apply IH.
Qed.

Lemma ociManifests_answers tmpDir name refs mds :
  ∀ manifests, answers (ociManifests E tmpDir name refs mds manifests).
Proof.
  induction mds as [|md rest IH]; intros manifests; [apply answers_ret|].
  cbn [ociManifests]. destruct (decide _); [apply IH|].
  answers_model; try apply ociLayers_answers; apply IH.
Qed.

Lemma ociLoad_answers tmpDir name refs po :
  answers (ociLoad E tmpDir name refs po).
Proof.
  unfold ociLoad. answers_model.
  - apply ociManifests_answers.
  - apply loadHelper_answers.
Qed.
End AnswersOfTheImporter.

(** A trace all of whose opens are guarded, read by positions: every open
    is of a path that the guard has returned at an earlier position, or
    before the trace. *)
Lemma unguardedOpens_nil_inv (resolved : list string) (t : list event) :
  unguardedOpens resolved t = [] →
  ∀ i p, t !! i = Some (EvOpen p) →
    p ∈ resolved
    ∨ ∃ j path root, j < i ∧ t !! j = Some (EvFollowSymlink path root (inr p)).
Proof.
  revert resolved. induction t as [|ev t IH]; intros resolved Hnil i p Hi.
  { done. }
  destruct i as [|i].
  - cbn in Hi. inversion Hi; subst. cbn in Hnil.
    case_bool_decide; [by left|done].
  - cbn in Hi.
    assert (∃ resolved', unguardedOpens resolved' t = []
              ∧ ∀ q, q ∈ resolved' →
                     q ∈ resolved
                     ∨ ∃ path root, ev = EvFollowSymlink path root (inr q))
      as (resolved' & Hnil' & Hres).
    { destruct ev as [path root [e|q]| q | | | | | | | | | | | |];
        cbn in Hnil;
        try (exists resolved; split; [done|by left]).
      - exists (q :: resolved). split; [done|].
        intros q' [->|Hq']%elem_of_cons; [right; eauto|by left].
      - case_bool_decide; [|done].
        exists resolved. split; [done|by left]. }
    destruct (IH resolved' Hnil' i p Hi) as [Hp|(j & path & root & Hj & Hev)].
    + destruct (Hres p Hp) as [?|(path & root & ->)]; [by left|].
      right. exists 0, path, root. split; [lia|done].
    + right. exists (S j), path, root. split; [lia|done].
Qed.

(** The events of the three loaders below [Load]: calls of the guard are
    for paths joined under the extraction directory and scoped to it, and
    the directory is not removed. *)
Section EventsOfTheLoaders.
Context {Σ : Type} (E : Env Σ) (tmpDir : string) (Q : event → Prop).
Hypothesis HF : ∀ ev, guardOf E tmpDir ev → Q ev.
Hypothesis HQ :
  ∀ ev, isFollowSymlink_event ev = false → isRemoveAll_event ev = false → Q ev.

Local Ltac events_solve :=
  try first [ by apply HQ | apply HF; by eexists ].

Lemma loadLayers_events po m ds :
  ∀ i rootFS, emits Q (loadLayers E tmpDir po m i ds rootFS).
Proof using HF HQ.
  induction ds as [|diffID rest IH]; intros i rootFS; [apply emits_ret|].
  rewrite loadLayers_cons. emits_model; events_solve.
Qed.

Lemma loadManifests_events po manifests :
  emits Q (loadManifests E tmpDir po manifests).
Proof using HF HQ.
  induction manifests as [|m rest IH]; [apply emits_ret|].
  cbn [loadManifests]. apply emits_bind; [|by intros _].
  unfold loadManifestItem.
  apply emits_bind; [emits_model; events_solve|]. intros configPath.
  apply emits_bind; [emits_model; events_solve|]. intros config.
  apply emits_bind; [emits_model; events_solve|]. intros img.
  cbn zeta. destruct (decide _); [apply emits_throw|].
  apply emits_bind; [apply loadLayers_events|]. intros _.
  apply emits_bind; [emits_model; events_solve|]. intros imgID.
  apply loadRepoTags_emits; intros; by apply HQ.
Qed.

Lemma loadHelper_events manifests po :
  emits Q (loadHelper E tmpDir manifests po).
Proof using HF HQ.
  intros s. unfold loadHelper, withDeferred.
  pose proof (loadManifests_events po manifests
                (mkState (stores s) (loadedMap s) [])) as H1.
  destruct (loadManifests E tmpDir po manifests _) as [[r1 s1] t1].
  pose proof (emits_runDeferred E Q (deferred s1)
                (λ l, HQ (EvLsRelease l) eq_refl eq_refl) (stores s1)) as H2.
  destruct (runDeferred E (deferred s1) (stores s1)) as [σ2 t2].
  cbn [snd] in *. destruct r1; cbn [snd]; try done; by apply Forall_app.
Qed.

Lemma ociLayers_events ls : emits Q (ociLayers E ls).
Proof.
  induction ls as [|l rest IH]; [apply emits_ret|].
  cbn [ociLayers]. emits_model.
Qed.

Lemma ociManifests_events name refs mds :
  ∀ manifests, emits Q (ociManifests E tmpDir name refs mds manifests).
Proof using HQ.
  induction mds as [|md rest IH]; intros manifests; [apply emits_ret|].
  cbn [ociManifests]. destruct (decide _); [apply IH|].
  unfold ociTag. emits_model; events_solve;
    first [apply ociLayers_events | apply IH].
Qed.

Lemma ociLoad_events name refs po : emits Q (ociLoad E tmpDir name refs po).
Proof using HF HQ.
  unfold ociLoad. emits_model; events_solve.
  - apply ociManifests_events.
  - apply loadHelper_events.
Qed.

Lemma legacyLoadImage_events n :
  ∀ oldID po, emits Q (legacyLoadImage E n oldID tmpDir po).
Proof using HF HQ.
  induction n as [|n IH]; intros oldID po; [apply emits_outOfFuel|].
  rewrite legacyLoadImage_S. apply emits_bind; [apply emits_getState|].
  intros s0. destruct (decide _); [apply emits_ret|].
  apply emits_bind; [emits_model; events_solve|]. intros configPath.
  apply emits_bind; [emits_model; events_solve|]. intros imageJSON.
  apply emits_bind; [emits_model; events_solve|]. intros parent.
  apply emits_bind.
  { destruct (decide _); [|apply emits_ret].
    apply waitParent_emits. intros p. apply IH. }
  intros parentID. unfold legacyAssemble. emits_model; events_solve.
Qed.

Lemma legacyLoadDirs_events n dirs po :
  emits Q (legacyLoadDirs E n dirs tmpDir po).
Proof using HF HQ.
  induction dirs as [|d rest IH]; [apply emits_ret|].
  cbn [legacyLoadDirs]. apply emits_bind; [|by intros _].
  destruct (IsDir d); [apply legacyLoadImage_events|apply emits_ret].
Qed.

Lemma legacyLoadRepositories_events repositories :
  emits Q (legacyLoadRepositories E repositories).
Proof using HQ.
  induction repositories as [|[name tagMap] rest IH]; [apply emits_ret|].
  cbn [legacyLoadRepositories]. apply emits_bind; [|by intros _].
  clear IH. induction tagMap as [|[tag oldID] rest' IH]; [apply emits_ret|].
  cbn [legacyLoadTags]. emits_model; events_solve.
Qed.

Lemma legacyLoad_events n po : emits Q (legacyLoad E n tmpDir po).
Proof using HF HQ.
  unfold legacyLoad.
  apply emits_bind; [apply emits_makeLoadedMap|]. intros _.
  apply emits_bind; [emits_model; events_solve|]. intros dirs.
  apply emits_bind; [apply legacyLoadDirs_events|]. intros _.
  apply emits_bind; [emits_model; events_solve|]. intros repositoriesPath.
  apply emits_bind; [emits_model; events_solve|].
  intros [err|content].
  - destruct (negb _); emits_model.
  - apply emits_bind; [emits_model|]. intros repositories.
    apply legacyLoadRepositories_events.
Qed.
End EventsOfTheLoaders.

(** ** The structured loader and the dispatcher *)

Section StructuredAndDispatch.
Context {Σ : Type} (E : Env Σ).
Implicit Types s : State Σ.

Lemma Load_unfold fuel inTar name refs :
  Load E fuel inTar name refs =
  (tmpDir ← liftE (ioutil_TempDir E);
   withRemoveAll tmpDir (loadExtracted E fuel inTar name refs tmpDir)).
Proof. reflexivity. Qed.

Lemma runDeferred_trace ls :
  ∀ σ, (runDeferred E ls σ).2 = EvLsRelease <$> ls.
Proof.
  induction ls as [|l ls IH]; intros σ; [done|]. cbn [runDeferred].
  specialize (IH (ls_Release E σ l).2).
  destruct (runDeferred E ls _) as [σ' t]. cbn [snd] in *. by rewrite IH.
Qed.

Lemma loadManifests_no_release tmpDir po manifests :
  emits (λ ev, releasedBy ev = None) (loadManifests E tmpDir po manifests).
Proof.
  induction manifests as [|m rest IH]; [apply emits_ret|].
  cbn [loadManifests]. apply emits_bind; [|by intros _].
  unfold loadManifestItem. apply emits_bind; [by emits_model|].
  intros configPath. apply emits_bind; [by emits_model|].
  intros config. apply emits_bind; [by emits_model|]. intros img.
  cbn zeta. destruct (decide _); [apply emits_throw|].
  apply emits_bind; [by apply loadLayers_emits|]. intros _.
  apply emits_bind; [by emits_model|]. intros imgID.
  by apply loadRepoTags_emits.
Qed.

(** X1: [loadHelper] always comes to an answer, and whatever the answer
    (success, an error, or the panic on a missing layer entry) its trace
    is that of its loops, which release nothing, followed by one release
    for every handle the loops took from [Get] or [Register], the last
    taken first. *)
Theorem loadHelper_releases_at_exit tmpDir manifests po s :
  let x := loadHelper E tmpDir manifests po s in
  x.1.1 ≠ OutOfFuel
  ∧ ∃ body, x.2 = body ++ (EvLsRelease <$> rev (acquired body))
            ∧ released body = [].
Proof.
  cbn zeta. split; [apply loadHelper_answers|].
  unfold loadHelper, withDeferred.
  pose proof (loadManifests_defers E tmpDir po manifests
                (mkState (stores s) (loadedMap s) [])) as Hdef.
  pose proof (loadManifests_no_release tmpDir po manifests
                (mkState (stores s) (loadedMap s) [])) as Hrel.
  pose proof (loadManifests_answers E tmpDir po manifests
                (mkState (stores s) (loadedMap s) [])) as Hans.
  destruct (loadManifests E tmpDir po manifests _) as [[r1 s1] t1].
  cbn [fst snd] in Hdef, Hrel, Hans. rewrite app_nil_r in Hdef.
  pose proof (runDeferred_trace (deferred s1) (stores s1)) as Htr.
  destruct (runDeferred E (deferred s1) (stores s1)) as [σ2 t2].
  cbn [snd] in Htr. subst t2. rewrite Hdef.
  exists t1. split; [by destruct r1|]. by apply released_none.
Qed.

(** From a trace without unguarded opens, whose guard events are those of
    [safePath] under [tmpDir], to the positions of the trace. *)
Lemma guarded_positions tmpDir (t : list event) :
  unguardedOpens [] t = [] →
  Forall (λ ev, isFollowSymlink_event ev = true → guardOf E tmpDir ev) t →
  ∀ i p, t !! i = Some (EvOpen p) →
    ∃ j rel, j < i
      ∧ FollowSymlinkInScope E (filepath_Join E [tmpDir; rel]) tmpDir = inr p
      ∧ t !! j = Some (EvFollowSymlink (filepath_Join E [tmpDir; rel]) tmpDir
                         (inr p)).
Proof.
  intros Hnil Hall i p Hi.
  destruct (unguardedOpens_nil_inv [] t Hnil i p Hi)
    as [Hin|(j & path & root & Hj & Hev)].
  { by apply elem_of_nil in Hin. }
  rewrite Forall_lookup in Hall.
  destruct (Hall j _ Hev eq_refl) as (rel & Heq).
  inversion Heq as [[Hpath Hroot Hres]]. subst path root.
  exists j, rel. by rewrite <- Hres.
Qed.

Lemma guardOf_kind tmpDir (ev : event) :
  guardOf E tmpDir ev → isFollowSymlink_event ev = true → guardOf E tmpDir ev.
Proof. done. Qed.

Lemma other_kind tmpDir (ev : event) :
  isFollowSymlink_event ev = false → isRemoveAll_event ev = false →
  isFollowSymlink_event ev = true → guardOf E tmpDir ev.
Proof. by intros ->. Qed.

(** X2: every file [loadHelper] opens (a configuration or a layer blob)
    is at a path that [safePath], called for a path joined under the
    extraction directory and scoped to that directory, has returned
    earlier in the run. *)
Theorem loadHelper_opens_guarded_paths tmpDir manifests po s i p :
  (loadHelper E tmpDir manifests po s).2 !! i = Some (EvOpen p) →
  ∃ j rel, j < i
    ∧ FollowSymlinkInScope E (filepath_Join E [tmpDir; rel]) tmpDir = inr p
    ∧ (loadHelper E tmpDir manifests po s).2 !! j
      = Some (EvFollowSymlink (filepath_Join E [tmpDir; rel]) tmpDir (inr p)).
Proof.
  apply guarded_positions.
  - apply loadHelper_guards.
  - apply (loadHelper_events E tmpDir _ (guardOf_kind tmpDir)
             (other_kind tmpDir)).
Qed.

(** X3: every file the legacy loader opens (an image configuration, a
    layer archive or the repositories file) is at a path that [safePath],
    called for a path joined under the extraction directory and scoped to
    that directory, has returned earlier in the run; this holds for every
    bound on the recursion. *)
Theorem legacyLoad_opens_guarded_paths fuel tmpDir po s i p :
  (legacyLoad E fuel tmpDir po s).2 !! i = Some (EvOpen p) →
  ∃ j rel, j < i
    ∧ FollowSymlinkInScope E (filepath_Join E [tmpDir; rel]) tmpDir = inr p
    ∧ (legacyLoad E fuel tmpDir po s).2 !! j
      = Some (EvFollowSymlink (filepath_Join E [tmpDir; rel]) tmpDir (inr p)).
Proof.
  apply guarded_positions.
  - apply legacyLoad_guards.
  - apply (legacyLoad_events E tmpDir _ (guardOf_kind tmpDir)
             (other_kind tmpDir)).
Qed.

Lemma loadArchive_guards fuel tmpDir : guards (loadArchive E fuel tmpDir).
Proof.
  unfold loadArchive. apply guards_safePath. intros manifestPath.
  apply guardsWith_bind.
  { intros s resolved Hp. unfold catch. rewrite osOpen_run.
    destruct (os_Open E manifestPath); cbn;
      by rewrite bool_decide_eq_true_2. }
  intros [err|content]; apply guards_guardsWith.
  - destruct (os_IsNotExist err); [apply legacyLoad_guards|].
    apply guards_emits. by emits_model.
  - apply guards_bind; [apply guards_emits, emits_liftE|]. intros manifest.
    apply loadHelper_guards.
Qed.

Lemma loadArchive_events fuel tmpDir (Q : event → Prop) :
  (∀ ev, guardOf E tmpDir ev → Q ev) →
  (∀ ev, isFollowSymlink_event ev = false → isRemoveAll_event ev = false →
         Q ev) →
  emits Q (loadArchive E fuel tmpDir).
Proof.
  intros HF HQ. unfold loadArchive.
  apply emits_bind.
  { emits_model. apply HF. by eexists. }
  intros manifestPath. apply emits_bind.
  { emits_model. by apply HQ. }
  intros [err|content].
  - destruct (os_IsNotExist err); [by apply legacyLoad_events|emits_model].
  - apply emits_bind; [apply emits_liftE|]. intros manifest.
    by apply loadHelper_events.
Qed.

Lemma loadExtracted_events fuel inTar name refs tmpDir (Q : event → Prop) :
  (∀ ev, guardOf E tmpDir ev → Q ev) →
  (∀ ev, isFollowSymlink_event ev = false → isRemoveAll_event ev = false →
         Q ev) →
  emits Q (loadExtracted E fuel inTar name refs tmpDir).
Proof.
  intros HF HQ. unfold loadExtracted.
  destruct (chrootarchive_Untar E inTar tmpDir); [apply emits_throw|].
  apply emits_bind.
  { emits_model. apply HF. by eexists. }
  intros ociLayoutPath. apply emits_bind.
  { emits_model. by apply HQ. }
  intros [err|content].
  - by apply loadArchive_events.
  - by apply ociLoad_events.
Qed.

(** X4: when the [oci-layout] marker of the extracted archive does not
    open, every file [Load] opens, the marker included, is at a path that
    [safePath] has returned earlier in the run for a path under the
    extraction directory. *)
Theorem Load_opens_guarded_paths_without_marker fuel inTar name refs s tmpDir
    i p :
  ioutil_TempDir E = inr tmpDir →
  (∀ ociLayoutPath,
     FollowSymlinkInScope E (filepath_Join E [tmpDir; "oci-layout"]) tmpDir
       = inr ociLayoutPath →
     ∃ e, os_Open E ociLayoutPath = inl e) →
  (Load E fuel inTar name refs s).2 !! i = Some (EvOpen p) →
  ∃ j rel, j < i
    ∧ FollowSymlinkInScope E (filepath_Join E [tmpDir; rel]) tmpDir = inr p
    ∧ (Load E fuel inTar name refs s).2 !! j
      = Some (EvFollowSymlink (filepath_Join E [tmpDir; rel]) tmpDir (inr p)).
Proof.
  intros Htmp Hmarker. apply guarded_positions.
  - rewrite Load_unfold, bind_run, Htmp. cbn [liftE ret].
    assert (unguardedOpens []
              (loadExtracted E fuel inTar name refs tmpDir s).2 = [])
      as Hbody.
    { unfold loadExtracted.
      destruct (chrootarchive_Untar E inTar tmpDir); [done|].
      rewrite bind_run, safePath_run. cbn zeta.
      destruct (FollowSymlinkInScope E _ tmpDir) as [e|ociLayoutPath] eqn:Hp;
        [done|].
      destruct (Hmarker ociLayoutPath eq_refl) as [e Hopen].
      rewrite bind_run. unfold catch at 1. rewrite osOpen_run, Hopen.
      pose proof (loadArchive_guards fuel tmpDir s [ociLayoutPath]) as Hg.
      destruct (loadArchive E fuel tmpDir s) as [[r2 s2] t2].
      cbn [snd] in Hg. cbn. rewrite bool_decide_eq_true_2
        by apply list_elem_of_here.
      done. }
    unfold withRemoveAll.
    destruct (loadExtracted E fuel inTar name refs tmpDir s)
      as [[r1 s1] t1].
    cbn [snd] in Hbody.
    destruct r1; cbn; rewrite ?app_nil_r; try done;
      by rewrite unguardedOpens_app, Hbody.
  - rewrite Load_unfold, bind_run, Htmp. cbn [liftE ret].
    pose proof (loadExtracted_events fuel inTar name refs tmpDir _
                  (guardOf_kind tmpDir) (other_kind tmpDir) s) as Hev.
    unfold withRemoveAll.
    destruct (loadExtracted E fuel inTar name refs tmpDir s)
      as [[r1 s1] t1].
    cbn [snd] in Hev.
    destruct r1; cbn; rewrite ?app_nil_r; try done;
      apply Forall_app; split; try done; by constructor.
Qed.

(** X5: once the extraction directory is made, a run of [Load] that comes
    to an answer removes that directory as its last action, and removes
    nothing before: on success, on every error and on a panic of the
    loaders alike. *)
Theorem Load_removes_extraction_dir_last fuel inTar name refs s tmpDir :
  ioutil_TempDir E = inr tmpDir →
  (Load E fuel inTar name refs s).1.1 ≠ OutOfFuel →
  ∃ body, (Load E fuel inTar name refs s).2 = body ++ [EvRemoveAll tmpDir]
          ∧ Forall (λ ev, isRemoveAll_event ev = false) body.
Proof.
  intros Htmp. rewrite Load_unfold, bind_run, Htmp. cbn [liftE ret].
  assert (Forall (λ ev, isRemoveAll_event ev = false)
            (loadExtracted E fuel inTar name refs tmpDir s).2) as Hev.
  { apply loadExtracted_events; [|done]. by intros ev [rel ->]. }
  unfold withRemoveAll.
  destruct (loadExtracted E fuel inTar name refs tmpDir s) as [[r1 s1] t1].
  cbn [snd] in Hev. intros Hr. exists t1.
  destruct r1; cbn in *; rewrite ?app_nil_r; done.
Qed.

(** X6: an archive whose [oci-layout] marker opens is loaded as an OCI
    layout, whatever else it holds: the answer and the stores of [Load]
    are those of [ociLoad], and between the marker and the removal of the
    directory the run is that of [ociLoad]; the manifest file is not
    looked for. *)
Theorem Load_oci_layout_takes_precedence fuel inTar name refs s tmpDir
    ociLayoutPath content :
  ioutil_TempDir E = inr tmpDir →
  chrootarchive_Untar E inTar tmpDir = None →
  FollowSymlinkInScope E (filepath_Join E [tmpDir; "oci-layout"]) tmpDir
    = inr ociLayoutPath →
  os_Open E ociLayoutPath = inr content →
  let x := Load E fuel inTar name refs s in
  let y := ociLoad E tmpDir name refs true s in
  x.1 = y.1
  ∧ x.2 = [EvFollowSymlink (filepath_Join E [tmpDir; "oci-layout"]) tmpDir
             (inr ociLayoutPath);
           EvOpen ociLayoutPath] ++ y.2 ++ [EvRemoveAll tmpDir].
Proof.
  intros Htmp Huntar Hpath Hopen. cbn zeta.
  pose proof (ociLoad_answers E tmpDir name refs true s) as Hans.
  destruct (ociLoad E tmpDir name refs true s) as [[r2 s2] t2] eqn:Hoci.
  enough (Load E fuel inTar name refs s
          = (r2, s2,
             [EvFollowSymlink (filepath_Join E [tmpDir; "oci-layout"]) tmpDir
                (inr ociLayoutPath);
              EvOpen ociLayoutPath] ++ t2 ++ [EvRemoveAll tmpDir]))
    as -> by done.
  rewrite Load_unfold, bind_run, Htmp. cbn [liftE ret].
  unfold withRemoveAll, loadExtracted. rewrite Huntar.
  rewrite bind_run, safePath_run. cbn zeta. rewrite Hpath.
  rewrite bind_run. unfold catch. rewrite osOpen_run, Hopen, Hoci.
  cbn [fst] in Hans. destruct r2; cbn; try done; by rewrite <- app_assoc.
Qed.
End StructuredAndDispatch.

Section StructuredAndDispatchExamples.
Import Sample Worlds.

(** The layer blob of the structured archive, opened at position 4. *)
Lemma loadHelper_opens_guarded_paths_witness :
  (loadHelper (env structured) "/tmp" [item1] true start).2 !! 4
    = Some (EvOpen "/tmp/l1.tar")
  ∧ ∃ j rel, j < 4
      ∧ FollowSymlinkInScope (env structured)
          (filepath_Join (env structured) ["/tmp"; rel]) "/tmp"
        = inr "/tmp/l1.tar"
      ∧ (loadHelper (env structured) "/tmp" [item1] true start).2 !! j
        = Some (EvFollowSymlink
                  (filepath_Join (env structured) ["/tmp"; rel]) "/tmp"
                  (inr "/tmp/l1.tar")).
Proof.
  split; [vm_compute; reflexivity|].
  apply (loadHelper_opens_guarded_paths (env structured) "/tmp" [item1] true
           start 4 "/tmp/l1.tar").
  vm_compute. reflexivity.
Defined.

(** The configuration of the first image directory of the legacy
    archive, opened at position 2. *)
Lemma legacyLoad_opens_guarded_paths_witness :
  (legacyLoad (env legacy) 3 "/tmp" true start).2 !! 2
    = Some (EvOpen "/tmp/X/json")
  ∧ ∃ j rel, j < 2
      ∧ FollowSymlinkInScope (env legacy)
          (filepath_Join (env legacy) ["/tmp"; rel]) "/tmp"
        = inr "/tmp/X/json"
      ∧ (legacyLoad (env legacy) 3 "/tmp" true start).2 !! j
        = Some (EvFollowSymlink
                  (filepath_Join (env legacy) ["/tmp"; rel]) "/tmp"
                  (inr "/tmp/X/json")).
Proof.
  split; [vm_compute; reflexivity|].
  apply (legacyLoad_opens_guarded_paths (env legacy) 3 "/tmp" true start 2
           "/tmp/X/json").
  vm_compute. reflexivity.
Defined.

(** The structured archive has no marker; its manifest file is opened at
    position 3. *)
Lemma Load_opens_guarded_paths_without_marker_witness :
  (Load (env structured) 0 "tar" "" ∅ start).2 !! 3
    = Some (EvOpen "/tmp/manifest.json")
  ∧ ∃ j rel, j < 3
      ∧ FollowSymlinkInScope (env structured)
          (filepath_Join (env structured) ["/tmp"; rel]) "/tmp"
        = inr "/tmp/manifest.json"
      ∧ (Load (env structured) 0 "tar" "" ∅ start).2 !! j
        = Some (EvFollowSymlink
                  (filepath_Join (env structured) ["/tmp"; rel]) "/tmp"
                  (inr "/tmp/manifest.json")).
Proof.
  split; [vm_compute; reflexivity|].
  apply (Load_opens_guarded_paths_without_marker (env structured) 0 "tar" ""
           ∅ start "/tmp" 3 "/tmp/manifest.json").
  - reflexivity.
  - intros ociLayoutPath Hpath. vm_compute in Hpath.
    inversion Hpath; subst. by eexists.
  - vm_compute. reflexivity.
Defined.

(** The structured archive whose layer blob is not the declared one: the
    load fails, and the directory is removed. *)
Lemma Load_removes_extraction_dir_last_witness :
  (Load (env wrongLayer) 0 "tar" "" ∅ start).1.1
    = Err (ErrInvalidDiffID 0 "d1" "other")
  ∧ ∃ body,
      (Load (env wrongLayer) 0 "tar" "" ∅ start).2
        = body ++ [EvRemoveAll "/tmp"]
      ∧ Forall (λ ev, isRemoveAll_event ev = false) body.
Proof.
  split; [vm_compute; reflexivity|].
  apply (Load_removes_extraction_dir_last (env wrongLayer) 0 "tar" "" ∅ start
           "/tmp").
  - reflexivity.
  - vm_compute. discriminate.
Defined.

(** An archive with both the marker and a manifest file. *)
Lemma Load_oci_layout_takes_precedence_witness :
  let x := Load (env ociBoth) 0 "tar" "sample" ∅ start in
  let y := ociLoad (env ociBoth) "/tmp" "sample" ∅ true start in
  x.1 = y.1
  ∧ x.2 = [EvFollowSymlink "/tmp/oci-layout" "/tmp" (inr "/tmp/oci-layout");
           EvOpen "/tmp/oci-layout"] ++ y.2 ++ [EvRemoveAll "/tmp"].
Proof.
  apply (Load_oci_layout_takes_precedence (env ociBoth) 0 "tar" "sample" ∅
           start "/tmp" "/tmp/oci-layout" "{}"); reflexivity.
Defined.
End StructuredAndDispatchExamples.

(** ** The OCI layout loader *)

Section Silent.
Context {Σ : Type}.
Implicit Types s : State Σ.

Lemma silent_ret {A} (a : A) : silent (Σ:=Σ) (mret a).
Proof. by intros s. Qed.

Lemma silent_throw {A} e : silent (Σ:=Σ) (A:=A) (throw e).
Proof. by intros s. Qed.

Lemma silent_panic {A} msg : silent (Σ:=Σ) (A:=A) (panic msg).
Proof. by intros s. Qed.

Lemma silent_liftE {A} (r : error + A) : silent (Σ:=Σ) (liftE r).
Proof. intros s. by destruct r. Qed.

Lemma silent_bind {A B} (m : M Σ A) (f : A → M Σ B) :
  silent m → (∀ a, silent (f a)) → silent (m ≫= f).
Proof.
  intros Hm Hf s. rewrite bind_run. destruct (Hm s) as [Hs Ht].
  destruct (m s) as [[[a|e|msg|] s1] t1]; cbn in *; subst; try done.
  destruct (Hf a s) as [Hs2 Ht2].
  destruct (f a s) as [[r2 s2] t2]. cbn in *. by subst.
Qed.

Lemma silent_run {A} (m : M Σ A) s r s' t :
  silent m → m s = (r, s', t) → s' = s ∧ t = [].
Proof. intros Hm Hrun. specialize (Hm s). by rewrite Hrun in Hm. Qed.

Lemma keepsState_silent {A} (m : M Σ A) : silent m → keepsState m.
Proof. intros Hm s. apply Hm. Qed.

Lemma keepsState_emit ev : keepsState (Σ:=Σ) (emit ev).
Proof. by intros s. Qed.

Lemma keepsState_bind {A B} (m : M Σ A) (f : A → M Σ B) :
  keepsState m → (∀ a, keepsState (f a)) → keepsState (m ≫= f).
Proof.
  intros Hm Hf s. rewrite bind_run. specialize (Hm s).
  destruct (m s) as [[[a|e|msg|] s1] t1]; cbn in *; subst; try done.
  specialize (Hf a s). destruct (f a s) as [[r2 s2] t2]. by cbn in *.
Qed.

Lemma keepsState_catch {A} (m : M Σ A) : keepsState m → keepsState (catch m).
Proof.
  intros Hm s. unfold catch. specialize (Hm s).
  by destruct (m s) as [[[a|e|msg|] s1] t1].
Qed.

Lemma keepsState_queryStore {A} (f : Σ → error + A) ev :
  keepsState (queryStore f ev).
Proof. intros s. unfold queryStore. by destruct (f (stores s)). Qed.
End Silent.

Ltac silent_step :=
  lazymatch goal with
  | |- silent (mbind _ _) => apply silent_bind; [|intros ?]
  | |- silent (mret _) => apply silent_ret
  | |- silent (ret _) => apply silent_ret
  | |- silent (throw _) => apply silent_throw
  | |- silent (panic _) => apply silent_panic
  | |- silent (liftE _) => apply silent_liftE
  | |- silent (match ?x with _ => _ end) => destruct x
  end.

Section OCI.
Context {Σ : Type} (E : Env Σ).
Implicit Types s : State Σ.

Lemma blobPath_silent prefix d : silent (blobPath E prefix d).
Proof. unfold blobPath. repeat silent_step. Qed.

Lemma ociLayers_silent ls : silent (ociLayers E ls).
Proof.
  induction ls as [|l rest IH]; [apply silent_ret|].
  cbn [ociLayers]. apply silent_bind; [apply blobPath_silent|]. intros p.
  apply silent_bind; [apply IH|]. intros ps. apply silent_ret.
Qed.

Lemma ociTag_silent name refs refName : silent (ociTag E name refs refName).
Proof. unfold ociTag. repeat silent_step. Qed.

Lemma osOpen_keepsState path : keepsState (osOpen E path).
Proof.
  unfold osOpen. apply keepsState_bind; [apply keepsState_emit|].
  intros _. apply keepsState_silent, silent_liftE.
Qed.

(** The loop over the index reads blobs and nothing else. *)
Lemma ociManifests_keepsState tmpDir name refs mds :
  ∀ manifests, keepsState (ociManifests E tmpDir name refs mds manifests).
Proof.
  induction mds as [|md rest IH]; intros manifests.
  { apply keepsState_silent, silent_ret. }
  cbn [ociManifests]. destruct (decide _); [apply IH|].
  apply keepsState_bind; [apply keepsState_silent, blobPath_silent|].
  intros manifestPath.
  apply keepsState_bind; [apply osOpen_keepsState|]. intros f.
  apply keepsState_bind; [apply keepsState_silent, silent_liftE|].
  intros man.
  apply keepsState_bind; [apply keepsState_silent, ociLayers_silent|].
  intros layers.
  destruct (Annotations md !! _); [|apply keepsState_silent, silent_throw].
  apply keepsState_bind; [apply keepsState_silent, ociTag_silent|].
  intros tag.
  apply keepsState_bind; [apply keepsState_silent, blobPath_silent|].
  intros config. apply IH.
Qed.

Lemma ociManifests_opens tmpDir name refs mds :
  ∀ manifests,
    emits (λ ev, isOpen_event ev = true)
          (ociManifests E tmpDir name refs mds manifests).
Proof.
  induction mds as [|md rest IH]; intros manifests; [apply emits_ret|].
  cbn [ociManifests]. destruct (decide _); [apply IH|].
  unfold ociTag. emits_model; try apply IH.
  clear. induction (Manifest_Layers _) as [|l ls IHl]; [apply emits_ret|].
  cbn [ociLayers]. emits_model.
Qed.

Lemma ociTag_Ok name refs refName s tag s' t :
  ociTag E name refs refName s = (Ok tag, s', t) →
  (name ≠ "" →
   ∃ named withTag,
     reference_ParseNamed E name = inr named
     ∧ reference_WithTag E named refName = inr withTag)
  ∧ (name = "" → ∃ rs, getRefs E refs = inr rs ∧ is_Some (rs !! refName)).
Proof.
  unfold ociTag. destruct (decide (name ≠ "")) as [Hname|Hname]; msimpl.
  - destruct (reference_ParseNamed E name) as [e|named]; msimpl; [done|].
    destruct (reference_WithTag E named refName) as [e|withTag] eqn:Htag;
      msimpl; [done|].
    intros _. split; [|done]. intros _. by exists named, withTag.
  - destruct (getRefs E refs) as [e|rs]; msimpl; [done|].
    destruct (rs !! refName) as [r|] eqn:Hr; msimpl; [|done].
    intros _. split; [done|]. intros _. exists rs. by rewrite Hr.
Qed.

(** What a successful pass over the index has made. *)
Lemma ociManifests_Ok tmpDir name refs mds :
  ∀ manifests s ms s' t,
    ociManifests E tmpDir name refs mds manifests s = (Ok ms, s', t) →
    ∃ new,
      ms = manifests ++ new
      ∧ length new = length (filter (λ md, isImageManifest md = true) mds)
      ∧ Forall (λ m, length (RepoTags m) = 1) new
      ∧ length t = length new
      ∧ Forall (ociNamed E name refs)
               (filter (λ md, isImageManifest md = true) mds).
Proof.
  induction mds as [|md rest IH]; intros manifests s ms s' t Hrun.
  { inversion Hrun; subst. exists []. by rewrite app_nil_r. }
  cbn [ociManifests] in Hrun. unfold isImageManifest in *.
  destruct (decide (MediaType md ≠ MediaTypeImageManifest)) as [Hmt|Hmt].
  { rewrite filter_cons_False by (by rewrite bool_decide_eq_true).
    by apply IH in Hrun. }
  apply dec_stable in Hmt.
  rewrite filter_cons_True by (by rewrite bool_decide_eq_true).
  minv Hrun as manifestPath s1 t1 t2 Hpath | r1 Hr; [|by destruct r1].
  apply (silent_run _ _ _ _ _ (blobPath_silent _ _)) in Hpath as [-> ->].
  minv Hrun as f s2 t3 t4 Hopen | r1 Hr; [|by destruct r1].
  rewrite osOpen_run in Hopen.
  destruct (os_Open E manifestPath) as [e|c]; [done|].
  inversion Hopen; subst; clear Hopen.
  minv Hrun as man s3 t5 t6 Hman | r1 Hr; [|by destruct r1].
  apply (silent_run _ _ _ _ _ (silent_liftE _)) in Hman as [-> ->].
  minv Hrun as layers s4 t7 t8 Hlayers | r1 Hr; [|by destruct r1].
  apply (silent_run _ _ _ _ _ (ociLayers_silent _)) in Hlayers as [-> ->].
  destruct (Annotations md !! "org.opencontainers.ref.name")
    as [refName|] eqn:Hann; [|done].
  minv Hrun as tag s5 t9 t10 Htag | r1 Hr; [|by destruct r1].
  pose proof (ociTag_Ok _ _ _ _ _ _ _ Htag) as [Hnamed Hrefs].
  apply (silent_run _ _ _ _ _ (ociTag_silent _ _ _)) in Htag as [-> ->].
  minv Hrun as config s6 t11 t12 Hconfig | r1 Hr; [|by destruct r1].
  apply (silent_run _ _ _ _ _ (blobPath_silent _ _)) in Hconfig as [-> ->].
  apply IH in Hrun as (new & -> & Hlen & Hone & Ht & Hall).
  exists (mkManifestItem config [tag] layers :: new).
  rewrite <- app_assoc. cbn [length app].
  repeat split; try done.
  - by rewrite Hlen.
  - by constructor.
  - cbn. by rewrite Ht.
  - constructor; [|done]. by exists refName.
Qed.

(** X7: the pass of [ociLoad] over the index skips the descriptors whose
    media type is not that of an image manifest: it runs as it does on
    the index with those descriptors taken out. *)
Theorem ociManifests_skips_other_media_types tmpDir name refs mds manifests s :
  ociManifests E tmpDir name refs mds manifests s
  = ociManifests E tmpDir name refs
      (filter (λ md, isImageManifest md = true) mds) manifests s.
Proof.
  revert manifests s. induction mds as [|md rest IH]; intros manifests s.
  { done. }
  unfold isImageManifest in *. cbn [ociManifests].
  destruct (decide (MediaType md ≠ MediaTypeImageManifest)) as [Hmt|Hmt].
  { rewrite filter_cons_False by (by rewrite bool_decide_eq_true).
    apply IH. }
  rewrite filter_cons_True
    by (rewrite bool_decide_eq_true; by apply dec_stable).
  cbn [ociManifests]. rewrite decide_False by done.
  rewrite !bind_run. destruct (blobPath E [tmpDir] (Digest md) s)
    as [[[manifestPath|e|msg|] s1] t1]; try done.
  rewrite !bind_run. destruct (osOpen E manifestPath s1)
    as [[[f|e|msg|] s2] t2]; try done.
  rewrite !bind_run. destruct (liftE (decodeOCIManifest E f) s2)
    as [[[man|e|msg|] s3] t3]; try done.
  rewrite !bind_run. destruct (ociLayers E (Manifest_Layers man) s3)
    as [[[layers|e|msg|] s4] t4]; try done.
  destruct (Annotations md !! "org.opencontainers.ref.name")
    as [refName|]; [|done].
  rewrite !bind_run. destruct (ociTag E name refs refName s4)
    as [[[tag|e|msg|] s5] t5]; try done.
  rewrite !bind_run.
  destruct (blobPath E [] (Digest (Manifest_Config man)) s5)
    as [[[config|e|msg|] s6] t6]; try done.
  by rewrite IH.
Qed.

(** X8: [ociLoad] settles the repository tag of every image manifest of
    the index before it imports anything.  When one of them has no
    reference name annotation, or has a reference name that the name or
    the reference map given to the load does not resolve, [ociLoad] does
    not succeed, the stores are as before, and all it has done is to open
    files. *)
Theorem ociLoad_imports_nothing_without_naming tmpDir name refs po s
    indexJSON index md :
  os_Open E (filepath_Join E [tmpDir; "index.json"]) = inr indexJSON →
  decodeIndex E indexJSON = inr index →
  md ∈ Manifests index →
  MediaType md = MediaTypeImageManifest →
  ¬ ociNamed E name refs md →
  let x := ociLoad E tmpDir name refs po s in
  x.1.1 ≠ Ok tt ∧ x.1.2 = s ∧ Forall (λ ev, isOpen_event ev = true) x.2.
Proof.
  intros Hopen Hdec Hin Hmt Hnot. cbn zeta. unfold ociLoad.
  destruct (decide _); [done|]. destruct (decide _); [done|].
  rewrite bind_run, osOpen_run, Hopen.
  rewrite bind_run, Hdec. cbn [liftE ret]. rewrite bind_run.
  pose proof (ociManifests_keepsState tmpDir name refs (Manifests index) [] s)
    as Hkeep.
  pose proof (ociManifests_opens tmpDir name refs (Manifests index) [] s)
    as Hopens.
  destruct (ociManifests E tmpDir name refs (Manifests index) [] s)
    as [[[ms|e|msg|] s1] t1] eqn:Hrun; cbn [fst snd] in *; subst s1.
  - apply ociManifests_Ok in Hrun as (new & _ & _ & _ & _ & Hall).
    rewrite Forall_forall in Hall. destruct Hnot. apply Hall.
    apply list_elem_of_filter. split; [|done].
    unfold isImageManifest. by rewrite bool_decide_eq_true.
  - split; [done|]. split; [done|]. by constructor.
  - split; [done|]. split; [done|]. by constructor.
  - split; [done|]. split; [done|]. by constructor.
Qed.

(** X9: a successful [ociLoad] has opened [index.json], then one manifest
    blob for each image manifest of the index, and has then run
    [loadHelper] from the untouched stores on one item for each of them,
    every item with exactly one repository tag. *)
Theorem ociLoad_success_shape tmpDir name refs po s indexJSON index :
  os_Open E (filepath_Join E [tmpDir; "index.json"]) = inr indexJSON →
  decodeIndex E indexJSON = inr index →
  (ociLoad E tmpDir name refs po s).1.1 = Ok tt →
  ∃ items opens,
    length items
      = length (filter (λ md, isImageManifest md = true) (Manifests index))
    ∧ Forall (λ m, length (RepoTags m) = 1) items
    ∧ length opens = length items
    ∧ Forall (λ ev, isOpen_event ev = true) opens
    ∧ (ociLoad E tmpDir name refs po s).1
      = (loadHelper E tmpDir items po s).1
    ∧ (ociLoad E tmpDir name refs po s).2
      = EvOpen (filepath_Join E [tmpDir; "index.json"])
          :: opens ++ (loadHelper E tmpDir items po s).2.
Proof.
  intros Hopen Hdec. unfold ociLoad.
  destruct (decide _); [done|]. destruct (decide _); [done|].
  rewrite bind_run, osOpen_run, Hopen.
  rewrite bind_run, Hdec. cbn [liftE ret]. rewrite bind_run.
  pose proof (ociManifests_keepsState tmpDir name refs (Manifests index) [] s)
    as Hkeep.
  pose proof (ociManifests_opens tmpDir name refs (Manifests index) [] s)
    as Hopens.
  destruct (ociManifests E tmpDir name refs (Manifests index) [] s)
    as [[[ms|e|msg|] s1] t1] eqn:Hrun; cbn [fst snd] in *; subst s1;
    try done.
  apply ociManifests_Ok in Hrun as (new & -> & Hlen & Hone & Ht & _).
  intros Hok. exists new, t1. rewrite app_nil_l in *.
  destruct (loadHelper E tmpDir new po s) as [[r2 s2] t2].
  by cbn in *.
Qed.

(** X10: an archive with the [oci-layout] marker, loaded with both a name
    and a reference map or with neither, is extracted and then refused:
    [Load] returns the error of [ociLoad] for that case, has touched no
    store, has read nothing but the marker, and removes the extraction
    directory. *)
Theorem Load_oci_refuses_naming_after_extraction fuel inTar name refs s tmpDir
    ociLayoutPath content :
  ioutil_TempDir E = inr tmpDir →
  chrootarchive_Untar E inTar tmpDir = None →
  FollowSymlinkInScope E (filepath_Join E [tmpDir; "oci-layout"]) tmpDir
    = inr ociLayoutPath →
  os_Open E ociLayoutPath = inr content →
  (name = "" ↔ size refs = 0) →
  Load E fuel inTar name refs s
  = (Err (if decide (name = "") then ErrNoNameMapping else ErrNameAndRefs),
     s,
     [EvFollowSymlink (filepath_Join E [tmpDir; "oci-layout"]) tmpDir
        (inr ociLayoutPath);
      EvOpen ociLayoutPath; EvRemoveAll tmpDir]).
Proof.
  intros Htmp Huntar Hpath Hopen Hboth.
  rewrite Load_unfold, bind_run, Htmp. cbn [liftE ret].
  unfold withRemoveAll, loadExtracted. rewrite Huntar.
  rewrite bind_run, safePath_run. cbn zeta. rewrite Hpath.
  rewrite bind_run. unfold catch. rewrite osOpen_run, Hopen.
  unfold ociLoad. destruct (decide (name = "")) as [Hname|Hname].
  - rewrite decide_False by (by intros [? _]).
    rewrite decide_True by (split; [done|by apply Hboth]). done.
  - rewrite decide_True by (split; [done|by rewrite <- Hboth]). done.
Qed.
End OCI.

Section OCIExamples.
Import Sample Worlds.

(** The layout of one image tagged [v1], loaded with a reference map that
    has no entry for [v1]. *)
Lemma ociLoad_imports_nothing_without_naming_witness :
  let x := ociLoad (env ociBoth) "/tmp" "" {["v2" := "other:tag"]} true start
  in
  x.1.1 ≠ Ok tt ∧ x.1.2 = start
  ∧ Forall (λ ev, isOpen_event ev = true) x.2.
Proof.
  apply (ociLoad_imports_nothing_without_naming (env ociBoth) "/tmp" ""
           {["v2" := "other:tag"]} true start "index" ociIndexV1
           (mkDescriptor MediaTypeImageManifest "sha256:man"
              {["org.opencontainers.ref.name" := "v1"]})).
  - reflexivity.
  - reflexivity.
  - apply list_elem_of_further, list_elem_of_here.
  - reflexivity.
  - intros (refName & Hann & _ & Hrefs).
    vm_compute in Hann. inversion Hann; subst.
    destruct (Hrefs eq_refl) as (rs & Hget & Hsome).
    vm_compute in Hget. inversion Hget; subst.
    vm_compute in Hsome. by destruct Hsome.
Defined.

(** The same layout loaded under the name [sample]. *)
Lemma ociLoad_success_shape_witness :
  ∃ items opens,
    length items
      = length (filter (λ md, isImageManifest md = true)
                       (Manifests ociIndexV1))
    ∧ Forall (λ m, length (RepoTags m) = 1) items
    ∧ length opens = length items
    ∧ Forall (λ ev, isOpen_event ev = true) opens
    ∧ (ociLoad (env ociBoth) "/tmp" "sample" ∅ true start).1
      = (loadHelper (env ociBoth) "/tmp" items true start).1
    ∧ (ociLoad (env ociBoth) "/tmp" "sample" ∅ true start).2
      = EvOpen (filepath_Join (env ociBoth) ["/tmp"; "index.json"])
          :: opens ++ (loadHelper (env ociBoth) "/tmp" items true start).2.
Proof.
  apply (ociLoad_success_shape (env ociBoth) "/tmp" "sample" ∅ true start
           "index" ociIndexV1).
  - reflexivity.
  - reflexivity.
  - vm_compute. reflexivity.
Defined.

(** The same layout loaded with neither a name nor a reference map. *)
Lemma Load_oci_refuses_naming_after_extraction_witness :
  Load (env ociBoth) 0 "tar" "" ∅ start
  = (Err ErrNoNameMapping, start,
     [EvFollowSymlink "/tmp/oci-layout" "/tmp" (inr "/tmp/oci-layout");
      EvOpen "/tmp/oci-layout"; EvRemoveAll "/tmp"]).
Proof.
  apply (Load_oci_refuses_naming_after_extraction (env ociBoth) 0 "tar" "" ∅
           start "/tmp" "/tmp/oci-layout" "{}").
  - reflexivity.
  - reflexivity.
  - reflexivity.
  - reflexivity.
  - split; reflexivity.
Defined.
End OCIExamples.

(** ** Tags, layers and the loop over the manifest items *)

Section LoaderPieces.
Context {Σ : Type} (E : Env Σ).
Implicit Types s : State Σ.

(** What a successful [setLoadedTag] has done. *)
Lemma setLoadedTag_Ok ref imgID s s' t :
  setLoadedTag E ref imgID s = (Ok tt, s', t) →
  (rs_AddTag E (stores s) ref imgID true).1 = None
  ∧ stores s' = (rs_AddTag E (stores s) ref imgID true).2
  ∧ t = EvRsGet ref
        :: match rs_Get E (stores s) ref with
           | inr prevID =>
               if decide (prevID ≠ imgID)
               then [EvWrite (renamingNotice ref prevID)] else []
           | inl _ => []
           end
        ++ [EvRsAddTag ref imgID true].
Proof.
  unfold setLoadedTag, catch, rsGet, queryStore, rsAddTag, callStore_, write,
    renamingNotice.
  msimpl. destruct (rs_Get E (stores s) ref) as [e|prevID]; msimpl.
  - destruct (rs_AddTag E (stores s) ref imgID true) as [[e'|] σ];
      intros [= <- <-]; done.
  - destruct (decide (prevID ≠ imgID)); msimpl;
      destruct (rs_AddTag E (stores s) ref imgID true) as [[e'|] σ];
      intros [= <- <-]; done.
Qed.

(** X11: in a reference store where a successful [AddTag] makes the
    reference resolve to the image given, binding one reference twice
    with [setLoadedTag] leaves it on the second image; the second call
    writes the renaming notice, naming the first image, when the two
    images differ, and writes nothing when they are the same. *)
Theorem setLoadedTag_last_binding_wins ref id1 id2 s s' t :
  RefStoreLaw E →
  (setLoadedTag E ref id1;; setLoadedTag E ref id2) s = (Ok tt, s', t) →
  rs_Get E (stores s') ref = inr id2
  ∧ ∃ t1, t = t1 ++ EvRsGet ref
                :: (if decide (id1 = id2) then []
                    else [EvWrite (renamingNotice ref id1)])
                ++ [EvRsAddTag ref id2 true].
Proof.
  intros Hlaw Hrun.
  minv Hrun as u s1 t1 t2 Hfirst | r1 Hr; [|by destruct r1].
  destruct u.
  apply setLoadedTag_Ok in Hfirst as (Hadd1 & Hs1 & _).
  apply setLoadedTag_Ok in Hrun as (Hadd2 & Hs' & ->).
  pose proof (Hlaw _ _ _ _ Hadd1) as Hget1. rewrite <- Hs1 in Hget1.
  pose proof (Hlaw _ _ _ _ Hadd2) as Hget2. rewrite <- Hs' in Hget2.
  split; [done|]. exists t1. rewrite Hget1.
  destruct (decide (id1 = id2)) as [->|Hne].
  - by rewrite decide_False by (by intros ?).
  - by rewrite decide_True.
Qed.

(** X12: when the layer file can be [Stat]ed, [loadLayer] with a progress
    output returns the same answer and leaves the same stores as without
    one: the progress output adds the [Stat] call and the progress label
    of the reader, and nothing else. *)
Theorem loadLayer_progress_changes_no_outcome filename rootFS id s size :
  os_Stat E filename = inr size →
  (loadLayer E filename rootFS id true s).1
  = (loadLayer E filename rootFS id false s).1
  ∧ filter (λ ev, acquiredBy ev ≠ None)
           (loadLayer E filename rootFS id true s).2
    = (λ ev, match ev with
             | EvLsRegister data parent _ r =>
                 EvLsRegister data parent (Some (stringid_TruncateID E id)) r
             | _ => ev
             end)
      <$> filter (λ ev, acquiredBy ev ≠ None)
                 (loadLayer E filename rootFS id false s).2.
Proof.
  intros Hstat. unfold loadLayer, osOpen, osStat, lsRegister, callStore.
  msimpl. destruct (os_Open E filename) as [e|rawTar]; msimpl; [done|].
  destruct (archive_DecompressStream E rawTar) as [e|data]; msimpl; [done|].
  rewrite Hstat. msimpl.
  destruct (ls_Register E (stores s) data _) as [[e|l] σ]; by msimpl.
Qed.

Lemma loadManifests_app tmpDir po ms1 ms2 s :
  loadManifests E tmpDir po (ms1 ++ ms2) s
  = (loadManifests E tmpDir po ms1;; loadManifests E tmpDir po ms2) s.
Proof.
  revert s. induction ms1 as [|m rest IH]; intros s.
  { rewrite bind_run. cbn.
    by destruct (loadManifests E tmpDir po ms2 s) as [[r2 s2] t2]. }
  cbn [app loadManifests]. rewrite !bind_run.
  destruct (loadManifestItem E tmpDir po m s) as [[[[]|e|msg|] s1] t1];
    try done.
  rewrite IH, !bind_run.
  destruct (loadManifests E tmpDir po rest s1) as [[[[]|e|msg|] s2] t2];
    try done.
  destruct (loadManifests E tmpDir po ms2 s2) as [[r3 s3] t3].
  by rewrite app_assoc.
Qed.

(** X13: [loadHelper] stops at the first manifest item that fails: when
    it does not succeed on a list of items, it returns the same answer,
    stores and run on that list followed by any further items, which it
    does not look at. *)
Theorem loadHelper_stops_at_first_failure tmpDir po ms1 ms2 s :
  (loadHelper E tmpDir ms1 po s).1.1 ≠ Ok tt →
  loadHelper E tmpDir (ms1 ++ ms2) po s = loadHelper E tmpDir ms1 po s.
Proof.
  unfold loadHelper, withDeferred. rewrite loadManifests_app, bind_run.
  destruct (loadManifests E tmpDir po ms1 _) as [[[[]|e|msg|] s1] t1];
    try done.
  destruct (runDeferred E (deferred s1) (stores s1)) as [σ2 t2]. done.
Qed.

Lemma createConfigs_app (t1 t2 : list event) :
  createConfigs (t1 ++ t2) = createConfigs t1 ++ createConfigs t2.
Proof. apply omap_app. Qed.

Lemma createConfigs_none (t : list event) :
  Forall (λ ev, createConfigBy ev = None) t → createConfigs t = [].
Proof.
  induction 1 as [|ev t Hev _ IH]; [done|].
  unfold createConfigs in *. cbn. by rewrite Hev, IH.
Qed.

Lemma loadLayers_Ok_counts tmpDir po m ds :
  ∀ i rootFS s r s' t,
    loadLayers E tmpDir po m i ds rootFS s = (Ok r, s', t) →
    Layer_DiffID <$> acquired t = ds ∧ createConfigs t = [].
Proof.
  induction ds as [|diffID rest IH]; intros i rootFS s r s' t Hrun.
  { by inversion Hrun. }
  rewrite loadLayers_cons in Hrun.
  destruct (Layers m !! i) as [layerFile|]; [|done].
  minv Hrun as layerPath s1 t1 t2 Hpath | r1 Hr; [|by destruct r1].
  rewrite safePath_run in Hpath. cbn zeta in Hpath.
  assert (acquired t1 = [] ∧ createConfigs t1 = []) as [Ha1 Hc1].
  { destruct (FollowSymlinkInScope E _ _); inversion Hpath; by subst. }
  minv Hrun as newLayer s2 t3 t4 Hres | r1 Hr; [|by destruct r1].
  pose proof (resolveLayer_acquired E _ _ _ _ _ _ _ _ Hres) as Ha3.
  assert (createConfigs t3 = []) as Hc3.
  { apply createConfigs_none.
    eapply (emits_run (λ ev, createConfigBy ev = None)); [|exact Hres].
    by emits_model. }
  minv Hrun as u s3 t5 t6 Hdefer | r1 Hr; [|by destruct r1].
  inversion Hdefer; subst.
  destruct (decide (diffID ≠ Layer_DiffID newLayer)) as [|Hsame]; [done|].
  apply dec_stable in Hsame.
  apply IH in Hrun as [Ha6 Hc6].
  rewrite !acquired_app, !createConfigs_app, Ha1, Ha3, Hc1, Hc3, Hc6.
  cbn. by rewrite Ha6, <- Hsame.
Qed.

Lemma loadManifestItem_Ok_counts tmpDir po m s s' t :
  loadManifestItem E tmpDir po m s = (Ok tt, s', t) →
  ∃ config,
    itemConfig E tmpDir m = Some config
    ∧ createConfigs t = [config]
    ∧ Layer_DiffID <$> acquired t = itemDiffIDs E tmpDir m
    ∧ length (itemDiffIDs E tmpDir m) = length (Layers m).
Proof.
  unfold loadManifestItem, itemDiffIDs, itemConfig. intros Hrun.
  minv Hrun as configPath s1 t1 t2 Hpath | r1 Hr; [|by destruct r1].
  rewrite safePath_run in Hpath. cbn zeta in Hpath.
  destruct (FollowSymlinkInScope E _ _) as [e|configPath']; [done|].
  inversion Hpath; subst; clear Hpath.
  minv Hrun as config s2 t3 t4 Hread | r1 Hr; [|by destruct r1].
  rewrite ioutil_ReadFile_run in Hread.
  destruct (os_Open E configPath) as [e|config']; [done|].
  inversion Hread; subst; clear Hread.
  minv Hrun as img s3 t5 t6 Himg | r1 Hr; [|by destruct r1].
  destruct (image_NewFromJSON E config) as [e|img']; [done|].
  inversion Himg; subst; clear Himg.
  cbn zeta in Hrun. destruct (decide _) as [|Hlen]; [done|].
  apply dec_stable in Hlen.
  minv Hrun as rootFS s4 t7 t8 Hlayers | r1 Hr; [|by destruct r1].
  apply loadLayers_Ok_counts in Hlayers as [Ha7 Hc7].
  minv Hrun as imgID s5 t9 t10 Hcreate | r1 Hr; [|by destruct r1].
  assert (t9 = [EvIsCreate config (Some imgID)]) as ->.
  { revert Hcreate. unfold isCreate, callStore.
    destruct (is_Create E (stores s4) config) as [[e|a] σ];
      by intros [= <- <- <-]. }
  assert (acquired t10 = [] ∧ createConfigs t10 = []) as [Ha10 Hc10].
  { split; [apply acquired_none|apply createConfigs_none].
    - eapply (emits_run (λ ev, acquiredBy ev = None)); [|exact Hrun].
      by apply loadRepoTags_emits.
    - eapply (emits_run (λ ev, createConfigBy ev = None)); [|exact Hrun].
      by apply loadRepoTags_emits. }
  exists config. split; [done|]. split; [|split; [|done]].
  - rewrite !app_nil_l, !createConfigs_app, Hc7, Hc10. done.
  - rewrite !app_nil_l, !acquired_app, Ha10, app_nil_r.
    by rewrite <- Ha7.
Qed.

(** X14: a successful [loadHelper] has called [Create] once for each
    manifest item, in the order of the items and with the content of the
    item's configuration file as it was read; the layer handles it has
    taken, through [Get] or [Register], carry the diff identities that
    the configurations declare, in their order, one for each layer entry
    of the items; and it has released them all, the last taken first. *)
Theorem loadHelper_success_counts tmpDir po manifests s s' t :
  loadHelper E tmpDir manifests po s = (Ok tt, s', t) →
  Some <$> createConfigs t = itemConfig E tmpDir <$> manifests
  ∧ Layer_DiffID <$> acquired t = concat (itemDiffIDs E tmpDir <$> manifests)
  ∧ length (acquired t) = sum_list (length ∘ Layers <$> manifests)
  ∧ released t = rev (acquired t).
Proof.
  intros Hrun.
  assert (∀ s0 s1 t1,
            loadManifests E tmpDir po manifests s0 = (Ok tt, s1, t1) →
            Some <$> createConfigs t1 = itemConfig E tmpDir <$> manifests
            ∧ Layer_DiffID <$> acquired t1
              = concat (itemDiffIDs E tmpDir <$> manifests)
            ∧ length (acquired t1)
              = sum_list (length ∘ Layers <$> manifests)) as Hbody.
  { clear. induction manifests as [|m rest IH]; intros s0 s1 t1 Hrun.
    { by inversion Hrun. }
    cbn [loadManifests] in Hrun.
    minv Hrun as u s2 t2 t3 Hitem | r1 Hr; [|by destruct r1].
    destruct u.
    apply loadManifestItem_Ok_counts in Hitem
      as (config & Hcfg & Hc & Hd & Hlen).
    apply IH in Hrun as (Hc' & Hd' & Ha').
    rewrite createConfigs_app, acquired_app, length_app, !fmap_app.
    rewrite Hc, Hd, Hd', Ha'. cbn. rewrite Hcfg, Hc'.
    repeat split; try done.
    by rewrite <- Hlen, <- Hd, length_fmap. }
  pose proof (loadHelper_releases_acquired E _ _ _ _ _ _ _ Hrun) as Hrel.
  rewrite Hrel by done.
  revert Hrun. unfold loadHelper, withDeferred.
  destruct (loadManifests E tmpDir po manifests _) as [[r1 s1] t1] eqn:Hm.
  pose proof (runDeferred_trace E (deferred s1) (stores s1)) as Htr.
  destruct (runDeferred E (deferred s1) (stores s1)) as [σ2 t2].
  cbn [snd] in Htr. destruct r1 as [[]| | |]; intros [= <- <-].
  apply Hbody in Hm as (Hc & Hd & Ha).
  assert (createConfigs t2 = [] ∧ acquired t2 = []) as [Hc2 Ha2].
  { subst t2. clear. induction (deferred s1) as [|l ls [IH1 IH2]]; done. }
  by rewrite createConfigs_app, acquired_app, Hc2, Ha2, !app_nil_r.
Qed.
End LoaderPieces.

Section LoaderPiecesExamples.
Import Sample Worlds.

(** The sample reference store resolves a reference to what [AddTag] has
    bound it to. *)
Lemma sample_ref_store_law (w : World) : RefStoreLaw (env w).
Proof.
  intros σ ref id force. cbn. destruct (failAddTag w); [done|].
  intros _. cbn. by rewrite lookup_insert_eq.
Qed.

(** One reference bound to the image [a], then to the image [b]. *)
Lemma setLoadedTag_last_binding_wins_witness :
  let ref := mkNamedTagged "sample" "latest" in
  let x := (setLoadedTag (env structured) ref "img:a";;
            setLoadedTag (env structured) ref "img:b") start in
  rs_Get (env structured) (stores x.1.2) ref = inr "img:b"
  ∧ ∃ t1, x.2 = t1 ++ EvRsGet ref
                  :: (if decide ("img:a" = "img:b") then []
                      else [EvWrite (renamingNotice ref "img:a")])
                  ++ [EvRsAddTag ref "img:b" true].
Proof.
  intros ref x.
  apply (setLoadedTag_last_binding_wins (env structured) ref "img:a" "img:b"
           start x.1.2 x.2 (sample_ref_store_law structured)).
  vm_compute. reflexivity.
Defined.

(** The layer blob of the structured archive. *)
Lemma loadLayer_progress_changes_no_outcome_witness :
  let E := env structured in
  let rootFS := mkRootFS "layers" [] in
  (loadLayer E "/tmp/l1.tar" rootFS "d1" true start).1
  = (loadLayer E "/tmp/l1.tar" rootFS "d1" false start).1
  ∧ filter (λ ev, acquiredBy ev ≠ None)
           (loadLayer E "/tmp/l1.tar" rootFS "d1" true start).2
    = (λ ev, match ev with
             | EvLsRegister data parent _ r =>
                 EvLsRegister data parent
                   (Some (stringid_TruncateID E "d1")) r
             | _ => ev
             end)
      <$> filter (λ ev, acquiredBy ev ≠ None)
                 (loadLayer E "/tmp/l1.tar" rootFS "d1" false start).2.
Proof.
  apply (loadLayer_progress_changes_no_outcome (env structured) "/tmp/l1.tar"
           (mkRootFS "layers" []) "d1" start 2).
  reflexivity.
Defined.

(** An item whose layer blob is not the declared one, followed by a
    second item. *)
Lemma loadHelper_stops_at_first_failure_witness :
  loadHelper (env wrongLayer) "/tmp" ([item1] ++ [item2]) true start
  = loadHelper (env wrongLayer) "/tmp" [item1] true start.
Proof.
  apply (loadHelper_stops_at_first_failure (env wrongLayer) "/tmp" true
           [item1] [item2] start).
  vm_compute. discriminate.
Defined.

(** Two images of one and two layers. *)
Lemma loadHelper_success_counts_witness :
  let x := loadHelper (env sharedPrefix) "/tmp" [item1; item2] true start in
  Some <$> createConfigs x.2
    = itemConfig (env sharedPrefix) "/tmp" <$> [item1; item2]
  ∧ Layer_DiffID <$> acquired x.2 = ["d1"; "d1"; "d2"]
  ∧ length (acquired x.2) = 3
  ∧ released x.2 = rev (acquired x.2).
Proof.
  intros x.
  apply (loadHelper_success_counts (env sharedPrefix) "/tmp" true
           [item1; item2] start x.1.2 x.2).
  vm_compute. reflexivity.
Defined.
End LoaderPiecesExamples.

(** ** The legacy loader *)

Section LegacyFurther.
Context {Σ : Type} (E : Env Σ) (sourceDir : string) (po : bool).
Implicit Types s : State Σ.

(** X15: when the declared parents of a set of legacy images lead from
    each of them to another one of the set, as on a cycle, and none of
    them is in the load map, [legacyLoadImage] on any of them exceeds
    every bound on the depth of its recursion: the recursion on the
    parents has no end, and no store is touched on the way. *)
Theorem legacyLoadImage_parent_cycle_has_no_end (cycle : string → Prop) :
  (∀ x, cycle x →
        ∃ parent, legacyParent E sourceDir x = Some parent
                  ∧ parent ≠ "" ∧ cycle parent) →
  ∀ fuel oldID s,
    cycle oldID →
    (∀ x, cycle x → loadedMap s !! x = None) →
    ∃ t, legacyLoadImage E fuel oldID sourceDir po s = (OutOfFuel, s, t).
Proof.
  intros Hcycle fuel. induction fuel as [|n IH]; intros oldID s Hin Hout.
  { by eexists. }
  rewrite legacyLoadImage_S, bind_run. cbn [getState].
  rewrite decide_False by (rewrite (Hout _ Hin); by intros [? ?]).
  destruct (Hcycle _ Hin) as (parent & Hdecl & Hne & Hpin).
  unfold legacyParent in Hdecl. rewrite bind_run, safePath_run. cbn zeta.
  destruct (FollowSymlinkInScope E _ sourceDir) as [e|configPath]; [done|].
  rewrite bind_run, ioutil_ReadFile_run.
  destruct (os_Open E configPath) as [e|imageJSON]; [done|].
  rewrite bind_run.
  destruct (unmarshalParent E imageJSON) as [e|parent']; [done|].
  injection Hdecl as ->. cbn [liftE ret]. rewrite bind_run.
  rewrite decide_True by done.
  assert (∃ t, waitParent (λ p, legacyLoadImage E n p sourceDir po) n parent s
               = (OutOfFuel, s, t)) as [t ->].
  { destruct n as [|k]; [by eexists|].
    cbn [waitParent]. rewrite bind_run. cbn [getState].
    rewrite (Hout _ Hpin), bind_run.
    destruct (IH parent s Hpin Hout) as [t ->]. by eexists. }
  by eexists.
Qed.

Lemma keepsEntries_keepsMap {A} P (m : M Σ A) : keepsMap m → keepsEntries P m.
Proof. intros Hm s k v _ Hk. by rewrite Hm. Qed.

Lemma keepsEntries_bind {A B} P (m : M Σ A) (f : A → M Σ B) :
  keepsEntries P m → (∀ a, keepsEntries P (f a)) → keepsEntries P (m ≫= f).
Proof.
  intros Hm Hf s k v HP Hk. rewrite bind_run. specialize (Hm s k v HP Hk).
  destruct (m s) as [[[a|e|msg|] s1] t1]; cbn in *; try done.
  specialize (Hf a s1 k v HP Hm). by destruct (f a s1) as [[r2 s2] t2].
Qed.

Lemma keepsEntries_weaken {A} (P Q : string → Prop) (m : M Σ A) :
  (∀ k, P k → Q k) → keepsEntries Q m → keepsEntries P m.
Proof. intros HPQ Hm s k v HP. apply Hm. by apply HPQ. Qed.

Lemma keepsEntries_setLoaded oldID imgID :
  keepsEntries (Σ:=Σ) (λ k, k ≠ oldID) (setLoaded oldID imgID).
Proof. intros s k v Hne Hk. cbn. by rewrite lookup_insert_ne. Qed.

Lemma keepsEntries_waitParent P (load : string → M Σ unit) k parent :
  (∀ p, keepsEntries P (load p)) → keepsEntries P (waitParent load k parent).
Proof.
  intros Hload. induction k as [|k IH]; [by intros s ? ? _ ?|].
  cbn [waitParent]. apply keepsEntries_bind.
  { by apply keepsEntries_keepsMap. }
  intros s0. destruct (loadedMap s0 !! parent).
  { by apply keepsEntries_keepsMap. }
  apply keepsEntries_bind; [apply Hload|]. by intros _.
Qed.

Lemma legacyAssemble_keepsEntries oldID imageJSON parentID :
  keepsEntries (λ k, k ≠ oldID)
               (legacyAssemble E oldID sourceDir po imageJSON parentID).
Proof.
  unfold legacyAssemble.
  repeat first
    [ apply keepsEntries_setLoaded
    | apply keepsEntries_bind; [|intros ?]
    | apply keepsEntries_keepsMap; by keepsMap_model ].
Qed.

(** X16: whatever way [legacyLoadImage] ends (success, an error at any
    depth of the recursion on the parents, or a recursion without end),
    every old ID that was in the load map when it was called is still
    there, with the same image ID. *)
Theorem legacyLoadImage_keeps_loaded_entries fuel oldID s k v :
  loadedMap s !! k = Some v →
  loadedMap (legacyLoadImage E fuel oldID sourceDir po s).1.2 !! k = Some v.
Proof.
  revert oldID s k v.
  enough (∀ oldID, keepsEntries (λ _, True)
                     (legacyLoadImage E fuel oldID sourceDir po)) as Hall.
  { intros oldID s k v. by apply Hall. }
  induction fuel as [|n IH]; intros oldID; [by intros s ? ? _ ?|].
  intros s k v _ Hk. rewrite legacyLoadImage_S, bind_run. cbn [getState].
  destruct (decide (is_Some (loadedMap s !! oldID))) as [|Hout]; [done|].
  assert (k ≠ oldID) as Hne.
  { intros ->. apply Hout. by rewrite Hk. }
  match goal with
  | |- context [mbind ?f ?m s] =>
      assert (keepsEntries (λ k, k ≠ oldID) (mbind f m)) as Hbody;
      [|specialize (Hbody s k v Hne Hk);
        by destruct (mbind f m s) as [[r1 s1] t1]]
  end.
  apply keepsEntries_bind.
  { apply keepsEntries_keepsMap. by keepsMap_model. }
  intros configPath. apply keepsEntries_bind.
  { apply keepsEntries_keepsMap. by keepsMap_model. }
  intros imageJSON. apply keepsEntries_bind.
  { apply keepsEntries_keepsMap. by keepsMap_model. }
  intros parent. apply keepsEntries_bind.
  { destruct (decide _); [|apply keepsEntries_keepsMap; by keepsMap_model].
    apply keepsEntries_waitParent. intros p.
    eapply keepsEntries_weaken; [|apply IH]. done. }
  intros parentID. apply legacyAssemble_keepsEntries.
Qed.

(** X17: the loop of [legacyLoad] over the directory entries leaves out
    the entries that are not directories: it runs as it does on the
    directories alone. *)
Theorem legacyLoadDirs_skips_files fuel dirs s :
  legacyLoadDirs E fuel dirs sourceDir po s
  = legacyLoadDirs E fuel (filter (λ d, IsDir d = true) dirs) sourceDir po s.
Proof.
  revert s. induction dirs as [|d rest IH]; intros s; [done|].
  cbn [legacyLoadDirs]. destruct (IsDir d) eqn:Hd.
  - rewrite filter_cons_True by done. cbn [legacyLoadDirs].
    rewrite Hd, !bind_run.
    destruct (legacyLoadImage E fuel (Name d) sourceDir po s)
      as [[[[]|e|msg|] s1] t1]; try done.
    by rewrite IH.
  - rewrite filter_cons_False by (by rewrite Hd).
    rewrite bind_run. cbn. rewrite IH.
    by destruct (legacyLoadDirs E fuel _ sourceDir po s) as [[r1 s1] t1].
Qed.

Lemma settles_bind {A B} (m : M Σ A) (f : A → M Σ B) :
  settles m → (∀ a, settles (f a)) → settles (m ≫= f).
Proof.
  intros Hm Hf s b. rewrite bind_run. specialize (Hm s).
  destruct (m s) as [[[a|e|msg|] s1] t1]; cbn [fst snd] in *; try done.
  specialize (Hf a s1). destruct (f a s1) as [[r2 s2] t2].
  cbn [fst snd] in *.
  intros ->. by rewrite released_app, acquired_app, (Hm a), (Hf b).
Qed.

Lemma settles_emits {A} (m : M Σ A) :
  emits (λ ev, acquiredBy ev = None ∧ releasedBy ev = None) m → settles m.
Proof.
  intros Hm s a _. specialize (Hm s).
  rewrite released_none, acquired_none; [done| |];
    eapply Forall_impl; try exact Hm; by intros ev [? ?].
Qed.

Lemma loadLayer_Ok_acquired filename rootFS id s l s' t :
  loadLayer E filename rootFS id po s = (Ok l, s', t) →
  acquired t = [l] ∧ released t = [].
Proof.
  unfold loadLayer, osOpen, osStat, lsRegister, callStore. msimpl.
  destruct (os_Open E filename) as [e|rawTar]; msimpl; [done|].
  destruct (archive_DecompressStream E rawTar) as [e|data]; msimpl; [done|].
  destruct po; msimpl.
  - destruct (os_Stat E filename) as [e|n]; msimpl; [done|].
    destruct (ls_Register E (stores s) data _) as [[e|l'] σ];
      by intros [= <- <- <-].
  - destruct (ls_Register E (stores s) data _) as [[e|l'] σ];
      by intros [= <- <- <-].
Qed.

Lemma legacyAssemble_settles oldID imageJSON parentID :
  settles (legacyAssemble E oldID sourceDir po imageJSON parentID).
Proof.
  intros s u Hok.
  destruct (legacyAssemble E oldID sourceDir po imageJSON parentID s)
    as [[r s'] t] eqn:Hrun.
  cbn [fst snd] in *. subst r. unfold legacyAssemble in Hrun.
  minv Hrun as base s1 t1 t2 Hbase | r1 Hr; [|by destruct r1].
  assert (acquired t1 = [] ∧ released t1 = []) as [Ha1 Hr1].
  { split; [apply acquired_none|apply released_none].
    - eapply (emits_run (λ ev, acquiredBy ev = None)); [|exact Hbase].
      destruct (decide _); by emits_model.
    - eapply (emits_run (λ ev, releasedBy ev = None)); [|exact Hbase].
      destruct (decide _); by emits_model. }
  minv Hrun as layerPath s2 t3 t4 Hpath | r1 Hr; [|by destruct r1].
  rewrite safePath_run in Hpath. cbn zeta in Hpath.
  assert (acquired t3 = [] ∧ released t3 = []) as [Ha3 Hr3].
  { destruct (FollowSymlinkInScope E _ _); inversion Hpath; by subst. }
  minv Hrun as newLayer s3 t5 t6 Hlayer | r1 Hr; [|by destruct r1].
  apply loadLayer_Ok_acquired in Hlayer as [Ha5 Hr5].
  minv Hrun as h s4 t7 t8 Hh | r1 Hr; [|by destruct r1].
  assert (t7 = []) as ->.
  { destruct (v1_HistoryFromConfig E _ _); by inversion Hh. }
  minv Hrun as config s5 t9 t10 Hconfig | r1 Hr; [|by destruct r1].
  assert (t9 = []) as ->.
  { destruct (v1_MakeConfigFromV1Config E _ _ _); by inversion Hconfig. }
  minv Hrun as imgID s6 t11 t12 Hcreate | r1 Hr; [|by destruct r1].
  assert (acquired t11 = [] ∧ released t11 = []) as [Ha11 Hr11].
  { revert Hcreate. unfold isCreate, callStore.
    destruct (is_Create E (stores s5) config) as [[e|a] σ];
      by intros [= <- <- <-]. }
  minv Hrun as u1 s7 t13 t14 Hrelease | r1 Hr; [|by destruct r1].
  assert (t13 = [EvLsRelease newLayer]) as ->.
  { revert Hrelease. unfold lsRelease, callStore_.
    destruct (ls_Release E (stores s6) newLayer) as [[e|] σ];
      by intros [= <- <-]. }
  assert (acquired t14 = [] ∧ released t14 = []) as [Ha14 Hr14].
  { split; [apply acquired_none|apply released_none].
    - eapply (emits_run (λ ev, acquiredBy ev = None)); [|exact Hrun].
      by emits_model.
    - eapply (emits_run (λ ev, releasedBy ev = None)); [|exact Hrun].
      by emits_model. }
  rewrite !released_app, !acquired_app.
  rewrite Ha1, Hr1, Ha3, Hr3, Ha5, Hr5, Ha11, Hr11, Ha14, Hr14.
  done.
Qed.

Lemma legacyLoadImage_settles n :
  ∀ oldID, settles (legacyLoadImage E n oldID sourceDir po).
Proof.
  induction n as [|n IH]; intros oldID; [by intros s a|].
  rewrite legacyLoadImage_S. apply settles_bind.
  { apply settles_emits, emits_getState. }
  intros s0. destruct (decide _); [apply settles_emits, emits_ret|].
  apply settles_bind; [apply settles_emits; by emits_model|].
  intros configPath.
  apply settles_bind; [apply settles_emits; by emits_model|].
  intros imageJSON.
  apply settles_bind; [apply settles_emits; by emits_model|].
  intros parent. apply settles_bind.
  { destruct (decide _); [|apply settles_emits, emits_ret].
    generalize n at 2. intros k.
    induction k as [|k IHk]; [by intros s a|].
    cbn [waitParent]. apply settles_bind.
    { apply settles_emits, emits_getState. }
    intros s1. destruct (loadedMap s1 !! parent).
    { apply settles_emits, emits_ret. }
    apply settles_bind; [apply IH|]. by intros _. }
  intros parentID. apply legacyAssemble_settles.
Qed.

(** X18: a successful run of [legacyLoadImage], with the loads of the
    ancestors it has made on the way, and a successful run of
    [legacyLoad] have released every layer handle they took from
    [Register], each once and in the order they were taken. *)
Theorem legacyLoad_success_releases_handles fuel s s' t :
  (∃ oldID, legacyLoadImage E fuel oldID sourceDir po s = (Ok tt, s', t))
  ∨ legacyLoad E fuel sourceDir po s = (Ok tt, s', t) →
  released t = acquired t.
Proof.
  intros [[oldID Hrun]|Hrun].
  { pose proof (legacyLoadImage_settles fuel oldID s tt) as Hs.
    rewrite Hrun in Hs. by apply Hs. }
  enough (settles (legacyLoad E fuel sourceDir po)) as Hs.
  { specialize (Hs s tt). rewrite Hrun in Hs. by apply Hs. }
  clear. unfold legacyLoad.
  apply settles_bind; [apply settles_emits, emits_makeLoadedMap|]. intros _.
  apply settles_bind; [apply settles_emits; by emits_model|]. intros dirs.
  apply settles_bind.
  { induction dirs as [|d rest IH]; [apply settles_emits, emits_ret|].
    cbn [legacyLoadDirs]. apply settles_bind; [|by intros _].
    destruct (IsDir d);
      [apply legacyLoadImage_settles|apply settles_emits, emits_ret]. }
  intros _. apply settles_bind; [apply settles_emits; by emits_model|].
  intros repositoriesPath.
  apply settles_bind; [apply settles_emits; by emits_model|].
  intros [err|content]; apply settles_emits.
  - destruct (negb _); by emits_model.
  - apply emits_bind; [by emits_model|]. intros repositories.
    induction repositories as [|[name tagMap] rest IH]; [apply emits_ret|].
    cbn [legacyLoadRepositories]. apply emits_bind; [|by intros _].
    clear IH. induction tagMap as [|[tag oldID] rest' IH]; [apply emits_ret|].
    cbn [legacyLoadTags]. by emits_model.
Qed.
End LegacyFurther.

Section LegacyFurtherExamples.
Import Sample Worlds.

(** Two images that declare each other as parent. *)
Lemma legacyLoadImage_parent_cycle_has_no_end_witness :
  ∃ t, legacyLoadImage (env legacyCycle) 7 "A" "/tmp" true start
       = (OutOfFuel, start, t).
Proof.
  apply (legacyLoadImage_parent_cycle_has_no_end (env legacyCycle) "/tmp" true
           (λ x, x = "A" ∨ x = "B")).
  - intros x [->| ->].
    + exists "B". split; [reflexivity|]. split; [done|by right].
    + exists "A". split; [reflexivity|]. split; [done|by left].
  - by left.
  - intros x _. reflexivity.
Defined.

(** The image [X] loaded after its parent [P]: the entry of [P] stays. *)
Lemma legacyLoadImage_keeps_loaded_entries_witness :
  let s := (legacyLoadImage (env legacy) 1 "P" "/tmp" true start).1.2 in
  loadedMap s !! "P" = Some "img:jsonP@dataP"
  ∧ loadedMap (legacyLoadImage (env legacy) 3 "X" "/tmp" true s).1.2 !! "P"
    = Some "img:jsonP@dataP".
Proof.
  intros s. split; [vm_compute; reflexivity|].
  apply (legacyLoadImage_keeps_loaded_entries (env legacy) "/tmp" true 3 "X" s
           "P" "img:jsonP@dataP").
  vm_compute. reflexivity.
Defined.

(** The legacy archive of three images. *)
Lemma legacyLoad_success_releases_handles_witness :
  let x := legacyLoad (env legacy) 3 "/tmp" true start in
  x.1.1 = Ok tt ∧ released x.2 = acquired x.2.
Proof.
  intros x. split; [vm_compute; reflexivity|].
  apply (legacyLoad_success_releases_handles (env legacy) "/tmp" true 3 start
           x.1.2 x.2).
  right. vm_compute. reflexivity.
Defined.
End LegacyFurtherExamples.

(** ** References are bound to images of the archive only *)

Lemma foreignTags_app (known : list ImageID) (t1 t2 : list event) :
  foreignTags known (t1 ++ t2)
  = foreignTags known t1 ++ foreignTags (createdAfter known t1) t2.
Proof.
  revert known. induction t1 as [|ev t1 IH]; intros known; [done|].
  destruct ev as [| | | | | | | |config [id|]| | | |ref id f|]; cbn;
    try apply IH.
  destruct (bool_decide _); cbn; by rewrite IH.
Qed.

Lemma createdAfter_app (known : list ImageID) (t1 t2 : list event) :
  createdAfter known (t1 ++ t2) = createdAfter (createdAfter known t1) t2.
Proof.
  revert known. induction t1 as [|ev t1 IH]; intros known; [done|].
  destruct ev as [| | | | | | | |config [id|]| | | |ref id f|]; cbn;
    apply IH.
Qed.

Lemma createdAfter_mono (known : list ImageID) (t : list event) id :
  id ∈ known → id ∈ createdAfter known t.
Proof.
  revert known. induction t as [|ev t IH]; intros known Hid; [done|].
  destruct ev as [| | | | | | | |config [id'|]| | | |ref id' f|]; cbn;
    try by apply IH.
  apply IH. by apply elem_of_cons; right.
Qed.

Lemma foreignTags_none (known : list ImageID) (t : list event) :
  Forall (λ ev, isAddTag_event ev = false) t → foreignTags known t = [].
Proof.
  intros H. revert known.
  induction H as [|ev t Hev _ IH]; intros known; [done|].
  destruct ev as [| | | | | | | |config [id|]| | | |ref id f|]; cbn;
    try apply IH.
  done.
Qed.

(** A trace without foreign tags, read by positions. *)
Lemma foreignTags_nil_inv (known : list ImageID) (t : list event) :
  foreignTags known t = [] →
  ∀ i ref id force, t !! i = Some (EvRsAddTag ref id force) →
    id ∈ known
    ∨ ∃ j config, j < i ∧ t !! j = Some (EvIsCreate config (Some id)).
Proof.
  revert known. induction t as [|ev t IH]; intros known Hnil i ref id f Hi.
  { done. }
  destruct i as [|i].
  - cbn in Hi. inversion Hi; subst. cbn in Hnil.
    case_bool_decide; [by left|done].
  - cbn in Hi.
    assert (∃ known', foreignTags known' t = []
              ∧ ∀ x, x ∈ known' →
                     x ∈ known ∨ ∃ config, ev = EvIsCreate config (Some x))
      as (known' & Hnil' & Hres).
    { destruct ev as [| | | | | | | |config [x|]| | | |ref' x f'|];
        cbn in Hnil;
        try (exists known; split; [done|by left]).
      - exists (x :: known). split; [done|].
        intros x' [->|Hx']%elem_of_cons; [right; eauto|by left].
      - case_bool_decide; [|done].
        exists known. split; [done|by left]. }
    destruct (IH known' Hnil' i ref id f Hi) as [Hp|(j & config & Hj & Hev)].
    + destruct (Hres id Hp) as [?|(config & ->)]; [by left|].
      right. exists 0, config. split; [lia|done].
    + right. exists (S j), config. split; [lia|done].
Qed.

Section TagsOwn.
Context {Σ : Type} (E : Env Σ).
Implicit Types s : State Σ.

Lemma tagsOwn_emits {A} ids (m : M Σ A) :
  emits (λ ev, isAddTag_event ev = false) m → tagsOwn ids m.
Proof. intros Hm s known _. apply foreignTags_none, Hm. Qed.

Lemma tagsOwn_bind {A B} ids (m : M Σ A) (f : A → M Σ B) :
  tagsOwn ids m → (∀ a, tagsOwn ids (f a)) → tagsOwn ids (m ≫= f).
Proof.
  intros Hm Hf s known Hids. rewrite bind_run. specialize (Hm s known Hids).
  destruct (m s) as [[[a|e|msg|] s1] t1]; cbn [fst snd] in *; try done.
  specialize (Hf a s1 (createdAfter known t1)
                 (λ id Hid, createdAfter_mono _ _ _ (Hids id Hid))).
  destruct (f a s1) as [[r2 s2] t2]. cbn [fst snd] in *.
  by rewrite foreignTags_app, Hm, Hf.
Qed.

Lemma tagsOwn_catch {A} ids (m : M Σ A) : tagsOwn ids m → tagsOwn ids (catch m).
Proof.
  intros Hm s known Hids. unfold catch. specialize (Hm s known Hids).
  by destruct (m s) as [[[a|e|msg|] s1] t1].
Qed.

Lemma tagsOwn_discard {A} ids (m : M Σ A) :
  tagsOwn ids m → tagsOwn ids (discard m).
Proof.
  intros Hm. apply tagsOwn_bind; [by apply tagsOwn_catch|].
  intros _. apply tagsOwn_emits, emits_ret.
Qed.

(** The image ID that [Create] returns may be tagged by what follows. *)
Lemma tagsOwn_isCreate {B} ids config (k : ImageID → M Σ B) :
  (∀ id, tagsOwn (id :: ids) (k id)) → tagsOwn ids (isCreate E config ≫= k).
Proof.
  intros Hk s known Hids. rewrite bind_run. unfold isCreate, callStore.
  destruct (is_Create E (stores s) config) as [[e|id] σ]; [done|].
  specialize (Hk id (setStores s σ) (id :: known)).
  destruct (k id _) as [[r2 s2] t2]. cbn in *. apply Hk.
  intros x [->|Hx]%elem_of_cons; apply elem_of_cons; [by left|].
  right. by apply Hids.
Qed.

Lemma tagsOwn_setLoadedTag ids ref id :
  id ∈ ids → tagsOwn ids (setLoadedTag E ref id).
Proof.
  intros Hid. unfold setLoadedTag. apply tagsOwn_bind.
  { apply tagsOwn_emits. by emits_model. }
  intros prev. apply tagsOwn_bind.
  { apply tagsOwn_emits. by emits_model. }
  intros _ s known Hids. unfold rsAddTag, callStore_.
  destruct (rs_AddTag E (stores s) ref id true) as [[e|] σ]; cbn;
    by rewrite bool_decide_eq_true_2 by (by apply Hids).
Qed.

Lemma loadRepoTags_tagsOwn ids id repoTags :
  id ∈ ids → tagsOwn ids (loadRepoTags E id repoTags).
Proof.
  intros Hid. induction repoTags as [|repoTag rest IH].
  { apply tagsOwn_emits, emits_ret. }
  cbn [loadRepoTags]. apply tagsOwn_bind; [apply tagsOwn_emits, emits_liftE|].
  intros named. destruct (asNamedTagged named) as [ref|];
    [|apply tagsOwn_emits, emits_throw].
  apply tagsOwn_bind.
  { by apply tagsOwn_discard, tagsOwn_setLoadedTag. }
  intros _. apply tagsOwn_bind; [apply tagsOwn_emits; by emits_model|].
  by intros _.
Qed.

Lemma loadManifests_tagsOwn tmpDir po manifests :
  tagsOwn [] (loadManifests E tmpDir po manifests).
Proof.
  induction manifests as [|m rest IH]; [apply tagsOwn_emits, emits_ret|].
  cbn [loadManifests]. apply tagsOwn_bind; [|by intros _].
  unfold loadManifestItem.
  apply tagsOwn_bind; [apply tagsOwn_emits; by emits_model|].
  intros configPath.
  apply tagsOwn_bind; [apply tagsOwn_emits; by emits_model|].
  intros config.
  apply tagsOwn_bind; [apply tagsOwn_emits; by emits_model|].
  intros img. cbn zeta.
  destruct (decide _); [apply tagsOwn_emits, emits_throw|].
  apply tagsOwn_bind; [apply tagsOwn_emits; by apply loadLayers_emits|].
  intros _. apply tagsOwn_isCreate. intros id.
  apply loadRepoTags_tagsOwn, list_elem_of_here.
Qed.

Lemma loadHelper_tagsOwn tmpDir manifests po :
  tagsOwn [] (loadHelper E tmpDir manifests po).
Proof.
  intros s known Hids. unfold loadHelper, withDeferred.
  pose proof (loadManifests_tagsOwn tmpDir po manifests
                (mkState (stores s) (loadedMap s) []) known Hids) as Hbody.
  destruct (loadManifests E tmpDir po manifests _) as [[r1 s1] t1].
  cbn [snd] in Hbody.
  pose proof (emits_runDeferred E (λ ev, isAddTag_event ev = false)
                (deferred s1) (λ _, eq_refl) (stores s1)) as Hrel.
  destruct (runDeferred E (deferred s1) (stores s1)) as [σ2 t2].
  cbn [snd] in Hrel. destruct r1; cbn [snd]; try done;
    rewrite foreignTags_app, Hbody; by apply foreignTags_none.
Qed.

Lemma ociLoad_tagsOwn tmpDir name refs po :
  tagsOwn [] (ociLoad E tmpDir name refs po).
Proof.
  unfold ociLoad. destruct (decide _); [apply tagsOwn_emits, emits_throw|].
  destruct (decide _); [apply tagsOwn_emits, emits_throw|].
  apply tagsOwn_bind; [apply tagsOwn_emits; by emits_model|].
  intros indexJSON.
  apply tagsOwn_bind; [apply tagsOwn_emits; by emits_model|].
  intros index. apply tagsOwn_bind.
  { apply tagsOwn_emits. intros s.
    eapply Forall_impl; [apply ociManifests_opens|].
    by intros [| | | | | | | | | | | | |]. }
  intros manifests. apply loadHelper_tagsOwn.
Qed.

(** The legacy loader: the load map carries the image IDs from [Create]
    to the tags. *)
Lemma tagsLoaded_keeps {A} ids (m : M Σ A) :
  tagsOwn ids m → keepsMap m → tagsLoaded ids m.
Proof.
  intros Hm Hkeep s known Hmap Hids. split; [by apply Hm|].
  intros k v. rewrite Hkeep. intros Hk.
  by apply createdAfter_mono, (Hmap k).
Qed.

Lemma tagsLoaded_bind {A B} ids (m : M Σ A) (f : A → M Σ B) :
  tagsLoaded ids m → (∀ a, tagsLoaded ids (f a)) → tagsLoaded ids (m ≫= f).
Proof.
  intros Hm Hf s known Hmap Hids. rewrite bind_run.
  destruct (Hm s known Hmap Hids) as [Hm1 Hm2].
  destruct (m s) as [[[a|e|msg|] s1] t1]; cbn [fst snd] in *; try done.
  destruct (Hf a s1 (createdAfter known t1) Hm2
              (λ id Hid, createdAfter_mono _ _ _ (Hids id Hid)))
    as [Hf1 Hf2].
  destruct (f a s1) as [[r2 s2] t2]. cbn [fst snd] in *.
  by rewrite foreignTags_app, createdAfter_app, Hm1, Hf1.
Qed.

Lemma tagsLoaded_isCreate {B} ids config (k : ImageID → M Σ B) :
  (∀ id, tagsLoaded (id :: ids) (k id)) →
  tagsLoaded ids (isCreate E config ≫= k).
Proof.
  intros Hk s known Hmap Hids. rewrite bind_run. unfold isCreate, callStore.
  destruct (is_Create E (stores s) config) as [[e|id] σ]; cbn [fst snd].
  { split; [done|]. apply Hmap. }
  specialize (Hk id (setStores s σ) (id :: known)).
  destruct (k id _) as [[r2 s2] t2]. cbn in *. apply Hk.
  - intros k0 v Hk0. apply elem_of_cons. right. by apply (Hmap k0).
  - intros x [->|Hx]%elem_of_cons; apply elem_of_cons; [by left|].
    right. by apply Hids.
Qed.

Lemma tagsLoaded_setLoaded ids oldID id :
  id ∈ ids → tagsLoaded (Σ:=Σ) ids (setLoaded oldID id).
Proof.
  intros Hid s known Hmap Hids. split; [done|]. cbn. intros k v.
  destruct (decide (k = oldID)) as [->|Hne].
  - rewrite lookup_insert_eq. intros [= <-]. by apply Hids.
  - rewrite lookup_insert_ne by done. apply Hmap.
Qed.

Lemma tagsLoaded_quiet {A} ids (m : M Σ A) :
  emits (λ ev, isAddTag_event ev = false) m → keepsMap m → tagsLoaded ids m.
Proof. intros Hm. by apply tagsLoaded_keeps, tagsOwn_emits. Qed.

Lemma legacyAssemble_tagsLoaded oldID sourceDir po imageJSON parentID :
  tagsLoaded [] (legacyAssemble E oldID sourceDir po imageJSON parentID).
Proof.
  unfold legacyAssemble.
  apply tagsLoaded_bind.
  { apply tagsLoaded_quiet; destruct (decide _);
      first [by emits_model | by keepsMap_model]. }
  intros base. apply tagsLoaded_bind.
  { apply tagsLoaded_quiet; first [by emits_model | by keepsMap_model]. }
  intros layerPath. apply tagsLoaded_bind.
  { apply tagsLoaded_quiet; first [by emits_model | by keepsMap_model]. }
  intros newLayer. cbn zeta. apply tagsLoaded_bind.
  { apply tagsLoaded_quiet; first [by emits_model | by keepsMap_model]. }
  intros h. apply tagsLoaded_bind.
  { apply tagsLoaded_quiet; first [by emits_model | by keepsMap_model]. }
  intros config. apply tagsLoaded_isCreate. intros id.
  apply tagsLoaded_bind.
  { apply tagsLoaded_quiet; first [by emits_model | by keepsMap_model]. }
  intros _. apply tagsLoaded_bind.
  { apply tagsLoaded_quiet; destruct (decide _);
      first [by emits_model | by keepsMap_model]. }
  intros _. apply tagsLoaded_setLoaded, list_elem_of_here.
Qed.

Lemma legacyLoadImage_tagsLoaded n :
  ∀ oldID sourceDir po,
    tagsLoaded [] (legacyLoadImage E n oldID sourceDir po).
Proof.
  induction n as [|n IH]; intros oldID sourceDir po.
  { apply tagsLoaded_quiet; [apply emits_outOfFuel|by intros s]. }
  rewrite legacyLoadImage_S. apply tagsLoaded_bind.
  { apply tagsLoaded_quiet; [apply emits_getState|by intros s]. }
  intros s0. destruct (decide _).
  { apply tagsLoaded_quiet; [apply emits_ret|by intros s]. }
  apply tagsLoaded_bind.
  { apply tagsLoaded_quiet; first [by emits_model | by keepsMap_model]. }
  intros configPath. apply tagsLoaded_bind.
  { apply tagsLoaded_quiet; first [by emits_model | by keepsMap_model]. }
  intros imageJSON. apply tagsLoaded_bind.
  { apply tagsLoaded_quiet; first [by emits_model | by keepsMap_model]. }
  intros parent. apply tagsLoaded_bind.
  { destruct (decide _);
      [|apply tagsLoaded_quiet; [apply emits_ret|by intros s]].
    generalize n at 2. intros k. induction k as [|k IHk].
    { apply tagsLoaded_quiet; [apply emits_outOfFuel|by intros s]. }
    cbn [waitParent]. apply tagsLoaded_bind.
    { apply tagsLoaded_quiet; [apply emits_getState|by intros s]. }
    intros s1. destruct (loadedMap s1 !! parent).
    { apply tagsLoaded_quiet; [apply emits_ret|by intros s]. }
    apply tagsLoaded_bind; [apply IH|]. by intros _. }
  intros parentID. apply legacyAssemble_tagsLoaded.
Qed.

Lemma legacyLoadTags_tagsLoaded name tagMap :
  tagsLoaded [] (legacyLoadTags E name tagMap).
Proof.
  induction tagMap as [|[tag oldID] rest IH].
  { apply tagsLoaded_quiet; [apply emits_ret|by intros s]. }
  cbn [legacyLoadTags]. intros s known Hmap Hids.
  rewrite bind_run. cbn [getState].
  destruct (loadedMap s !! oldID) as [imgID|] eqn:Hold.
  2:{ split; [done|]. apply Hmap. }
  assert (tagsLoaded [imgID]
            (named ← liftE (reference_WithName E name);
             ref ← liftE (reference_WithTag E named tag);
             discard (setLoadedTag E ref imgID);;
             write (loadedMessage E ref imgID);;
             legacyLoadTags E name rest)) as Hrest.
  { apply tagsLoaded_bind.
    { apply tagsLoaded_quiet; first [by emits_model | by keepsMap_model]. }
    intros named. apply tagsLoaded_bind.
    { apply tagsLoaded_quiet; first [by emits_model | by keepsMap_model]. }
    intros ref. apply tagsLoaded_bind.
    { apply tagsLoaded_keeps.
      - apply tagsOwn_discard, tagsOwn_setLoadedTag, list_elem_of_here.
      - unfold discard. apply keepsMap_bind; [|intros ?; apply keepsMap_ret].
        unfold setLoadedTag. by keepsMap_model. }
    intros _. apply tagsLoaded_bind.
    { apply tagsLoaded_quiet; first [by emits_model | by keepsMap_model]. }
    intros _ s1 known1 Hmap1 _.
    apply IH; [done|by intros ? ?%elem_of_nil]. }
  specialize (Hrest s known Hmap).
  match goal with
  | |- context [mbind ?f ?m s] => destruct (mbind f m s) as [[r1 s1] t1]
  end.
  cbn [fst snd app] in *. apply Hrest.
  intros id ->%list_elem_of_singleton. by apply (Hmap oldID).
Qed.

Lemma legacyLoad_tagsOwn n tmpDir po : tagsOwn [] (legacyLoad E n tmpDir po).
Proof.
  intros s known _. unfold legacyLoad. rewrite bind_run. cbn [makeLoadedMap].
  match goal with
  | |- context [mbind ?f ?m ?s0] =>
      assert (tagsLoaded [] (mbind f m)) as Hrest;
      [|destruct (Hrest s0 known) as [Hnil _];
        [done|by intros ? ?%elem_of_nil|];
        by destruct (mbind f m s0) as [[r1 s1] t1]]
  end.
  apply tagsLoaded_bind.
  { apply tagsLoaded_quiet; first [by emits_model | by keepsMap_model]. }
  intros dirs. apply tagsLoaded_bind.
  { induction dirs as [|d rest IH].
    { apply tagsLoaded_quiet; [apply emits_ret|by intros ?]. }
    cbn [legacyLoadDirs]. apply tagsLoaded_bind; [|by intros _].
    destruct (IsDir d); [apply legacyLoadImage_tagsLoaded|].
    apply tagsLoaded_quiet; [apply emits_ret|by intros ?]. }
  intros _. apply tagsLoaded_bind.
  { apply tagsLoaded_quiet; first [by emits_model | by keepsMap_model]. }
  intros repositoriesPath. apply tagsLoaded_bind.
  { apply tagsLoaded_quiet; first [by emits_model | by keepsMap_model]. }
  intros [err|content].
  - apply tagsLoaded_quiet; destruct (negb _);
      first [by emits_model | by keepsMap_model | by intros ?].
  - apply tagsLoaded_bind.
    { apply tagsLoaded_quiet; first [by emits_model | by keepsMap_model]. }
    intros repositories.
    induction repositories as [|[name tagMap] rest IH].
    { apply tagsLoaded_quiet; [apply emits_ret|by intros ?]. }
    cbn [legacyLoadRepositories].
    apply tagsLoaded_bind; [apply legacyLoadTags_tagsLoaded|]. by intros _.
Qed.

(** X19: whatever the format of the archive and whatever way [Load]
    ends, every reference it binds with [AddTag] is bound to an image ID
    that [Create] has returned earlier in the same run: tags go to images
    made from the archive, never to an image that was in the store
    before. *)
Theorem Load_tags_only_created_images fuel inTar name refs s i ref id force :
  (Load E fuel inTar name refs s).2 !! i = Some (EvRsAddTag ref id force) →
  ∃ j config, j < i
    ∧ (Load E fuel inTar name refs s).2 !! j
      = Some (EvIsCreate config (Some id)).
Proof.
  intros Hi.
  assert (foreignTags [] (Load E fuel inTar name refs s).2 = []) as Hnil.
  { clear. rewrite Load_unfold, bind_run.
    destruct (ioutil_TempDir E) as [e|tmpDir]; [done|]. cbn [liftE ret].
    assert (tagsOwn [] (loadExtracted E fuel inTar name refs tmpDir))
      as Hbody.
    { unfold loadExtracted.
      destruct (chrootarchive_Untar E inTar tmpDir);
        [apply tagsOwn_emits, emits_throw|].
      apply tagsOwn_bind; [apply tagsOwn_emits; by emits_model|].
      intros ociLayoutPath.
      apply tagsOwn_bind; [apply tagsOwn_emits; by emits_model|].
      intros [err|content]; [|apply ociLoad_tagsOwn].
      unfold loadArchive.
      apply tagsOwn_bind; [apply tagsOwn_emits; by emits_model|].
      intros manifestPath.
      apply tagsOwn_bind; [apply tagsOwn_emits; by emits_model|].
      intros [err'|content].
      - destruct (os_IsNotExist err'); [apply legacyLoad_tagsOwn|].
        apply tagsOwn_emits. by emits_model.
      - apply tagsOwn_bind; [apply tagsOwn_emits, emits_liftE|].
        intros manifest. apply loadHelper_tagsOwn. }
    specialize (Hbody s [] (λ _ H, H)). unfold withRemoveAll.
    destruct (loadExtracted E fuel inTar name refs tmpDir s)
      as [[r1 s1] t1].
    cbn [snd] in Hbody.
    destruct r1; cbn; rewrite ?app_nil_r; try done;
      rewrite foreignTags_app, Hbody; done. }
  destruct (foreignTags_nil_inv _ _ Hnil _ _ _ _ Hi) as [Hin|Hex]; [|done].
  by apply elem_of_nil in Hin.
Qed.
End TagsOwn.

Section TagsExamples.
Import Sample Worlds.

(** The tag of the legacy archive, bound at position 36 to the image made
    for [X]. *)
Lemma Load_tags_only_created_images_witness :
  (Load (env legacy) 3 "tar" "" ∅ start).2 !! 36
    = Some (EvRsAddTag (mkNamedTagged "sample" "latest")
              "img:jsonX@dataP/dataX" true)
  ∧ ∃ j config, j < 36
      ∧ (Load (env legacy) 3 "tar" "" ∅ start).2 !! j
        = Some (EvIsCreate config (Some "img:jsonX@dataP/dataX")).
Proof.
  split; [vm_compute; reflexivity|].
  apply (Load_tags_only_created_images (env legacy) 3 "tar" "" ∅ start 36
           (mkNamedTagged "sample" "latest") "img:jsonX@dataP/dataX" true).
  vm_compute. reflexivity.
Defined.
End TagsExamples.
